(** * metrictank: the Cassandra chunk store and the Graphite msgp envelopes

    A shallow embedding of
    - [src/docs/CONTRIBUTING], second part: package [cassandra]
      ([GetTTLTable], [processWriteQueue], [insertChunk], [processReadQueue],
      [SearchTable]);
    - [src/metric_tank/aggmetrics.go], second part ([InsertChunk]);
    - [src/api/models/graphite_gen.go] ([MarshalMsg] / [UnmarshalMsg] of the
      four generated message types).

    Machine integers are integers of [Z] with their wrap-around written out
    ([uint32], [int] = 64 bits).  Go strings are [string]s (sequences of 8-bit
    characters), byte slices are lists of [Z] in [0, 256). *)

From Stdlib Require Import ZArith QArith Qround Lia Ascii DecimalString DecimalZ.
From stdpp Require Import gmap strings list fin_maps sorting.

Local Open Scope Z_scope.

(** ** Go's fixed-width integers *)

Module go.

(** Conversion to [uint32]: the low 32 bits. *)
Definition uint32 (z : Z) : Z := z mod 2 ^ 32.

(** Conversion to [int] / [int64] (two's complement, 64 bits). *)
Definition int (z : Z) : Z := (z + 2 ^ 63) mod 2 ^ 64 - 2 ^ 63.

Definition is_uint32 (z : Z) : Prop := 0 <= z < 2 ^ 32.
Definition is_int (z : Z) : Prop := - 2 ^ 63 <= z < 2 ^ 63.

End go.

(** ** [fmt.Sprintf]

    The fragment of [fmt.Sprintf] this package uses: operands are [uint32]
    values and strings; directives are [%d], [%s], [%v] and [%%].  A missing
    operand prints [%!d(MISSING)], a format that ends in [%] prints
    [%!(NOVERB)], unused operands print [%!(EXTRA type=value, ...)].  The
    model is what Go prints for the formats of this package, [metric_%d]
    and [%s_%d], and for every format of these directives with fitting
    operands.  Flags, widths, the other verbs, a verb that does not fit its
    operand and operands left over after a final [%] are outside the
    fragment: there the model copies the directive through and drops the
    operand, which is not what Go prints.  What is stated of the router for
    every name format therefore takes the formatter as a parameter (module
    [cassandra.formatter]). *)

Module fmt.

Inductive arg : Type :=
| ArgUint32 (n : Z)
| ArgString (s : string).

(** Decimal rendering of an integer, as [%d] prints it. *)
Definition decimal (n : Z) : string := NilZero.string_of_int (Z.to_int n).

Definition verb (c : ascii) (a : arg) : option string :=
  match a with
  | ArgUint32 n =>
      if Ascii.eqb c "d" || Ascii.eqb c "v"
      then Some (decimal n) else None
  | ArgString s =>
      if Ascii.eqb c "s" || Ascii.eqb c "v"
      then Some s else None
  end.

Definition typed (a : arg) : string :=
  match a with
  | ArgUint32 n => "uint32=" +:+ decimal n
  | ArgString s => "string=" +:+ s
  end.

Fixpoint extras (args : list arg) : string :=
  match args with
  | [] => ""
  | [a] => typed a
  | a :: rest => typed a +:+ ", " +:+ extras rest
  end.

Fixpoint Sprintf (format : string) (args : list arg) : string :=
  match format with
  | EmptyString =>
      match args with
      | [] => ""
      | _ => "%!(EXTRA " +:+ extras args +:+ ")"
      end
  | String c rest =>
      if Ascii.eqb c "%" then
        match rest with
        | EmptyString => "%!(NOVERB)"
        | String v rest' =>
            if Ascii.eqb v "%" then String "%" (Sprintf rest' args)
            else
              match args with
              | [] => "%!" +:+ String v "(MISSING)" +:+ Sprintf rest' []
              | a :: args' =>
                  match verb v a with
                  | Some s => s +:+ Sprintf rest' args'
                  | None => String "%" (String v (Sprintf rest' args'))
                  end
              end
        end
      else String c (Sprintf rest args)
  end.

End fmt.

(** ** Package [cassandra]: constants and the TTL-table router *)

Module cassandra.
Import go fmt.

(** [const Month_sec = 60 * 60 * 24 * 28] *)
Definition Month_sec : Z := 60 * 60 * 24 * 28.

(** [const Table_name_format = `metric_%d`] *)
Definition Table_name_format : string := "metric_%d".

(** [type ttlTable struct { Table string; WindowSize uint32 }] *)
Record ttlTable : Type := { Table : string; WindowSize : Z }.

(** *** The [float64] computation of [GetTTLTable]

    [uint32(math.Exp2(math.Floor(math.Log2(ttlUnits(ttl)))))] is computed in
    [float64].  The values are modelled exactly: a finite float as the rational
    it denotes, [-Inf] for [math.Log2(0)].  On the operands that occur the
    rounding of [float64] does not change the result: [float64(ttl)] is exact
    for a 32-bit [ttl]; the quotient by 3600 is correctly rounded, and a power
    of two is a float, so rounding never crosses one; [math.Log2] is exact on
    powers of two (it splits the operand with [Frexp]) and stays strictly
    between two consecutive integers elsewhere, the operand being at least
    [2^-32] away, relatively, from a power of two; [math.Floor] and [math.Exp2]
    of an integer are exact. *)

Inductive exponent : Type :=
| NegInf
| Fin (e : Z).

(** [func ttlUnits(ttl uint32) float64 { return float64(ttl) / (60 * 60) }] *)
Definition ttlUnits (ttl : Z) : Q := Qmake ttl 3600.

(** [math.Floor(math.Log2(x))] for [x >= 0]: [-Inf] at 0, otherwise the
    integer [e] with [2^e <= x < 2^(e+1)]. *)
Definition FloorLog2 (x : Q) : exponent :=
  if Qle_bool x 0 then NegInf
  else if Qle_bool 1 x then Fin (Z.log2 (Qfloor x))
  else Fin (- Z.log2_up (Qceiling (Qinv x))).

(** [math.Exp2] on the values [math.Floor] returns here: [2^e], and 0 at
    [-Inf]. *)
Definition Exp2 (e : exponent) : Q :=
  match e with
  | NegInf => 0%Q
  | Fin e => if 0 <=? e then inject_Z (2 ^ e) else Qinv (inject_Z (2 ^ (- e)))
  end.

(** The conversion [uint32(f)] of a non-negative float: the fractional part
    is discarded. *)
Definition uint32_of_float64 (f : Q) : Z := uint32 (Qfloor f).

Definition preFactorWindow (ttl : Z) : Z :=
  uint32_of_float64 (Exp2 (FloorLog2 (ttlUnits ttl))).

(** [func GetTTLTable(ttl uint32, windowFactor int, nameFormat string) ttlTable].
    [None] is the run-time panic of the integer division when
    [uint32(windowFactor)] is 0. *)
Definition GetTTLTable (ttl windowFactor : Z) (nameFormat : string)
  : option ttlTable :=
  let preFactorWindow := preFactorWindow ttl in
  let tableName := Sprintf nameFormat [ArgUint32 preFactorWindow] in
  if uint32 windowFactor =? 0 then None
  else Some {| Table := tableName;
               WindowSize := uint32 (preFactorWindow / uint32 windowFactor + 1) |}.

(** *** Row keys

    [row_key := fmt.Sprintf("%s_%d", key, t0/Month_sec)], the same line in
    [CassandraStore.insertChunk] and in [InsertChunk] of
    [metric_tank/aggmetrics.go]. *)
Definition row_key (key : string) (t0 : Z) : string :=
  Sprintf "%s_%d" [ArgString key; ArgUint32 (t0 / Month_sec)].

(** *** The row keys of [SearchTable]

<<
    start_month := start - (start % Month_sec)
    end_month := (end - 1) - ((end - 1) % Month_sec)
    var rowKeys []string
    for month := start_month; month <= end_month; month += Month_sec {
        rowKeys = append(rowKeys, fmt.Sprintf("%s_%d", key, month/Month_sec))
    }
>>
    All operands are [uint32].  The loop is run with fuel: [None] means the
    loop has not left within [fuel] iterations. *)
Definition start_month (start : Z) : Z := uint32 (start - start mod Month_sec).
Definition end_month (end_ : Z) : Z :=
  uint32 (uint32 (end_ - 1) - uint32 (end_ - 1) mod Month_sec).

Fixpoint rowKeys_loop (fuel : nat) (key : string) (month end_month : Z)
  (rowKeys : list string) : option (list string) :=
  match fuel with
  | O => None
  | S fuel' =>
      if month <=? end_month
      then rowKeys_loop fuel' key (uint32 (month + Month_sec)) end_month
             (rowKeys ++ [row_key key month])
      else Some rowKeys
  end.

Definition rowKeys (fuel : nat) (key : string) (start end_ : Z)
  : option (list string) :=
  rowKeys_loop fuel key (start_month start) (end_month end_) [].

(** *** Errors

    The package's error values, the two context errors [SearchTable]
    compares against, and any other error of the driver. *)
Inductive error : Type :=
| errChunkTooSmall
| errInvalidRange
| errReadQueueFull
| errReadTooOld
| errTableNotFound
| errCtxCanceled
| context_Canceled
| context_DeadlineExceeded
| errUnknownFormat
| errUnknownSpanCode
| errDriver (msg : string).

#[export] Instance error_eq_dec : EqDecision error.
Proof. solve_decision. Defined.

(** *** The writer: [processWriteQueue]

    [mdata.ChunkWriteRequest], with [Key] standing for [cwr.Key.String()],
    [T0] for [cwr.Chunk.T0] and [Series] for [cwr.Chunk.Series.Bytes()]. *)
Record ChunkWriteRequest : Type := {
  Key : string;
  TTL : Z;
  T0 : Z;
  Series : list Z;
  Span : Z
}.

(** What a writer does that is visible outside it. *)
Inductive event : Type :=
| EvInsertChunk (key : string) (t0 ttl : Z) (buf : list Z) (err : option error)
| EvSyncChunkSaveState (t0 : Z)
| EvSendPersistMessage (key : string) (t0 : Z)
| EvChunkSaveOk
| EvChunkSaveFail
| EvErrMetric (err : error)
| EvLogWarn (attempts : Z)
| EvSleep (d : Z).

(** [time.Millisecond], in nanoseconds, the unit of [time.Duration]. *)
Definition Millisecond : Z := 1000000.

(** [chunk.FormatStandardGoTszWithSpan]. *)
Definition FormatStandardGoTszWithSpan : Z := 1.

Section writer.

(** [chunk.RevChunkSpans], the static table from spans to span codes, is
    declared in package [chunk]: it is a parameter here. *)
Variable RevChunkSpans : Z -> option Z.

(** [func PrepareChunkData(span uint32, data []byte) []byte]: [None] is the
    panic on a span that is not in the table. *)
Definition PrepareChunkData (span : Z) (data : list Z) : option (list Z) :=
  match RevChunkSpans span with
  | None => None
  | Some spanCode => Some (FormatStandardGoTszWithSpan :: spanCode :: data)
  end.

(** The retry loop of [processWriteQueue]:
<<
    success := false
    attempts := 0
    for !success {
        err := c.insertChunk(keyStr, cwr.Chunk.T0, cwr.TTL, buf)
        if err == nil {
            success = true
            cwr.Metric.SyncChunkSaveState(cwr.Chunk.T0)
            mdata.SendPersistMessage(keyStr, cwr.Chunk.T0)
            chunkSaveOk.Inc()
        } else {
            errmetrics.Inc(err)
            if (attempts % 20) == 0 { log.Warn(..., attempts+1, ...) }
            chunkSaveFail.Inc()
            sleepTime := 100 * attempts
            if sleepTime > 2000 { sleepTime = 2000 }
            time.Sleep(time.Duration(sleepTime) * time.Millisecond)
            attempts++
        }
    }
>>
    [results] is what the successive calls of [insertChunk] return ([None]
    for [nil]).  The function returns the events of the loop and [success];
    [success = false] means that the results ran out with the loop still
    retrying.  [attempts] and [sleepTime] are [int]s. *)

(** The argument of [time.Sleep] in the failure branch. *)
Definition sleepDuration (attempts : Z) : Z :=
  let sleepTime := int (100 * attempts) in
  let sleepTime := if sleepTime >? 2000 then 2000 else sleepTime in
  int (sleepTime * Millisecond).

Fixpoint insertLoop (cwr : ChunkWriteRequest) (buf : list Z)
    (results : list (option error)) (attempts : Z) : list event * bool :=
  match results with
  | [] => ([], false)
  | None :: _ =>
      ([EvInsertChunk (Key cwr) (T0 cwr) (TTL cwr) buf None;
        EvSyncChunkSaveState (T0 cwr);
        EvSendPersistMessage (Key cwr) (T0 cwr);
        EvChunkSaveOk], true)
  | Some err :: results' =>
      let warn :=
        if Z.rem attempts 20 =? 0 then [EvLogWarn (int (attempts + 1))]
        else [] in
      let '(events, success) :=
        insertLoop cwr buf results' (int (attempts + 1)) in
      (EvInsertChunk (Key cwr) (T0 cwr) (TTL cwr) buf (Some err)
         :: EvErrMetric err
         :: warn
         ++ EvChunkSaveFail
         :: EvSleep (sleepDuration attempts)
         :: events,
       success)
  end.

(** The body of [case cwr := <-queue]: the frame is prepared once, then the
    loop runs.  [None] is the panic of [PrepareChunkData]. *)
Definition saveChunk (cwr : ChunkWriteRequest) (results : list (option error))
  : option (list event * bool) :=
  match PrepareChunkData (Span cwr) (Series cwr) with
  | None => None
  | Some buf => Some (insertLoop cwr buf results 0)
  end.

End writer.

(** Readings of a trace: the successful inserts and the failed ones (key,
    t0, ttl and frame of each), the [SyncChunkSaveState] calls and the
    sleeps. *)
Definition insertsOk (tr : list event) : list (string * Z * Z * list Z) :=
  omap (fun e => match e with
                 | EvInsertChunk k t0 ttl buf None => Some (k, t0, ttl, buf)
                 | _ => None
                 end) tr.
Definition insertsFailed (tr : list event) : list (string * Z * Z * list Z) :=
  omap (fun e => match e with
                 | EvInsertChunk k t0 ttl buf (Some _) => Some (k, t0, ttl, buf)
                 | _ => None
                 end) tr.
Definition syncs (tr : list event) : list Z :=
  omap (fun e => match e with EvSyncChunkSaveState t0 => Some t0 | _ => None end) tr.
Definition sleeps (tr : list event) : list Z :=
  omap (fun e => match e with EvSleep d => Some d | _ => None end) tr.

(** *** The store

    [CassandraStore], as far as the write and read paths use it: whether
    there is a session ([c.Session != nil]) and the TTL tables. *)
Record CassandraStore : Type := {
  Session : bool;
  ttlTables : gmap Z ttlTable
}.

(** [func (c *CassandraStore) getTable(ttl uint32) (string, error)] *)
Definition getTable (c : CassandraStore) (ttl : Z) : string + error :=
  match ttlTables c !! ttl with
  | None => inr errTableNotFound
  | Some entry => inl (Table entry)
  end.

(** Modelled from the spec: the Cassandra tables, with columns
    [(key ascii, ts int, data blob, PRIMARY KEY (key, ts))]: per table, at
    most one [data] for a row key and a [ts]. *)
Abbreviation database := (gmap (string * string * Z) (list Z)).

(** What [Exec] does with an [INSERT]: it succeeds, or it fails with an
    error, the row written or not. *)
Inductive exec : Type :=
| ExecOk
| ExecFailed (err : error) (written : bool).

(** [func (c *CassandraStore) insertChunk(key string, t0, ttl uint32, data []byte) error]:
    the new contents of the database and the error returned. *)
Definition insertChunk (c : CassandraStore) (db : database) (key : string)
    (t0 ttl : Z) (data : list Z) (e : exec) : database * option error :=
  if negb (Session c) then (db, None)
  else
    match getTable c ttl with
    | inr err => (db, Some err)
    | inl table =>
        let row_key := row_key key t0 in
        match e with
        | ExecOk => (<[(table, row_key, t0) := data]> db, None)
        | ExecFailed err written =>
            (if written then <[(table, row_key, t0) := data]> db else db,
             Some err)
        end
    end.

(** The databases that [insertChunk] fills. *)
Inductive written (c : CassandraStore) : database -> Prop :=
| written_empty : written c ∅
| written_insert (db : database) (key : string) (t0 ttl : Z) (data : list Z)
    (e : exec) :
    written c db -> is_uint32 t0 ->
    written c (insertChunk c db key t0 ttl data e).1.

(** The rows of [SELECT ts, data FROM table WHERE key IN rowKeys AND ts < end],
    in the order of [map_to_list]; a scan delivers them in some order. *)
Definition selected (table : string) (rowKeys : list string) (end_ : Z)
    (entry : (string * string * Z) * list Z) : option (Z * list Z) :=
  let '((tbl, row_key, ts), data) := entry in
  if bool_decide (tbl = table /\ row_key ∈ rowKeys /\ ts < end_)
  then Some (ts, data) else None.

Definition query_rows (db : database) (table : string)
    (rowKeys : list string) (end_ : Z) : list (Z * list Z) :=
  omap (selected table rowKeys end_) (map_to_list db).

(** *** Iterator generators

    Modelled from the spec: [chunk.IterGen] and [chunk.NewGen], the decoder
    of a chunk frame ("validates the length, validates the format,
    materializes an iterator-generator parameterized by t0 and the compressed
    payload"), and [chunk.IterGensAsc], the order by ascending [T0]. *)
Record IterGen : Type := { Ts : Z; SpanOf : Z; B : list Z }.

(** [a] may stand before [b] in a slice sorted as [IterGensAsc]. *)
Definition IterGensAsc (a b : IterGen) : Prop := Ts a <= Ts b.

#[export] Instance IterGensAsc_dec (a b : IterGen) : Decision (IterGensAsc a b).
Proof. unfold IterGensAsc. apply _. Defined.

(** [sort.Sort(chunk.IterGensAsc(itgens))].  [sort.Sort] promises a sorted
    permutation and nothing about the order of equal elements; merge sort is
    one such sort. *)
Definition sortIterGensAsc (itgens : list IterGen) : list IterGen :=
  merge_sort IterGensAsc itgens.

(** What a query hands back: the rows [Scan] delivers and the error of
    [Close]. *)
Record Iter : Type := { rows : list (Z * list Z); closeErr : option error }.

(** [type readResult struct { i *gocql.Iter; err error }] *)
Inductive readResult : Type :=
| ResIter (i : Iter)
| ResErr (err : error).

Section reader.

(** [chunk.ChunkSpans], the static table from span codes to spans, is
    declared in package [chunk]: it is a parameter here. *)
Variable ChunkSpans : Z -> option Z.

Definition NewGen (b : list Z) (ts : Z) : IterGen + error :=
  match b with
  | format :: spanCode :: payload =>
      if format =? FormatStandardGoTszWithSpan then
        match ChunkSpans spanCode with
        | Some span => inl {| Ts := ts; SpanOf := span; B := payload |}
        | None => inr errUnknownSpanCode
        end
      else inr errUnknownFormat
  | _ => inr errChunkTooSmall
  end.

(** The scan loop of [SearchTable]:
<<
    for res.i.Scan(&ts, &b) {
        if len(b) < 2 { return itgens, errChunkTooSmall }
        itgen, err := chunk.NewGen(b, uint32(ts))
        if err != nil { return itgens, err }
        itgens = append(itgens, *itgen)
    }
>>
*)
Fixpoint scanRows (rows : list (Z * list Z)) (itgens : list IterGen)
  : list IterGen * option error :=
  match rows with
  | [] => (itgens, None)
  | (ts, b) :: rows' =>
      if (length b <? 2)%nat then (itgens, Some errChunkTooSmall)
      else
        match NewGen b (uint32 ts) with
        | inr err => (itgens, Some err)
        | inl itgen => scanRows rows' (itgens ++ [itgen])
        end
  end.

(** [SearchTable] from the scan loop to its end: what it returns once it
    holds the iterator of the query. *)
Definition scanResult (i : Iter) : list IterGen * option error :=
  match scanRows (rows i) [] with
  | (itgens, Some err) => (itgens, Some err)
  | (itgens, None) =>
      match closeErr i with
      | Some err =>
          if bool_decide (err = context_Canceled \/ err = context_DeadlineExceeded)
          then ([], None)
          else ([], Some err)
      | None => (sortIterGensAsc itgens, None)
      end
  end.

(** *** A search and the reader that serves it

    [SearchTable] and the turn of [processReadQueue] that takes its request
    run concurrently; the caller's context can be canceled at any moment.
    The three are the steps of a transition system. *)

(** Where [SearchTable] stands. *)
Inductive pc : Type :=
| AtStart                               (* before the range check *)
| AtEnqueue (rowKeys : list string)     (* at the first [select] *)
| AtResults                             (* at the second [select] *)
| Returned (itgens : list IterGen) (err : option error).

(** What a reader did with the request. *)
Inductive handling : Type :=
| NotDequeued
| Aborted      (* found the context canceled: [errCtxCanceled], no query *)
| Omitted      (* waited longer than [omitReadTimeout]: [errReadTooOld] *)
| Executed.    (* ran the query *)

Record state : Type := {
  search : pc;
  ctxDone : bool;                       (* [ctx.Done()] is closed *)
  readQueue : option (list string);     (* the request, while it is queued *)
  results : option readResult;          (* the request's [out] channel *)
  worker : handling
}.

Definition init (canceled : bool) : state :=
  {| search := AtStart; ctxDone := canceled; readQueue := None;
     results := None; worker := NotDequeued |}.

Variables (db : database) (table key : string) (start end_ : Z).

(** The two ways the second [select] handles a result. *)
Definition received (res : readResult) : list IterGen * option error :=
  match res with
  | ResErr err =>
      if bool_decide (err = errCtxCanceled) then ([], None) else ([], Some err)
  | ResIter i => scanResult i
  end.

Inductive step : state -> state -> Prop :=
(* the caller cancels the context, or its deadline passes *)
| step_cancel s :
    step s {| search := search s; ctxDone := true; readQueue := readQueue s;
              results := results s; worker := worker s |}
(* [if start >= end { return itgens, errInvalidRange }] *)
| step_invalid s :
    search s = AtStart -> end_ <= start ->
    step s {| search := Returned [] (Some errInvalidRange);
              ctxDone := ctxDone s; readQueue := readQueue s;
              results := results s; worker := worker s |}
(* the row keys are computed and the request is built *)
| step_request s fuel rowKeys :
    search s = AtStart -> start < end_ ->
    cassandra.rowKeys fuel key start end_ = Some rowKeys ->
    step s {| search := AtEnqueue rowKeys;
              ctxDone := ctxDone s; readQueue := readQueue s;
              results := results s; worker := worker s |}
(* first [select], [case <-ctx.Done(): return nil, nil] *)
| step_enqueue_canceled s rowKeys :
    search s = AtEnqueue rowKeys -> ctxDone s = true ->
    step s {| search := Returned [] None;
              ctxDone := ctxDone s; readQueue := readQueue s;
              results := results s; worker := worker s |}
(* first [select], [case c.readQueue <- &crr:], the queue having room *)
| step_enqueue s rowKeys :
    search s = AtEnqueue rowKeys ->
    step s {| search := AtResults;
              ctxDone := ctxDone s; readQueue := Some rowKeys;
              results := results s; worker := worker s |}
(* first [select], [default: return nil, errReadQueueFull]: no other case
   is ready, the queue is full and the context is not canceled *)
| step_queue_full s rowKeys :
    search s = AtEnqueue rowKeys -> ctxDone s = false ->
    step s {| search := Returned [] (Some errReadQueueFull);
              ctxDone := ctxDone s; readQueue := readQueue s;
              results := results s; worker := worker s |}
(* the reader takes the request and finds the context canceled *)
| step_worker_canceled s rowKeys :
    readQueue s = Some rowKeys -> ctxDone s = true ->
    step s {| search := search s; ctxDone := ctxDone s; readQueue := None;
              results := Some (ResErr errCtxCanceled); worker := Aborted |}
(* the reader takes the request too late *)
| step_worker_too_old s rowKeys :
    readQueue s = Some rowKeys -> ctxDone s = false ->
    step s {| search := search s; ctxDone := ctxDone s; readQueue := None;
              results := Some (ResErr errReadTooOld); worker := Omitted |}
(* the reader takes the request and runs the query: when the scan ends
   without an error it has delivered the selected rows, in some order *)
| step_worker_query s rowKeys i :
    readQueue s = Some rowKeys -> ctxDone s = false ->
    (closeErr i = None -> rows i ≡ₚ query_rows db table rowKeys end_) ->
    step s {| search := search s; ctxDone := ctxDone s; readQueue := None;
              results := Some (ResIter i); worker := Executed |}
(* second [select], [case <-ctx.Done(): return nil, nil] *)
| step_results_canceled s :
    search s = AtResults -> ctxDone s = true ->
    step s {| search := Returned [] None;
              ctxDone := ctxDone s; readQueue := readQueue s;
              results := results s; worker := worker s |}
(* second [select], [case res = <-results:] and the rest of the function *)
| step_results s res :
    search s = AtResults -> results s = Some res ->
    step s {| search := Returned (received res).1 (received res).2;
              ctxDone := ctxDone s; readQueue := readQueue s;
              results := None; worker := worker s |}.

(** The states a search can reach from its call. *)
Inductive reachable (canceled : bool) : state -> Prop :=
| reachable_init : reachable canceled (init canceled)
| reachable_step s s' : reachable canceled s -> step s s' -> reachable canceled s'.

(** The steps of [SearchTable] itself. *)
Definition search_step (s s' : state) : Prop :=
  step s s' /\ search s <> search s'.

End reader.

(** The row keys of a metric key. *)
Definition row_keys_of_key (key : string) (rowKeys : list string) : Prop :=
  Forall (fun rk => exists m, rk = row_key key m) rowKeys.

(** What holds of the request and of its answer all along a search: a
    queued request has not been handled and has no answer yet, and the search
    is waiting for it or has given up on a canceled context; before the
    request is queued nothing has happened to it; a request that a reader
    aborted found the context canceled and is answered by [errCtxCanceled]
    at most. *)
Definition protocol (s : state) : Prop :=
  (forall ks, readQueue s = Some ks ->
     worker s = NotDequeued /\ results s = None
     /\ (search s = AtResults \/ search s = Returned [] None))
  /\ (search s = AtStart \/ (exists ks, search s = AtEnqueue ks) ->
      readQueue s = None /\ results s = None /\ worker s = NotDequeued)
  /\ (worker s = Aborted ->
      ctxDone s = true /\ readQueue s = None
      /\ (results s = None \/ results s = Some (ResErr errCtxCanceled))
      /\ (search s = AtResults \/ search s = Returned [] None)).

(** What holds of the rows and of the generators all along a search over a
    database that [insertChunk] filled: the request names row keys of the
    metric key, a scan that ends without an error has delivered rows with
    distinct [uint32] timestamps, and generators returned without an error
    are in strictly increasing order of [T0]. *)
Definition ordered (key : string) (s : state) : Prop :=
  (forall ks, search s = AtEnqueue ks -> row_keys_of_key key ks)
  /\ (forall ks, readQueue s = Some ks -> row_keys_of_key key ks)
  /\ (forall i, results s = Some (ResIter i) -> closeErr i = None ->
        NoDup (rows i).*1 /\ Forall is_uint32 (rows i).*1)
  /\ (forall g, search s = Returned g None ->
        StronglySorted Z.lt (Ts <$> g)).

(** *** The trace of the retry loop

    More readings of a trace: the errors counted in [errmetrics] and the
    attempt numbers of the warnings logged. *)
Definition errMetrics (tr : list event) : list error :=
  omap (fun e => match e with EvErrMetric err => Some err | _ => None end) tr.
Definition warnings (tr : list event) : list Z :=
  omap (fun e => match e with EvLogWarn n => Some n | _ => None end) tr.

(** The events of the successful turn of the loop. *)
Definition saved (cwr : ChunkWriteRequest) (buf : list Z) : list event :=
  [EvInsertChunk (Key cwr) (T0 cwr) (TTL cwr) buf None;
   EvSyncChunkSaveState (T0 cwr);
   EvSendPersistMessage (Key cwr) (T0 cwr);
   EvChunkSaveOk].

(** The events of the failed turn that [attempts] failures preceded. *)
Definition failed (cwr : ChunkWriteRequest) (buf : list Z) (attempts : nat)
    (err : error) : list event :=
  EvInsertChunk (Key cwr) (T0 cwr) (TTL cwr) buf (Some err)
  :: EvErrMetric err
  :: (if (attempts mod 20 =? 0)%nat then [EvLogWarn (Z.of_nat attempts + 1)]
      else [])
  ++ [EvChunkSaveFail; EvSleep (sleepDuration (Z.of_nat attempts))].

(** *** The outcomes of a search *)

Section outcomes.

Variable ChunkSpans : Z -> option Z.
Variables (db : database) (table key : string) (start end_ : Z).

(** The iterator [i] answers the query for the row keys [ks] of the
    search. *)
Definition selection (ks : list string) (i : Iter) : Prop :=
  start < end_
  /\ (exists fuel, rowKeys fuel key start end_ = Some ks)
  /\ (closeErr i = None -> rows i ≡ₚ query_rows db table ks end_).

(** What a reader that handled the request as [w] has answered. *)
Definition answer (w : handling) (res : readResult) : Prop :=
  match w with
  | NotDequeued => False
  | Aborted => res = ResErr errCtxCanceled
  | Omitted => res = ResErr errReadTooOld
  | Executed => exists ks i, res = ResIter i /\ selection ks i
  end.

(** Where a return of [SearchTable] comes from. *)
Definition verdict (s : state) (itgens : list IterGen) (err : option error)
  : Prop :=
  match err with
  | Some e =>
      (e = errInvalidRange /\ end_ <= start /\ itgens = []
       /\ worker s = NotDequeued /\ readQueue s = None)
      \/ (e = errReadQueueFull /\ start < end_ /\ itgens = []
          /\ worker s = NotDequeued /\ readQueue s = None)
      \/ (e = errReadTooOld /\ itgens = [] /\ worker s = Omitted)
      \/ (worker s = Executed
          /\ exists ks i, selection ks i
               /\ scanResult ChunkSpans i = (itgens, Some e))
  | None =>
      itgens = []
      \/ (worker s = Executed
          /\ exists ks i, selection ks i /\ closeErr i = None
               /\ scanResult ChunkSpans i = (itgens, None))
  end.

(** What holds of the answer and of the return all along a search. *)
Definition outcome (s : state) : Prop :=
  (forall ks, search s = AtEnqueue ks \/ readQueue s = Some ks ->
     start < end_ /\ exists fuel, rowKeys fuel key start end_ = Some ks)
  /\ (forall res, results s = Some res -> answer (worker s) res)
  /\ (forall itgens err, search s = Returned itgens err -> verdict s itgens err).
End outcomes.

(** *** The TTL tables of a store

    [func GetTTLTables(ttls []uint32, windowFactor int, nameFormat string) TTLTables]:
<<
    tables := make(TTLTables)
    for _, ttl := range ttls {
        tables[ttl] = GetTTLTable(ttl, windowFactor, nameFormat)
    }
    return tables
>>
    [None] is the panic of [GetTTLTable]. *)
Fixpoint GetTTLTables_loop (ttls : list Z) (windowFactor : Z)
    (nameFormat : string) (tables : gmap Z ttlTable)
  : option (gmap Z ttlTable) :=
  match ttls with
  | [] => Some tables
  | ttl :: ttls' =>
      match GetTTLTable ttl windowFactor nameFormat with
      | None => None
      | Some t =>
          GetTTLTables_loop ttls' windowFactor nameFormat (<[ttl := t]> tables)
      end
  end.

Definition GetTTLTables (ttls : list Z) (windowFactor : Z)
    (nameFormat : string) : option (gmap Z ttlTable) :=
  GetTTLTables_loop ttls windowFactor nameFormat ∅.

(** *** The router and [fmt.Sprintf]

    [fmt.Sprintf] is a function of the Go library, and [GetTTLTable] and
    [GetTTLTables] hand it the name format of their caller, which can be any
    string.  Here the two functions take the formatter as a parameter: what
    is proved of them holds for every name format, whatever the library
    prints for it.  [GetTTLTable] and [GetTTLTables] above are their
    instances at [fmt.Sprintf] of module [fmt], which renders the formats of
    this package, [metric_%d] and [%s_%d]. *)
Module formatter.
Section formatter.
Variable Sprintf : string -> list arg -> string.

Definition GetTTLTable (ttl windowFactor : Z) (nameFormat : string)
  : option ttlTable :=
  let preFactorWindow := preFactorWindow ttl in
  let tableName := Sprintf nameFormat [ArgUint32 preFactorWindow] in
  if uint32 windowFactor =? 0 then None
  else Some {| Table := tableName;
               WindowSize := uint32 (preFactorWindow / uint32 windowFactor + 1) |}.

Fixpoint GetTTLTables_loop (ttls : list Z) (windowFactor : Z)
    (nameFormat : string) (tables : gmap Z ttlTable)
  : option (gmap Z ttlTable) :=
  match ttls with
  | [] => Some tables
  | ttl :: ttls' =>
      match GetTTLTable ttl windowFactor nameFormat with
      | None => None
      | Some t =>
          GetTTLTables_loop ttls' windowFactor nameFormat (<[ttl := t]> tables)
      end
  end.

Definition GetTTLTables (ttls : list Z) (windowFactor : Z)
    (nameFormat : string) : option (gmap Z ttlTable) :=
  GetTTLTables_loop ttls windowFactor nameFormat ∅.

End formatter.
End formatter.

(** [func (c *CassandraStore) GetTableNames() []string]:
<<
    names := make([]string, 0)
    for _, table := range c.ttlTables { names = append(names, table.Table) }
    return names
>>
    [range] is the order in which the loop visits the map, some permutation
    of [map_to_list (ttlTables c)]. *)
Definition GetTableNames (range : list (Z * ttlTable)) : list string :=
  foldl (fun names e => names ++ [Table e.2]) [] range.

(** *** The writer and the store

    The calls of [insertChunk] that the retry loop of [processWriteQueue]
    makes for a request, one for each outcome of [Exec] in [execs] up to the
    first call that returns [nil]: the database after them and what they
    returned. *)
Fixpoint insertChunks (c : CassandraStore) (db : database)
    (cwr : ChunkWriteRequest) (buf : list Z) (execs : list exec)
  : database * list (option error) :=
  match execs with
  | [] => (db, [])
  | e :: execs' =>
      match insertChunk c db (Key cwr) (T0 cwr) (TTL cwr) buf e with
      | (db', None) => (db', [None])
      | (db', Some err) =>
          let '(db'', errs) := insertChunks c db' cwr buf execs' in
          (db'', Some err :: errs)
      end
  end.

(** The body of [case cwr := <-queue] of [processWriteQueue] on a store:
    the database it leaves, the events of the loop and [success].  [None]
    is the panic of [PrepareChunkData]. *)
Definition writeChunk (RevChunkSpans : Z -> option Z) (c : CassandraStore)
    (db : database) (cwr : ChunkWriteRequest) (execs : list exec)
  : option (database * (list event * bool)) :=
  match PrepareChunkData RevChunkSpans (Span cwr) (Series cwr) with
  | None => None
  | Some buf =>
      let '(db', results) := insertChunks c db cwr buf execs in
      Some (db', insertLoop cwr buf results 0)
  end.

(** [func (c *CassandraStore) Add(cwr *mdata.ChunkWriteRequest)]:
<<
    sum := int(cwr.Key.MKey.Org)
    for _, b := range cwr.Key.MKey.Key { sum += int(b) }
    which := sum % len(c.writeQueues)
    c.writeQueues[which] <- cwr
>>
    The index of the queue the request goes to, for the organisation [org],
    the bytes [key] of the metric key and [queues = len(c.writeQueues)].
    [None] is a panic: the division by zero when there are no queues, or the
    index out of range. *)
Definition Add_sum (org : Z) (key : list Z) : Z :=
  foldl (fun sum b => int (sum + int b)) (int org) key.

Definition Add (org : Z) (key : list Z) (queues : Z) : option Z :=
  if queues =? 0 then None
  else
    let which := Z.rem (Add_sum org key) queues in
    if (0 <=? which) && (which <? queues) then Some which else None.

(** *** Searching by TTL

    [func (c *CassandraStore) Search(ctx, key, ttl, start, end)]:
<<
    table, err := c.getTable(ttl)
    if err != nil { return nil, err }
    return c.SearchTable(ctx, key, table, start, end)
>>
    The states of a call: it has returned the error of [getTable], nothing
    queued, or they are those of [SearchTable] on the table of the TTL. *)
Inductive Search (ChunkSpans : Z -> option Z) (c : CassandraStore)
    (db : database) (key : string) (ttl start end_ : Z) (canceled : bool)
  : state -> Prop :=
| Search_no_table (err : error) :
    getTable c ttl = inr err ->
    Search ChunkSpans c db key ttl start end_ canceled
      {| search := Returned [] (Some err); ctxDone := canceled;
         readQueue := None; results := None; worker := NotDequeued |}
| Search_table (table : string) (s : state) :
    getTable c ttl = inl table ->
    reachable ChunkSpans db table key start end_ canceled s ->
    Search ChunkSpans c db key ttl start end_ canceled s.


(** *** Setting up a store: [NewCassandraStore]

    [StoreConfig], as far as [NewCassandraStore] itself reads it; the other
    fields are only handed to [gocql]. *)
Record StoreConfig : Type := {
  Keyspace : string;
  WindowFactor : Z;
  CreateKeyspace : bool;
  HostSelectionPolicy : string;
  WriteConcurrency : Z;
  ReadConcurrency : Z;
  WriteQueueSize : Z;
  ReadQueueSize : Z
}.

(** What the calls into [gocql] answer: the two [cluster.CreateSession()],
    the [Exec] of the keyspace query and of the [n]-th table query, and
    [KeyspaceMetadata] in each attempt (the names of [Tables], or an
    error).  [ranges a] is the order in which the loop over [ttlTables]
    visits the map in attempt [a], and [ranges 0] the one of the loop that
    creates the tables. *)
Record gocql : Type := {
  tmpSession : option error;
  execKeyspace : option error;
  execTable : nat -> option error;
  KeyspaceMetadata : Z -> gset string + error;
  session : option error;
  ranges : Z -> list (Z * ttlTable)
}.

(** [time.Second], in nanoseconds. *)
Definition Second : Z := 1000 * Millisecond.

(** What [NewCassandraStore] does that is visible outside it. *)
Inductive call : Type :=
| CallCreateSession (err : option error)
| CallExecKeyspace (keyspace : string) (err : option error)
| CallExecTable (keyspace table : string) (windowSize seconds : Z)
    (err : option error)
| CallKeyspaceMetadata (keyspace : string)
| CallClose
| CallSleep (d : Z)
| LogError (err : error)
| LogInfoKeyspace (keyspace : string)
| LogInfoTable (table : string)
| LogWarnKeyspace (attempt : Z)
| LogWarnTable (table : string) (attempt : Z)
| LogDebug
| GoProcessWriteQueue (i : Z)
| GoProcessReadQueue.

(** The loop that creates the tables:
<<
    for _, result := range ttlTables {
        log.Info("cassandra_store: ensuring that table %s exists.", result.Table)
        err := tmpSession.Query(fmt.Sprintf(schemaTable, config.Keyspace,
                 result.Table, result.WindowSize, result.WindowSize*60*60)).Exec()
        if err != nil { return nil, err }
    }
>>
    from the [n]-th table query on: the calls, and the error returned if
    any. *)
Fixpoint createTables (keyspace : string) (exec : nat -> option error)
    (n : nat) (range : list (Z * ttlTable)) : list call * option error :=
  match range with
  | [] => ([], None)
  | (_, result) :: range' =>
      let query :=
        CallExecTable keyspace (Table result) (WindowSize result)
          (uint32 (uint32 (WindowSize result * 60) * 60)) (exec n) in
      match exec n with
      | Some err => ([LogInfoTable (Table result); query], Some err)
      | None =>
          let '(calls, r) := createTables keyspace exec (S n) range' in
          (LogInfoTable (Table result) :: query :: calls, r)
      end
  end.

(** The first table of the loop
    [for _, result := range ttlTables { if _, ok := keyspaceMetadata.Tables[result.Table]; !ok {...} }]
    that the keyspace does not have. *)
Fixpoint notFound (tables : gset string) (range : list (Z * ttlTable))
  : option string :=
  match range with
  | [] => None
  | (_, result) :: range' =>
      if decide (Table result ∈ tables) then notFound tables range'
      else Some (Table result)
  end.

(** The loop that verifies the keyspace:
<<
    AttemptLoop:
    for attempt := 1; attempt > 0; attempt++ {
        keyspaceMetadata, err = tmpSession.KeyspaceMetadata(config.Keyspace)
        if err != nil {
            log.Warn("cassandra keyspace not found; attempt: %v", attempt)
            if attempt >= 5 { return nil, err }
            time.Sleep(5 * time.Second)
        } else {
            for _, result := range ttlTables {
                if _, ok := keyspaceMetadata.Tables[result.Table]; !ok {
                    log.Warn("cassandra table %s not found; attempt: %v", result.Table, attempt)
                    if attempt >= 5 { return nil, err }
                    time.Sleep(5 * time.Second)
                    continue AttemptLoop
                }
            }
            break
        }
    }
>>
    The calls, then [Some err] for [return nil, err] (with the value [err]
    holds there) and [None] when the loop is left.  The result is [None]
    when the loop has not ended within [fuel] iterations. *)
Fixpoint AttemptLoop (fuel : nat) (keyspace : string) (g : gocql)
    (attempt : Z) : option (list call * option (option error)) :=
  match fuel with
  | O => None
  | S fuel' =>
      if 0 <? attempt then
        let again (calls : list call) :=
          match AttemptLoop fuel' keyspace g (int (attempt + 1)) with
          | None => None
          | Some (calls', r) => Some (calls ++ calls', r)
          end in
        match KeyspaceMetadata g attempt with
        | inr err =>
            if 5 <=? attempt then
              Some ([CallKeyspaceMetadata keyspace; LogWarnKeyspace attempt],
                    Some (Some err))
            else
              again [CallKeyspaceMetadata keyspace; LogWarnKeyspace attempt;
                     CallSleep (5 * Second)]
        | inl tables =>
            match notFound tables (ranges g attempt) with
            | Some table =>
                if 5 <=? attempt then
                  Some ([CallKeyspaceMetadata keyspace;
                         LogWarnTable table attempt], Some None)
                else
                  again [CallKeyspaceMetadata keyspace;
                         LogWarnTable table attempt; CallSleep (5 * Second)]
            | None => Some ([CallKeyspaceMetadata keyspace], None)
            end
        end
      else Some ([], None)
  end.

(** [gocql.HostSelectionPolicy], as the [switch] builds it. *)
Inductive hostPolicy : Type :=
| RoundRobinHostPolicy
| HostPoolHostPolicy (epsilonGreedy : bool)
| TokenAwareHostPolicy (fallback : hostPolicy).

Definition hostSelectionPolicy (name : string) : option hostPolicy :=
  if String.eqb name "roundrobin" then Some RoundRobinHostPolicy
  else if String.eqb name "hostpool-simple" then
    Some (HostPoolHostPolicy false)
  else if String.eqb name "hostpool-epsilon-greedy" then
    Some (HostPoolHostPolicy true)
  else if String.eqb name "tokenaware,roundrobin" then
    Some (TokenAwareHostPolicy RoundRobinHostPolicy)
  else if String.eqb name "tokenaware,hostpool-simple" then
    Some (TokenAwareHostPolicy (HostPoolHostPolicy false))
  else if String.eqb name "tokenaware,hostpool-epsilon-greedy" then
    Some (TokenAwareHostPolicy (HostPoolHostPolicy true))
  else None.

(** What [NewCassandraStore] returns: [nil] and [err] (which can be [nil]),
    [nil] and the error of an unknown host selection policy, or the store,
    with the number of its write queues, and a [nil] error. *)
Inductive returned : Type :=
| ReturnNil (err : option error)
| ReturnUnknownHostSelectionPolicy (policy : string)
| ReturnStore (c : CassandraStore) (writeQueues : Z).

(** [func NewCassandraStore(config, ttls)], from the first
    [cluster.CreateSession()] on.  Before it the function only fills the
    [gocql] cluster configuration and two gauges; [util.ReadEntry], which
    reads the two query formats, and the settings of the cluster are calls
    into other packages on which the function does not branch.  [None] is a
    panic (of [GetTTLTables], or of a [make] with a negative size) or the
    lack of fuel for the loop of attempts. *)
Definition NewCassandraStore (fuel : nat) (config : StoreConfig)
    (ttls : list Z) (g : gocql) : option (list call * returned) :=
  match tmpSession g with
  | Some err =>
      Some ([CallCreateSession (Some err); LogError err], ReturnNil (Some err))
  | None =>
      match GetTTLTables ttls (WindowFactor config) Table_name_format with
      | None => None
      | Some ttlTables =>
          let schema : option (list call * option (option error)) :=
            if CreateKeyspace config then
              match execKeyspace g with
              | Some err =>
                  Some ([LogInfoKeyspace (Keyspace config);
                         CallExecKeyspace (Keyspace config) (Some err)],
                        Some (Some err))
              | None =>
                  let '(calls, r) :=
                    createTables (Keyspace config) (execTable g) 0
                      (ranges g 0) in
                  Some (LogInfoKeyspace (Keyspace config)
                        :: CallExecKeyspace (Keyspace config) None :: calls,
                        match r with
                        | Some err => Some (Some err)
                        | None => None
                        end)
              end
            else AttemptLoop fuel (Keyspace config) g 1 in
          match schema with
          | None => None
          | Some (calls, Some err) =>
              Some (CallCreateSession None :: calls, ReturnNil err)
          | Some (calls, None) =>
              let calls := CallCreateSession None :: calls ++ [CallClose] in
              match hostSelectionPolicy (HostSelectionPolicy config) with
              | None =>
                  Some (calls,
                        ReturnUnknownHostSelectionPolicy
                          (HostSelectionPolicy config))
              | Some _ =>
                  match session g with
                  | Some err =>
                      Some (calls ++ [CallCreateSession (Some err)],
                            ReturnNil (Some err))
                  | None =>
                      if (WriteConcurrency config <? 0)
                         || (ReadQueueSize config <? 0)
                         || ((0 <? WriteConcurrency config)
                             && (WriteQueueSize config <? 0))
                      then None
                      else
                        Some (calls
                              ++ [CallCreateSession None; LogDebug]
                              ++ (GoProcessWriteQueue ∘ Z.of_nat
                                  <$> seq 0 (Z.to_nat (WriteConcurrency config)))
                              ++ replicate
                                   (Z.to_nat (ReadConcurrency config))
                                   GoProcessReadQueue,
                              ReturnStore
                                {| Session := true; ttlTables := ttlTables |}
                                (WriteConcurrency config))
                  end
              end
          end
      end
  end.

(** Readings of the calls: the keyspaces of the [KeyspaceMetadata] calls
    and the sleeps. *)
Definition metadataCalls (calls : list call) : list string :=
  omap (fun c => match c with
                 | CallKeyspaceMetadata k => Some k
                 | _ => None
                 end) calls.
Definition pauses (calls : list call) : list Z :=
  omap (fun c => match c with CallSleep d => Some d | _ => None end) calls.

(** In attempt [a] the keyspace is found and has every table of
    [ttlTables]. *)
Definition verified (g : gocql) (ttlTables : gmap Z ttlTable) (a : Z)
  : Prop :=
  exists tables, KeyspaceMetadata g a = inl tables
    /\ forall ttl t, ttlTables !! ttl = Some t -> Table t ∈ tables.

(** Attempt [a] of the loop finds the keyspace and misses no table. *)
Definition passes (g : gocql) (a : Z) : Prop :=
  exists tables, KeyspaceMetadata g a = inl tables
    /\ notFound tables (ranges g a) = None.

(** The goroutines started: the indices of the writers, and the readers. *)
Definition writers (calls : list call) : list Z :=
  omap (fun c => match c with GoProcessWriteQueue i => Some i | _ => None end)
    calls.
Definition readers (calls : list call) : list unit :=
  omap (fun c => match c with GoProcessReadQueue => Some tt | _ => None end)
    calls.

End cassandra.

(** ** Package [msgp]: the MessagePack primitives the generated code calls

    [github.com/tinylib/msgp/msgp] is a library outside the repository; its
    [Append...] and [Read...Bytes] functions are modelled after the
    MessagePack wire format they implement.  A byte slice is a list of bytes,
    [Append...] adds to its end and [Read...Bytes] consumes from its front,
    returning what is left.  [msgp.Require] only grows the capacity of the
    slice and is the identity here. *)

Module msgp.
Import go.

Definition bytes : Type := list Z.

(** [msgp.Type], the kind of object a lead byte announces. *)
Inductive wire : Type :=
| InvalidType | StrType | BinType | MapType | ArrayType | Float64Type
| Float32Type | BoolType | IntType | UintType | NilType | ExtensionType.

Inductive error : Type :=
| ErrShortBytes
| TypeError (method encoded : wire)
| InvalidPrefixError (lead : Z)
| UintOverflow (value : Z).

Inductive result (A : Type) : Type :=
| Ok (a : A)
| Err (e : error).
Arguments Ok {A} a.
Arguments Err {A} e.

#[export] Instance result_bind : MBind result :=
  fun A B (k : A -> result B) (r : result A) =>
    match r with
    | Ok a => k a
    | Err e => Err e
    end.

(** Strings and byte slices: [[]byte(s)] and [string(b)]. *)
Definition bytes_of_string (s : string) : bytes :=
  (fun c => Z.of_N (N_of_ascii c)) <$> String.list_ascii_of_string s.
Definition string_of_bytes (b : bytes) : string :=
  String.string_of_list_ascii ((fun z => ascii_of_N (Z.to_N z)) <$> b).

(** Big-endian integers: [k] bytes of [n], and the value of a byte
    sequence ([binary.BigEndian]). *)
Fixpoint be_bytes (k : nat) (n : Z) : bytes :=
  match k with
  | O => []
  | S k' => be_bytes k' (n / 256) ++ [n mod 256]
  end.
Definition be_value (b : bytes) : Z := foldl (fun acc x => acc * 256 + x) 0 b.

(** The signed reading of a [k]-byte unsigned value (two's complement). *)
Definition signed (k : nat) (u : Z) : Z :=
  if u <? 2 ^ (8 * Z.of_nat k - 1) then u else u - 2 ^ (8 * Z.of_nat k).

(** Lead bytes. *)
Definition mfixmap : Z := 128.   (* 0x80 .. 0x8f *)
Definition mfixarray : Z := 144. (* 0x90 .. 0x9f *)
Definition mfixstr : Z := 160.   (* 0xa0 .. 0xbf *)
Definition mnil : Z := 192.
Definition mfalse : Z := 194.
Definition mtrue : Z := 195.
Definition mbin8 : Z := 196.
Definition mbin16 : Z := 197.
Definition mbin32 : Z := 198.
Definition muint8 : Z := 204.
Definition muint16 : Z := 205.
Definition muint32 : Z := 206.
Definition muint64 : Z := 207.
Definition mint8 : Z := 208.
Definition mint16 : Z := 209.
Definition mint32 : Z := 210.
Definition mint64 : Z := 211.
Definition mstr8 : Z := 217.
Definition mstr16 : Z := 218.
Definition mstr32 : Z := 219.
Definition marray16 : Z := 220.
Definition marray32 : Z := 221.
Definition mmap16 : Z := 222.
Definition mmap32 : Z := 223.
Definition mnfixint : Z := 224.  (* 0xe0 .. 0xff *)

Definition isfixint (lead : Z) : bool := (0 <=? lead) && (lead <? 128).
Definition isnfixint (lead : Z) : bool := (224 <=? lead) && (lead <? 256).
Definition isfixmap (lead : Z) : bool := (128 <=? lead) && (lead <? 144).
Definition isfixarray (lead : Z) : bool := (144 <=? lead) && (lead <? 160).
Definition isfixstr (lead : Z) : bool := (160 <=? lead) && (lead <? 192).

(** [getType(lead)] *)
Definition getType (lead : Z) : wire :=
  if isfixint lead || isnfixint lead then IntType
  else if isfixmap lead then MapType
  else if isfixarray lead then ArrayType
  else if isfixstr lead then StrType
  else if lead =? 192 then NilType
  else if (lead =? 194) || (lead =? 195) then BoolType
  else if (196 <=? lead) && (lead <=? 198) then BinType
  else if (199 <=? lead) && (lead <=? 201) then ExtensionType
  else if lead =? 202 then Float32Type
  else if lead =? 203 then Float64Type
  else if (204 <=? lead) && (lead <=? 207) then UintType
  else if (208 <=? lead) && (lead <=? 211) then IntType
  else if (212 <=? lead) && (lead <=? 216) then ExtensionType
  else if (217 <=? lead) && (lead <=? 219) then StrType
  else if (220 <=? lead) && (lead <=? 221) then ArrayType
  else if (222 <=? lead) && (lead <=? 223) then MapType
  else InvalidType.

(** A header made of a lead byte and a [k]-byte big-endian size: read the
    size after the lead byte, [ErrShortBytes] when the slice is too short. *)
Definition read_size (k : nat) (b : bytes) : result (Z * bytes) :=
  if (length b <? S k)%nat then Err ErrShortBytes
  else Ok (be_value (take k (drop 1 b)), drop (S k) b).

(** *** Writing *)

Definition AppendMapHeader (b : bytes) (sz : Z) : bytes :=
  if sz <=? 15 then b ++ [mfixmap + sz]
  else if sz <=? 65535 then b ++ mmap16 :: be_bytes 2 sz
  else b ++ mmap32 :: be_bytes 4 sz.

Definition AppendArrayHeader (b : bytes) (sz : Z) : bytes :=
  if sz <=? 15 then b ++ [mfixarray + sz]
  else if sz <=? 65535 then b ++ marray16 :: be_bytes 2 sz
  else b ++ marray32 :: be_bytes 4 sz.

Definition AppendString (b : bytes) (s : string) : bytes :=
  let sz := Z.of_nat (String.length s) in
  if sz <=? 31 then b ++ (mfixstr + sz) :: bytes_of_string s
  else if sz <=? 255 then b ++ mstr8 :: be_bytes 1 sz ++ bytes_of_string s
  else if sz <=? 65535 then b ++ mstr16 :: be_bytes 2 sz ++ bytes_of_string s
  else b ++ mstr32 :: be_bytes 4 (uint32 sz) ++ bytes_of_string s.

Definition AppendBool (b : bytes) (t : bool) : bytes :=
  b ++ [if t then mtrue else mfalse].

Definition AppendInt64 (b : bytes) (i : Z) : bytes :=
  if 0 <=? i then
    if i <=? 127 then b ++ [i]
    else if i <=? 32767 then b ++ mint16 :: be_bytes 2 i
    else if i <=? 2147483647 then b ++ mint32 :: be_bytes 4 i
    else b ++ mint64 :: be_bytes 8 i
  else
    if -32 <=? i then b ++ [i + 256]
    else if -128 <=? i then b ++ mint8 :: be_bytes 1 i
    else if -32768 <=? i then b ++ mint16 :: be_bytes 2 i
    else if -2147483648 <=? i then b ++ mint32 :: be_bytes 4 i
    else b ++ mint64 :: be_bytes 8 i.

(** [func AppendInt(b []byte, i int) []byte { return AppendInt64(b, int64(i)) }] *)
Definition AppendInt (b : bytes) (i : Z) : bytes := AppendInt64 b i.

(** *** Reading *)

Definition ReadMapHeaderBytes (b : bytes) : result (Z * bytes) :=
  match b with
  | [] => Err ErrShortBytes
  | lead :: o =>
      if isfixmap lead then Ok (lead - mfixmap, o)
      else if lead =? mmap16 then read_size 2 b
      else if lead =? mmap32 then read_size 4 b
      else Err (TypeError MapType (getType lead))
  end.

Definition ReadArrayHeaderBytes (b : bytes) : result (Z * bytes) :=
  match b with
  | [] => Err ErrShortBytes
  | lead :: o =>
      if isfixarray lead then Ok (lead - mfixarray, o)
      else if lead =? marray16 then read_size 2 b
      else if lead =? marray32 then read_size 4 b
      else Err (TypeError ArrayType (getType lead))
  end.

(** The body that follows a size: [read] bytes, or [ErrShortBytes]. *)
Definition read_body (r : Z * bytes) : result (bytes * bytes) :=
  let '(read, b) := r in
  if (length b <? Z.to_nat read)%nat then Err ErrShortBytes
  else Ok (take (Z.to_nat read) b, drop (Z.to_nat read) b).

Definition ReadStringZC (b : bytes) : result (bytes * bytes) :=
  match b with
  | [] => Err ErrShortBytes
  | lead :: o =>
      if isfixstr lead then read_body (lead - mfixstr, o)
      else if lead =? mstr8 then r ← read_size 1 b; read_body r
      else if lead =? mstr16 then r ← read_size 2 b; read_body r
      else if lead =? mstr32 then r ← read_size 4 b; read_body r
      else Err (TypeError StrType (getType lead))
  end.

Definition ReadStringBytes (b : bytes) : result (string * bytes) :=
  '(v, o) ← ReadStringZC b; Ok (string_of_bytes v, o).

Definition ReadBytesZC (b : bytes) : result (bytes * bytes) :=
  match b with
  | [] => Err ErrShortBytes
  | lead :: o =>
      if lead =? mbin8 then r ← read_size 1 b; read_body r
      else if lead =? mbin16 then r ← read_size 2 b; read_body r
      else if lead =? mbin32 then r ← read_size 4 b; read_body r
      else Err (TypeError BinType (getType lead))
  end.

(** [ReadMapKeyZC]: a string, or, when the object is a [bin], its bytes. *)
Definition ReadMapKeyZC (b : bytes) : result (bytes * bytes) :=
  match ReadStringZC b with
  | Ok r => Ok r
  | Err (TypeError _ BinType) => ReadBytesZC b
  | Err e => Err e
  end.

Definition ReadBoolBytes (b : bytes) : result (bool * bytes) :=
  match b with
  | [] => Err ErrShortBytes
  | lead :: o =>
      if lead =? mtrue then Ok (true, o)
      else if lead =? mfalse then Ok (false, o)
      else Err (TypeError BoolType (getType lead))
  end.

Definition ReadInt64Bytes (b : bytes) : result (Z * bytes) :=
  match b with
  | [] => Err ErrShortBytes
  | lead :: o =>
      if isfixint lead then Ok (lead, o)
      else if isnfixint lead then Ok (lead - 256, o)
      else if lead =? mint8 then
        '(u, o) ← read_size 1 b; Ok (signed 1 u, o)
      else if lead =? muint8 then read_size 1 b
      else if lead =? mint16 then
        '(u, o) ← read_size 2 b; Ok (signed 2 u, o)
      else if lead =? muint16 then read_size 2 b
      else if lead =? mint32 then
        '(u, o) ← read_size 4 b; Ok (signed 4 u, o)
      else if lead =? muint32 then read_size 4 b
      else if lead =? mint64 then
        '(u, o) ← read_size 8 b; Ok (signed 8 u, o)
      else if lead =? muint64 then
        '(u, o) ← read_size 8 b;
        if 9223372036854775807 <? u then Err (UintOverflow u) else Ok (u, o)
      else Err (TypeError IntType (getType lead))
  end.

(** [ReadIntBytes]: an [int] has 64 bits, every [int64] fits. *)
Definition ReadIntBytes (b : bytes) : result (Z * bytes) := ReadInt64Bytes b.

(** [getSize]: the bytes of the object at the front of [b] itself, and the
    number of objects that follow it as its elements. *)
Definition getSize (b : bytes) : result (Z * Z) :=
  match b with
  | [] => Err ErrShortBytes
  | lead :: _ =>
      let sized (k : nat) (fixed : Z) : result (Z * Z) :=
        '(n, _) ← read_size k b; Ok (fixed + n, 0) in
      let counted (k : nat) (per : Z) : result (Z * Z) :=
        '(n, _) ← read_size k b; Ok (1 + Z.of_nat k, per * n) in
      if isfixint lead || isnfixint lead then Ok (1, 0)
      else if isfixmap lead then Ok (1, 2 * (lead - mfixmap))
      else if isfixarray lead then Ok (1, lead - mfixarray)
      else if isfixstr lead then Ok (1 + (lead - mfixstr), 0)
      else if (lead =? 192) || (lead =? 194) || (lead =? 195) then Ok (1, 0)
      else if lead =? 196 then sized 1%nat 2
      else if lead =? 197 then sized 2%nat 3
      else if lead =? 198 then sized 4%nat 5
      else if lead =? 199 then sized 1%nat 3
      else if lead =? 200 then sized 2%nat 4
      else if lead =? 201 then sized 4%nat 6
      else if lead =? 202 then Ok (5, 0)
      else if lead =? 203 then Ok (9, 0)
      else if (lead =? 204) || (lead =? 208) then Ok (2, 0)
      else if (lead =? 205) || (lead =? 209) then Ok (3, 0)
      else if (lead =? 206) || (lead =? 210) then Ok (5, 0)
      else if (lead =? 207) || (lead =? 211) then Ok (9, 0)
      else if lead =? 212 then Ok (3, 0)
      else if lead =? 213 then Ok (4, 0)
      else if lead =? 214 then Ok (6, 0)
      else if lead =? 215 then Ok (10, 0)
      else if lead =? 216 then Ok (18, 0)
      else if lead =? 217 then sized 1%nat 2
      else if lead =? 218 then sized 2%nat 3
      else if lead =? 219 then sized 4%nat 5
      else if lead =? 220 then counted 2%nat 1
      else if lead =? 221 then counted 4%nat 1
      else if lead =? 222 then counted 2%nat 2
      else if lead =? 223 then counted 4%nat 2
      else Err (InvalidPrefixError lead)
  end.

(** [Skip]: step over one object with all its elements.  Every level of
    nesting has consumed a byte of the slice, so [S (length b)] levels are
    enough. *)
Fixpoint Skip_depth (depth : nat) (b : bytes) : result bytes :=
  match depth with
  | O => Err ErrShortBytes
  | S depth' =>
      '(sz, asz) ← getSize b;
      if (length b <? Z.to_nat sz)%nat then Err ErrShortBytes
      else
        (fix elements (n : nat) (b : bytes) : result bytes :=
           match n with
           | O => Ok b
           | S n' => b' ← Skip_depth depth' b; elements n' b'
           end) (Z.to_nat asz) (drop (Z.to_nat sz) b)
  end.

Definition Skip (b : bytes) : result bytes := Skip_depth (S (length b)) b.

(** What the format can carry: the size in a header is a [uint32]. *)
Definition valid_length {A : Type} (l : list A) : Prop :=
  Z.of_nat (length l) < 2 ^ 32.
Definition valid_string (s : string) : Prop :=
  Z.of_nat (String.length s) < 2 ^ 32.

(** *** Sizes *)

(** The size constants of [msgp] ([size.go]). *)
Definition Int64Size : Z := 9.
Definition IntSize : Z := Int64Size.
Definition BoolSize : Z := 1.
Definition MapHeaderSize : Z := 5.
Definition ArrayHeaderSize : Z := 5.
Definition StringPrefixSize : Z := 5.

End msgp.

(** ** Package [models]: the generated [MarshalMsg] / [UnmarshalMsg]

    The four message types of [api/models/graphite_gen.go].  The struct
    declarations are in [graphite.go]; the fields and their types are read off
    the generated code.  A slice is the list of its elements and a map a
    finite map ([nil] and empty are not told apart).

    [UnmarshalMsg] updates its receiver [z] in place; here it takes the
    receiver's value and returns the new one with the bytes left over.  After
    an error the generated code leaves [z] partly updated; the model returns
    the error only.  Where the generated code resizes a slice and then
    assigns every element from the input ([Paths], [Intervals]), the old
    elements and the capacity do not show in the result and are left out. *)

Module GraphiteTagDelSeries.
Import msgp.

Record t : Type := { Paths : list string; Propagate : bool }.

(** A valid value: the sizes fit the headers. *)
Definition valid (x : t) : Prop :=
  valid_length (Paths x) /\ Forall valid_string (Paths x).

(** [func (z *GraphiteTagDelSeries) MarshalMsg(b []byte) (o []byte, err error)] *)
Definition MarshalMsg (z : t) (b : bytes) : bytes :=
  (* map header, size 2; string "Paths" *)
  let o := b ++ [130; 165; 80; 97; 116; 104; 115] in
  let o := AppendArrayHeader o (go.uint32 (Z.of_nat (length (Paths z)))) in
  let o := foldl AppendString o (Paths z) in
  (* string "Propagate" *)
  let o := o ++ [169; 80; 114; 111; 112; 97; 103; 97; 116; 101] in
  AppendBool o (Propagate z).

(** [for za0001 := range z.Paths { z.Paths[za0001], bts, err = msgp.ReadStringBytes(bts) }] *)
Fixpoint read_strings (n : nat) (bts : bytes) : result (list string * bytes) :=
  match n with
  | O => Ok ([], bts)
  | S n' =>
      '(s, bts) ← ReadStringBytes bts;
      '(l, bts) ← read_strings n' bts;
      Ok (s :: l, bts)
  end.

(** One turn of the field loop, after the key has been read. *)
Definition field (z : t) (name : string) (bts : bytes) : result (t * bytes) :=
  if String.eqb name "Paths" then
    '(zb0002, bts) ← ReadArrayHeaderBytes bts;
    '(paths, bts) ← read_strings (Z.to_nat zb0002) bts;
    Ok ({| Paths := paths; Propagate := Propagate z |}, bts)
  else if String.eqb name "Propagate" then
    '(p, bts) ← ReadBoolBytes bts;
    Ok ({| Paths := Paths z; Propagate := p |}, bts)
  else
    bts ← Skip bts; Ok (z, bts).

(** [for zb0001 > 0 { zb0001--; field, bts, err = msgp.ReadMapKeyZC(bts); switch ... }] *)
Fixpoint fields (zb0001 : nat) (z : t) (bts : bytes) : result (t * bytes) :=
  match zb0001 with
  | O => Ok (z, bts)
  | S n =>
      '(name, bts) ← ReadMapKeyZC bts;
      '(z, bts) ← field z (string_of_bytes name) bts;
      fields n z bts
  end.

(** [func (z *GraphiteTagDelSeries) UnmarshalMsg(bts []byte) (o []byte, err error)] *)
Definition UnmarshalMsg (z : t) (bts : bytes) : result (t * bytes) :=
  '(zb0001, bts) ← ReadMapHeaderBytes bts;
  fields (Z.to_nat zb0001) z bts.

(** [func (z *GraphiteTagDelSeries) Msgsize() (s int)] *)
Definition Msgsize (z : t) : Z :=
  let s := 1 + 6 + ArrayHeaderSize in
  let s :=
    foldl (fun s p =>
             go.int (s + go.int (StringPrefixSize + Z.of_nat (String.length p))))
      s (Paths z) in
  go.int (s + (10 + BoolSize)).

(** *** Messages as sequences of fields

    What [UnmarshalMsg] accepts is wider than what [MarshalMsg] writes: the
    fields in any order, fields left out or repeated, and fields of other
    names. *)


(** A field of a message: one of the two fields of the struct, or a field
    with another name and the bytes of its value. *)
Inductive entry : Type :=
| EPaths (paths : list string)
| EPropagate (p : bool)
| EOther (name : string) (value : bytes).

(** The bytes of a field: its name as a string, then its value. *)
Definition encode (e : entry) : bytes :=
  match e with
  | EPaths paths =>
      AppendString [] "Paths"
      ++ foldl AppendString
           (AppendArrayHeader [] (go.uint32 (Z.of_nat (length paths)))) paths
  | EPropagate p => AppendString [] "Propagate" ++ AppendBool [] p
  | EOther name value => AppendString [] name ++ value
  end.

(** What a field does to the receiver. *)
Definition assign (z : t) (e : entry) : t :=
  match e with
  | EPaths paths => {| Paths := paths; Propagate := Propagate z |}
  | EPropagate p => {| Paths := Paths z; Propagate := p |}
  | EOther _ _ => z
  end.

(** The sizes fit the headers, and the value of a field with another name
    is one object, which [Skip] steps over. *)
Definition well_formed (e : entry) : Prop :=
  match e with
  | EPaths paths => valid_length paths /\ Forall valid_string paths
  | EPropagate _ => True
  | EOther name value =>
      name <> "Paths" /\ name <> "Propagate" /\ valid_string name
      /\ forall rest, Skip (value ++ rest) = Ok rest
  end.

(** The message with the fields [es], in this order. *)
Definition message (es : list entry) : bytes :=
  AppendMapHeader [] (go.uint32 (Z.of_nat (length es)))
  ++ concat (encode <$> es).

End GraphiteTagDelSeries.

Module GraphiteTagDelSeriesResp.
Import msgp.

Record t : Type := { Count : Z; Peers : gmap string Z }.

(** A valid value: the integers are [int]s and the sizes fit the headers. *)
Definition valid (x : t) : Prop :=
  go.is_int (Count x)
  /\ Z.of_nat (size (Peers x)) < 2 ^ 32
  /\ map_Forall (fun k v => valid_string k /\ go.is_int v) (Peers x).

(** The body of the loop over [z.Peers]. *)
Definition peer (o : bytes) (p : string * Z) : bytes :=
  let '(za0001, za0002) := p in AppendInt (AppendString o za0001) za0002.

(** [func (z *GraphiteTagDelSeriesResp) MarshalMsg(b []byte) (o []byte, err error)].
    [range] is the order in which [for za0001, za0002 := range z.Peers]
    visits the entries of the map, which Go leaves unspecified: some
    permutation of [map_to_list (Peers z)]. *)
Definition MarshalMsg (range : list (string * Z)) (z : t) (b : bytes) : bytes :=
  (* map header, size 2; string "Count" *)
  let o := b ++ [130; 165; 67; 111; 117; 110; 116] in
  let o := AppendInt o (Count z) in
  (* string "Peers" *)
  let o := o ++ [165; 80; 101; 101; 114; 115] in
  let o := AppendMapHeader o (go.uint32 (Z.of_nat (size (Peers z)))) in
  foldl peer o range.

(** [for zb0002 > 0 { zb0002--; ...; z.Peers[za0001] = za0002 }] *)
Fixpoint read_peers (zb0002 : nat) (peers : gmap string Z) (bts : bytes)
  : result (gmap string Z * bytes) :=
  match zb0002 with
  | O => Ok (peers, bts)
  | S n =>
      '(za0001, bts) ← ReadStringBytes bts;
      '(za0002, bts) ← ReadIntBytes bts;
      read_peers n (<[za0001 := za0002]> peers) bts
  end.

(** In the ["Peers"] case the map is allocated when it is [nil] and cleared
    when it has entries: either way the loop starts from the empty map. *)
Definition field (z : t) (name : string) (bts : bytes) : result (t * bytes) :=
  if String.eqb name "Count" then
    '(c, bts) ← ReadIntBytes bts;
    Ok ({| Count := c; Peers := Peers z |}, bts)
  else if String.eqb name "Peers" then
    '(zb0002, bts) ← ReadMapHeaderBytes bts;
    '(peers, bts) ← read_peers (Z.to_nat zb0002) ∅ bts;
    Ok ({| Count := Count z; Peers := peers |}, bts)
  else
    bts ← Skip bts; Ok (z, bts).

Fixpoint fields (zb0001 : nat) (z : t) (bts : bytes) : result (t * bytes) :=
  match zb0001 with
  | O => Ok (z, bts)
  | S n =>
      '(name, bts) ← ReadMapKeyZC bts;
      '(z, bts) ← field z (string_of_bytes name) bts;
      fields n z bts
  end.

(** [func (z *GraphiteTagDelSeriesResp) UnmarshalMsg(bts []byte) (o []byte, err error)] *)
Definition UnmarshalMsg (z : t) (bts : bytes) : result (t * bytes) :=
  '(zb0001, bts) ← ReadMapHeaderBytes bts;
  fields (Z.to_nat zb0001) z bts.

(** [func (z *GraphiteTagDelSeriesResp) Msgsize() (s int)]; [range] is the
    order of its loop over the map. *)
Definition Msgsize (range : list (string * Z)) (z : t) : Z :=
  let s := 1 + 6 + IntSize + 6 + MapHeaderSize in
  foldl (fun s p =>
           go.int (s + go.int (go.int (StringPrefixSize
                                         + Z.of_nat (String.length p.1))
                                 + IntSize)))
    s range.

(** *** Messages as sequences of fields *)


Inductive entry : Type :=
| ECount (c : Z)
| EPeers (peers : list (string * Z))
| EOther (name : string) (value : bytes).

Definition encode (e : entry) : bytes :=
  match e with
  | ECount c => AppendString [] "Count" ++ AppendInt [] c
  | EPeers peers =>
      AppendString [] "Peers"
      ++ foldl peer
           (AppendMapHeader [] (go.uint32 (Z.of_nat (length peers)))) peers
  | EOther name value => AppendString [] name ++ value
  end.

(** The entries of the map are put one after the other into an empty map:
    of two entries with one key the later stays. *)
Definition assign (z : t) (e : entry) : t :=
  match e with
  | ECount c => {| Count := c; Peers := Peers z |}
  | EPeers peers =>
      {| Count := Count z;
         Peers := foldl (fun m p => <[p.1 := p.2]> m) ∅ peers |}
  | EOther _ _ => z
  end.

Definition well_formed (e : entry) : Prop :=
  match e with
  | ECount c => go.is_int c
  | EPeers peers =>
      valid_length peers
      /\ Forall (fun p => valid_string p.1 /\ go.is_int p.2) peers
  | EOther name value =>
      name <> "Count" /\ name <> "Peers" /\ valid_string name
      /\ forall rest, Skip (value ++ rest) = Ok rest
  end.

Definition message (es : list entry) : bytes :=
  AppendMapHeader [] (go.uint32 (Z.of_nat (length es)))
  ++ concat (encode <$> es).

End GraphiteTagDelSeriesResp.

Module SeriesPickleItem.
Import msgp.

Record t : Type := {
  Path : string;
  IsLeaf : bool;
  Intervals : list (list Z)
}.

(** The zero value of the struct. *)
Definition zero : t := {| Path := ""; IsLeaf := false; Intervals := [] |}.

(** A valid value: the integers are [int64]s and the sizes fit the
    headers. *)
Definition valid_interval (interval : list Z) : Prop :=
  valid_length interval /\ Forall go.is_int interval.
Definition valid (x : t) : Prop :=
  valid_string (Path x)
  /\ valid_length (Intervals x)
  /\ Forall valid_interval (Intervals x).

(** The body of the loop over [z.Intervals]. *)
Definition interval (o : bytes) (iv : list Z) : bytes :=
  foldl AppendInt64 (AppendArrayHeader o (go.uint32 (Z.of_nat (length iv)))) iv.

(** [func (z *SeriesPickleItem) MarshalMsg(b []byte) (o []byte, err error)] *)
Definition MarshalMsg (z : t) (b : bytes) : bytes :=
  (* map header, size 3; string "path" *)
  let o := b ++ [131; 164; 112; 97; 116; 104] in
  let o := AppendString o (Path z) in
  (* string "isLeaf" *)
  let o := o ++ [166; 105; 115; 76; 101; 97; 102] in
  let o := AppendBool o (IsLeaf z) in
  (* string "intervals" *)
  let o := o ++ [169; 105; 110; 116; 101; 114; 118; 97; 108; 115] in
  let o := AppendArrayHeader o (go.uint32 (Z.of_nat (length (Intervals z)))) in
  foldl interval o (Intervals z).

(** [for za0002 := range z.Intervals[za0001] { ..., bts, err = msgp.ReadInt64Bytes(bts) }] *)
Fixpoint read_int64s (n : nat) (bts : bytes) : result (list Z * bytes) :=
  match n with
  | O => Ok ([], bts)
  | S n' =>
      '(i, bts) ← ReadInt64Bytes bts;
      '(l, bts) ← read_int64s n' bts;
      Ok (i :: l, bts)
  end.

(** [for za0001 := range z.Intervals { zb0003, bts, err = msgp.ReadArrayHeaderBytes(bts); ... }] *)
Fixpoint read_intervals (n : nat) (bts : bytes)
  : result (list (list Z) * bytes) :=
  match n with
  | O => Ok ([], bts)
  | S n' =>
      '(zb0003, bts) ← ReadArrayHeaderBytes bts;
      '(interval, bts) ← read_int64s (Z.to_nat zb0003) bts;
      '(l, bts) ← read_intervals n' bts;
      Ok (interval :: l, bts)
  end.

Definition field (z : t) (name : string) (bts : bytes) : result (t * bytes) :=
  if String.eqb name "path" then
    '(p, bts) ← ReadStringBytes bts;
    Ok ({| Path := p; IsLeaf := IsLeaf z; Intervals := Intervals z |}, bts)
  else if String.eqb name "isLeaf" then
    '(l, bts) ← ReadBoolBytes bts;
    Ok ({| Path := Path z; IsLeaf := l; Intervals := Intervals z |}, bts)
  else if String.eqb name "intervals" then
    '(zb0002, bts) ← ReadArrayHeaderBytes bts;
    '(ivs, bts) ← read_intervals (Z.to_nat zb0002) bts;
    Ok ({| Path := Path z; IsLeaf := IsLeaf z; Intervals := ivs |}, bts)
  else
    bts ← Skip bts; Ok (z, bts).

Fixpoint fields (zb0001 : nat) (z : t) (bts : bytes) : result (t * bytes) :=
  match zb0001 with
  | O => Ok (z, bts)
  | S n =>
      '(name, bts) ← ReadMapKeyZC bts;
      '(z, bts) ← field z (string_of_bytes name) bts;
      fields n z bts
  end.

(** [func (z *SeriesPickleItem) UnmarshalMsg(bts []byte) (o []byte, err error)] *)
Definition UnmarshalMsg (z : t) (bts : bytes) : result (t * bytes) :=
  '(zb0001, bts) ← ReadMapHeaderBytes bts;
  fields (Z.to_nat zb0001) z bts.

(** [func (z *SeriesPickleItem) Msgsize() (s int)] *)
Definition Msgsize (z : t) : Z :=
  let s :=
    go.int (1 + 5 + StringPrefixSize + Z.of_nat (String.length (Path z))
            + 7 + BoolSize + 10 + ArrayHeaderSize) in
  foldl (fun s iv =>
           go.int (s + go.int (ArrayHeaderSize
                                 + go.int (Z.of_nat (length iv) * Int64Size))))
    s (Intervals z).

(** The sum that [Msgsize] computes, without wrap-around. *)
Definition Msgsize_sum (z : t) : nat :=
  (34 + String.length (Path z)
   + sum_list_with (fun iv => 5 + length iv * 9) (Intervals z))%nat.

(** *** Messages as sequences of fields *)


Inductive entry : Type :=
| EPath (p : string)
| EIsLeaf (l : bool)
| EIntervals (ivs : list (list Z))
| EOther (name : string) (value : bytes).

Definition encode (e : entry) : bytes :=
  match e with
  | EPath p => AppendString [] "path" ++ AppendString [] p
  | EIsLeaf l => AppendString [] "isLeaf" ++ AppendBool [] l
  | EIntervals ivs =>
      AppendString [] "intervals"
      ++ foldl interval
           (AppendArrayHeader [] (go.uint32 (Z.of_nat (length ivs)))) ivs
  | EOther name value => AppendString [] name ++ value
  end.

Definition assign (z : t) (e : entry) : t :=
  match e with
  | EPath p => {| Path := p; IsLeaf := IsLeaf z; Intervals := Intervals z |}
  | EIsLeaf l => {| Path := Path z; IsLeaf := l; Intervals := Intervals z |}
  | EIntervals ivs => {| Path := Path z; IsLeaf := IsLeaf z; Intervals := ivs |}
  | EOther _ _ => z
  end.

Definition well_formed (e : entry) : Prop :=
  match e with
  | EPath p => valid_string p
  | EIsLeaf _ => True
  | EIntervals ivs => valid_length ivs /\ Forall valid_interval ivs
  | EOther name value =>
      name <> "path" /\ name <> "isLeaf" /\ name <> "intervals"
      /\ valid_string name
      /\ forall rest, Skip (value ++ rest) = Ok rest
  end.

Definition message (es : list entry) : bytes :=
  AppendMapHeader [] (go.uint32 (Z.of_nat (length es)))
  ++ concat (encode <$> es).

End SeriesPickleItem.

Module SeriesPickle.
Import msgp.

(** [type SeriesPickle []SeriesPickleItem] *)
Definition t : Type := list SeriesPickleItem.t.

Definition valid (x : t) : Prop :=
  valid_length x /\ Forall SeriesPickleItem.valid x.

(** The body of the loop over [z]. *)
Definition item (o : bytes) (z : SeriesPickleItem.t) : bytes :=
  SeriesPickleItem.MarshalMsg z o.

(** [func (z SeriesPickle) MarshalMsg(b []byte) (o []byte, err error)] *)
Definition MarshalMsg (z : t) (b : bytes) : bytes :=
  let o := AppendArrayHeader b (go.uint32 (Z.of_nat (length z))) in
  foldl item o z.

(** The loop [for zb0001 := range z] that calls [UnmarshalMsg] on the
    element at [zb0001]: every element is decoded in place, from the value
    it has. *)
Fixpoint items (z : list SeriesPickleItem.t) (bts : bytes)
  : result (t * bytes) :=
  match z with
  | [] => Ok ([], bts)
  | item :: z' =>
      '(item, bts) ← SeriesPickleItem.UnmarshalMsg item bts;
      '(l, bts) ← items z' bts;
      Ok (item :: l, bts)
  end.

(** [func (z *SeriesPickle) UnmarshalMsg(bts []byte) (o []byte, err error)].
    [backing] is the receiver's backing array, from the start of the slice
    to its capacity: when it has room for the [zb0002] elements the slice is
    resliced over it, and the elements start from what the array holds;
    otherwise a new slice of zero values is made. *)
Definition UnmarshalMsg (backing : list SeriesPickleItem.t) (bts : bytes)
  : result (t * bytes) :=
  '(zb0002, bts) ← ReadArrayHeaderBytes bts;
  let n := Z.to_nat zb0002 in
  if (n <=? length backing)%nat then items (take n backing) bts
  else items (replicate n SeriesPickleItem.zero) bts.

(** [func (z SeriesPickle) Msgsize() (s int)] *)
Definition Msgsize (z : t) : Z :=
  foldl (fun s item => go.int (s + SeriesPickleItem.Msgsize item)) ArrayHeaderSize z.

(** The message with the items [ess], each the list of its fields. *)
Definition message (ess : list (list SeriesPickleItem.entry)) : bytes :=
  AppendArrayHeader [] (go.uint32 (Z.of_nat (length ess)))
  ++ concat (SeriesPickleItem.message <$> ess).

End SeriesPickle.

(** ** Package [main] of [metric_tank]: the first Cassandra store

    [src/metric_tank/aggmetrics.go], second part: [InsertChunk] and
    [searchCassandra], on the single table [metric] with
    [PRIMARY KEY (key, ts)] and [CLUSTERING ORDER BY (ts DESC)]. *)

Module metric_tank.
Import go fmt cassandra.

(** [const month_sec = 60 * 60 * 24 * 28] *)
Definition month_sec : Z := 60 * 60 * 24 * 28.

(** The table of [table_schema]. *)
Definition table : string := "metric".

(** [func InsertChunk(key string, t0 uint32, data []byte, ttl int) error],
    between the two operations on the semaphore [writeSem]: the new contents
    of the database and the error returned.  [session] is
    [cSession != nil]. *)
Definition InsertChunk (session : bool) (db : database) (key : string)
    (t0 : Z) (data : list Z) (e : exec) : database * option error :=
  if negb session then (db, None)
  else
    let row_key := Sprintf "%s_%d" [ArgString key; ArgUint32 (t0 / month_sec)] in
    match e with
    | ExecOk => (<[(table, row_key, t0) := data]> db, None)
    | ExecFailed err written =>
        (if written then <[(table, row_key, t0) := data]> db else db, Some err)
    end.

(** The databases that [InsertChunk] fills. *)
Inductive stored : database -> Prop :=
| stored_empty : stored ∅
| stored_insert (session : bool) (db : database) (key : string) (t0 : Z)
    (data : list Z) (e : exec) :
    stored db -> is_uint32 t0 ->
    stored (InsertChunk session db key t0 data e).1.

(** *** The queries of [searchCassandra] *)

Inductive cql : Type :=
(* SELECT ts, data FROM metric WHERE key=? AND ts <= ? Limit 1 *)
| AtOrBefore (row_key : string) (start : Z)
(* ... WHERE key = ? AND ts > ? AND ts < ? ORDER BY ts ASC *)
| Between (row_key : string) (start end_ : Z)
(* ... WHERE key = ? AND ts > ? ORDER BY ts ASC *)
| After (row_key : string) (start : Z)
(* ... WHERE key = ? AND ts < ? ORDER BY ts ASC *)
| Before (row_key : string) (end_ : Z)
(* ... WHERE key = ? ORDER BY ts ASC *)
| Whole (row_key : string).

(** A call of the closure [query(month, sortKey, q, p...)]. *)
Record planned : Type := { month : Z; sortKey : Z; q : cql }.

(** The loop
<<
    for month := start_month; month <= end_month; month += month_sec {
        row_key = fmt.Sprintf("%s_%d", key, month/month_sec)
        if month == start_month { query(month, month+1, "... ts > ? ...", row_key, start) }
        else if month == end_month { query(month, month, "... ts < ? ...", row_key, end) }
        else { query(month, month, "... key = ? ...", row_key) }
    }
>>
    with fuel; all operands are [uint32].  [turn] is the call of [query] in
    the body. *)
Definition turn (key : string) (start end_ start_month end_month month : Z)
  : planned :=
  let row_key :=
    Sprintf "%s_%d" [ArgString key; ArgUint32 (month / month_sec)] in
  if month =? start_month then
    {| month := month; sortKey := uint32 (month + 1);
       q := After row_key start |}
  else if month =? end_month then
    {| month := month; sortKey := month; q := Before row_key end_ |}
  else {| month := month; sortKey := month; q := Whole row_key |}.

Fixpoint plan_loop (fuel : nat) (key : string) (start end_ : Z)
    (start_month end_month month : Z) (acc : list planned)
  : option (list planned) :=
  match fuel with
  | O => None
  | S fuel' =>
      if month <=? end_month then
        plan_loop fuel' key start end_ start_month end_month
          (uint32 (month + month_sec))
          (acc ++ [turn key start end_ start_month end_month month])
      else Some acc
  end.

(** The queries that [searchCassandra] starts, in the order of the calls of
    [query]. *)
Definition plan (fuel : nat) (key : string) (start end_ : Z)
  : option (list planned) :=
  let start_month := uint32 (start - start mod month_sec) in
  let end_month :=
    uint32 (uint32 (end_ - 1) - uint32 (end_ - 1) mod month_sec) in
  let row_key :=
    Sprintf "%s_%d" [ArgString key; ArgUint32 (start_month / month_sec)] in
  let first :=
    {| month := start_month; sortKey := start_month;
       q := AtOrBefore row_key start |} in
  if start_month =? end_month then
    Some [first;
          {| month := start_month; sortKey := uint32 (start_month + 1);
             q := Between row_key start end_ |}]
  else
    plan_loop fuel key start end_ start_month end_month start_month [first].

(** The rows of a partition of the table, by ascending [ts]. *)
Definition by_ts (a b : Z * list Z) : Prop := a.1 <= b.1.

#[export] Instance by_ts_dec (a b : Z * list Z) : Decision (by_ts a b).
Proof. unfold by_ts. apply _. Defined.

(** Rows in the strict order of [ts]. *)
Definition lt_ts (a b : Z * list Z) : Prop := a.1 < b.1.

Definition partition (db : database) (row_key : string) : list (Z * list Z) :=
  merge_sort by_ts
    (omap (fun e : (string * string * Z) * list Z =>
             let '((tbl, rk, ts), data) := e in
             if bool_decide (tbl = table /\ rk = row_key)
             then Some (ts, data) else None)
       (map_to_list db)).

(** The rows a query selects, in the order it delivers them.  [Limit 1] on
    the clustering order [ts DESC] keeps the row with the greatest [ts]. *)
Definition select (db : database) (q : cql) : list (Z * list Z) :=
  match q with
  | AtOrBefore rk start =>
      option_list (last (filter (fun r => r.1 <= start) (partition db rk)))
  | Between rk start end_ =>
      filter (fun r => start < r.1 /\ r.1 < end_) (partition db rk)
  | After rk start => filter (fun r => start < r.1) (partition db rk)
  | Before rk end_ => filter (fun r => r.1 < end_) (partition db rk)
  | Whole rk => partition db rk
  end.

(** [type outcome struct { month uint32; sortKey uint32; i *gocql.Iter }] *)
Record outcome : Type := { o_month : Z; o_sortKey : Z; o_i : Iter }.

(** [func (o asc) Less(i, j int) bool { return o[i].sortKey < o[j].sortKey }]:
    [a] may stand before [b] in a slice sorted as [asc]. *)
Definition asc (a b : outcome) : Prop := o_sortKey a <= o_sortKey b.

#[export] Instance asc_dec (a b : outcome) : Decision (asc a b).
Proof. unfold asc. apply _. Defined.

(** [sort.Sort(asc(outcomes))], as [sortIterGensAsc]. *)
Definition sortAsc (outcomes : list outcome) : list outcome :=
  merge_sort asc outcomes.

Section scan.

(** [FormatStandardGoTsz] and [NewIter] are declared in other files of the
    package and [tsz.NewIterator] in a library: the format is a parameter,
    [tsz.NewIterator] a function that returns an iterator or an error, and
    [NewIter] is kept as the record of its operands. *)
Variable FormatStandardGoTsz : Z.
Variable tszIter : Type.
Variable NewIterator : list Z -> tszIter + error.

Record found : Type := NewIter { it : tszIter; f_month : Z; f_t0 : Z }.

(** The errors made by [errors.New] in the scan loop. *)
Definition errSmallChunk : error := errDriver "unpossibly small chunk in cassandra".
Definition errFormat : error := errDriver "unrecognized chunk format in cassandra".

(** [for outcome.i.Scan(&ts, &b) { ... }] of one outcome: the iterators after
    it, and the error that ends the search if there is one. *)
Fixpoint scanOutcome (month : Z) (rows : list (Z * list Z))
    (iters : list found) : list found * option error :=
  match rows with
  | [] => (iters, None)
  | (ts, b) :: rows' =>
      match b with
      | format :: payload =>
          if (length b <? 2)%nat then (iters, Some errSmallChunk)
          else if negb (format =? FormatStandardGoTsz)
          then (iters, Some errFormat)
          else
            match NewIterator payload with
            | inr err => (iters, Some err)
            | inl iter =>
                scanOutcome month rows' (iters ++ [NewIter iter month ts])
            end
      | [] => (iters, Some errSmallChunk)
      end
  end.

(** [for _, outcome := range outcomes { ... }]: an error of [Close] is only
    logged. *)
Fixpoint scanOutcomes (outcomes : list outcome) (iters : list found)
  : list found * option error :=
  match outcomes with
  | [] => (iters, None)
  | o :: outcomes' =>
      match scanOutcome (o_month o) (rows (o_i o)) iters with
      | (iters, Some err) => (iters, Some err)
      | (iters, None) => scanOutcomes outcomes' iters
      end
  end.

(** The iterator made of a row of a query tagged with the month [m]. *)
Definition decoded (m : Z) (r : Z * list Z) (f : found) : Prop :=
  f_month f = m /\ f_t0 f = r.1
  /\ exists payload, r.2 = FormatStandardGoTsz :: payload
       /\ NewIterator payload = inl (it f).

(** The error of [fmt.Errorf("start must be before end.")]. *)
Definition errStartAfterEnd : error := errDriver "start must be before end.".

(** [func searchCassandra(key string, start, end uint32) ([]Iter, error)].
    [outcomes] are the outcomes of the queries in the order in which they
    arrive on the channel [results]. *)
Definition searchCassandra (start end_ : Z) (outcomes : list outcome)
  : list found * option error :=
  if end_ <? start then ([], Some errStartAfterEnd)
  else scanOutcomes (sortAsc outcomes) [].

End scan.

(** The outcome of a planned query on a database: an iterator that
    delivered, if [Close] reports no error, the rows selected. *)
Definition ran (db : database) (p : planned) (o : outcome) : Prop :=
  o_month o = month p /\ o_sortKey o = sortKey p
  /\ (closeErr (o_i o) = None -> rows (o_i o) = select db (q p)).

(** The chunk of the key at [ts] is the last one of the month of [start]
    that is not after [start]. *)
Definition last_before (db : database) (key : string) (start ts : Z) : Prop :=
  ts <= start /\ ts / month_sec = start / month_sec
  /\ forall ts' d', db !! (table, row_key key ts', ts') = Some d' ->
       ts' <= start -> ts' / month_sec = start / month_sec -> ts' <= ts.

End metric_tank.

(** ** A small store, for examples *)

Module scenario.
Import cassandra.

(** A span table with the single code 3, for spans of 600 seconds. *)
Definition spans (code : Z) : option Z := if code =? 3 then Some 600 else None.

(** A store with a session and the table of the one-hour TTL. *)
Definition store : CassandraStore :=
  {| Session := true;
     ttlTables := {[ 3600 := {| Table := "metric_1"; WindowSize := 1 |} ]} |}.

(** The database after the chunks of [foo] at 1200 and at 600 were
    inserted, in this order. *)
Definition db : database :=
  (insertChunk store
     (insertChunk store ∅ "foo" 1200 3600 [1; 3; 7] ExecOk).1
     "foo" 600 3600 [1; 3; 9] ExecOk).1.

(** The span table the other way round. *)
Definition revSpans (span : Z) : option Z :=
  if span =? 600 then Some 3 else None.

(** The request to save the chunk of [foo] at 1200. *)
Definition request : ChunkWriteRequest :=
  {| Key := "foo"; TTL := 3600; T0 := 1200; Series := [7]; Span := 600 |}.

(** A search for [foo] in [0, 1800) that has returned the two chunks. *)
Definition returned : state :=
  {| search :=
       Returned [ {| Ts := 600; SpanOf := 600; B := [9] |};
                  {| Ts := 1200; SpanOf := 600; B := [7] |} ] None;
     ctxDone := false; readQueue := None; results := None;
     worker := Executed |}.

(** The first store after the chunks of [foo] at 1200 and at 600 were
    inserted, with frames of format 0, and the iterators of the two queries
    of a search in [700, 1800). *)
Definition legacy_db : database :=
  (metric_tank.InsertChunk true
     (metric_tank.InsertChunk true ∅ "foo" 1200 [0; 7] ExecOk).1
     "foo" 600 [0; 9] ExecOk).1.

Definition at_or_before : Iter :=
  {| rows := [(600, [0; 9])]; closeErr := None |}.
Definition between : Iter :=
  {| rows := [(1200, [0; 7])]; closeErr := None |}.

(** A configuration of the store, creating the schema or verifying it, and
    a cluster whose calls all succeed, with the given tables in the
    keyspace. *)
Definition config (create : bool) : StoreConfig :=
  {| Keyspace := "raintank"; WindowFactor := 20; CreateKeyspace := create;
     HostSelectionPolicy := "tokenaware,roundrobin"; WriteConcurrency := 2;
     ReadConcurrency := 1; WriteQueueSize := 10; ReadQueueSize := 10 |}.

Definition answers (tables : gset string) : gocql :=
  {| tmpSession := None; execKeyspace := None; execTable := fun _ => None;
     KeyspaceMetadata := fun _ => inl tables; session := None;
     ranges := fun _ => [(3600, {| Table := "metric_1"; WindowSize := 1 |})] |}.

End scenario.

(* ================================================================== *)
(** * Properties *)
(* ================================================================== *)

(** ** Strings and decimal numerals *)

Section strings.
Import fmt.

Lemma append_empty_r (s : string) : s +:+ "" = s.
Proof.
  induction s as [|c s IH]; [done|].
  change (String c (s +:+ "") = String c s). by rewrite IH.
Qed.

Lemma append_inj_r (s t1 t2 : string) : s +:+ t1 = s +:+ t2 -> t1 = t2.
Proof.
  induction s as [|c s IH]; [done|].
  change (String c (s +:+ t1) = String c (s +:+ t2) -> t1 = t2).
  intros [= H]. auto.
Qed.

Lemma to_int_nonnil (z : Z) :
  Z.to_int z <> Decimal.Pos Decimal.Nil /\ Z.to_int z <> Decimal.Neg Decimal.Nil.
Proof.
  destruct z as [|p|p]; simpl; split; try discriminate;
    intros [= H]; by apply DecimalPos.Unsigned.to_uint_nonnil in H.
Qed.

(** Two integers with the same decimal numeral are equal. *)
Lemma decimal_inj (n m : Z) : decimal n = decimal m -> n = m.
Proof.
  unfold decimal. intros H.
  assert (Some (Z.to_int n) = Some (Z.to_int m)) as [= E].
  { destruct (to_int_nonnil n), (to_int_nonnil m).
    rewrite <- (NilZero.isi (Z.to_int n)), <- (NilZero.isi (Z.to_int m)) by done.
    by rewrite H. }
  by rewrite <- (DecimalZ.of_to n), <- (DecimalZ.of_to m), E.
Qed.

End strings.

(** ** The TTL-table router *)

Section router.
Import go fmt cassandra.

(** [FloorLog2] is the floor of the binary logarithm: for a positive [x],
    [2^e <= x < 2^(e+1)] at [e = FloorLog2 x]. *)
Lemma Exp2_FloorLog2_bounds (x : Q) :
  (0 < x)%Q ->
  (Exp2 (FloorLog2 x) <= x)%Q /\ (x < 2 * Exp2 (FloorLog2 x))%Q.
Proof.
  intros Hx. unfold FloorLog2.
  destruct (Qle_bool x 0) eqn:H0.
  { apply Qle_bool_iff in H0. exfalso. apply (Qlt_not_le _ _ Hx H0). }
  destruct (Qle_bool 1 x) eqn:H1.
  - apply Qle_bool_iff in H1.
    assert (1 <= Qfloor x) as Hf.
    { change 1 with (Qfloor 1). by apply Qfloor_resp_le. }
    destruct (Z.log2_spec (Qfloor x)) as [Hlo Hhi]; [lia|].
    pose proof (Z.log2_nonneg (Qfloor x)) as He.
    cbn [Exp2]. destruct (Z.leb_spec 0 (Z.log2 (Qfloor x))); [|lia].
    split.
    + eapply Qle_trans; [|apply Qfloor_le]. by rewrite <- Zle_Qle.
    + eapply Qlt_le_trans; [apply Qlt_floor|].
      change 2%Q with (inject_Z 2). rewrite <- inject_Z_mult, <- Zle_Qle.
      rewrite Z.pow_succ_r in Hhi by done. lia.
  - assert (x < 1)%Q as Hx1.
    { apply Qnot_le_lt. intros H. apply Qle_bool_iff in H. congruence. }
    assert (1 < / x)%Q as Hinv.
    { apply Qlt_shift_inv_l; [done|]. by rewrite Qmult_1_l. }
    set (c := Qceiling (/ x)).
    assert (2 <= c) as Hc.
    { assert (1 < c); [|lia]. rewrite Zlt_Qlt.
      eapply Qlt_le_trans; [exact Hinv|apply Qle_ceiling]. }
    destruct (Z.log2_up_spec c) as [Hlo Hhi]; [lia|].
    assert (0 < Z.log2_up c) as Hk by (apply Z.log2_up_pos; lia).
    set (k := Z.log2_up c) in *.
    cbn [Exp2]. destruct (Z.leb_spec 0 (- k)); [lia|].
    rewrite Z.opp_involutive.
    assert (0 < 2 ^ k) as Hp by (apply Z.pow_pos_nonneg; lia).
    assert (0 < inject_Z (2 ^ k))%Q as HpQ by (by rewrite <- (Zlt_Qlt 0)).
    split.
    + apply Qle_shift_inv_r; [done|].
      (* 1 <= x * 2^k *)
      assert (/ x <= inject_Z (2 ^ k))%Q as Hle.
      { eapply Qle_trans; [apply Qle_ceiling|]. by rewrite <- Zle_Qle. }
      apply (Qmult_le_l _ _ x Hx) in Hle.
      rewrite Qmult_inv_r in Hle; [done|].
      intros Hz. rewrite Hz in Hx. by apply Qlt_irrefl in Hx.
    + (* x < 2 / 2^k *)
      assert (inject_Z (2 ^ k) < 2 * / x)%Q as Hlt.
      { replace k with (Z.succ (Z.pred k)) by lia.
        rewrite Z.pow_succ_r by lia.
        rewrite inject_Z_mult. change (inject_Z 2) with 2%Q.
        apply Qmult_lt_l; [done|].
        apply Qle_lt_trans with (inject_Z (c - 1)).
        - rewrite <- Zle_Qle. lia.
        - apply Qceiling_lt. }
      assert (~ x == 0)%Q as Hnz.
      { intros Hz. rewrite Hz in Hx. by apply Qlt_irrefl in Hx. }
      apply (Qmult_lt_r _ _ x Hx) in Hlt.
      assert (2 * / x * x == 2)%Q as Heq by (by field).
      rewrite Heq in Hlt.
      change (x < 2 / inject_Z (2 ^ k))%Q.
      apply Qlt_shift_div_l; [done|].
      by rewrite Qmult_comm.
Qed.

Lemma preFactorWindow_0 : preFactorWindow 0 = 0.
Proof. reflexivity. Qed.

(** Below one hour [math.Log2] is negative, [math.Exp2] of its floor lies in
    (0, 1), and the conversion to [uint32] truncates it to 0. *)
Lemma preFactorWindow_lt_hour (ttl : Z) :
  0 < ttl < 3600 -> preFactorWindow ttl = 0.
Proof.
  intros Httl.
  unfold preFactorWindow, ttlUnits, FloorLog2, Qle_bool. simpl Qnum. simpl Qden.
  replace (ttl * 1 <=? 0 * 3600) with false by (symmetry; apply Z.leb_gt; lia).
  replace (1 * 3600 <=? ttl * 1) with false by (symmetry; apply Z.leb_gt; lia).
  destruct ttl as [|p|p]; try lia.
  unfold Qinv, Qceiling, Qfloor, Qopp. cbn [Qnum Qden Z.opp].
  match goal with |- context [Z.log2_up ?x] => set (c := x) end.
  assert (2 <= c) as Hc.
  { unfold c.
    assert (Z.opp 3600 / Z.pos p < -1); [|lia].
    apply Z.div_lt_upper_bound; lia. }
  pose proof (Z.log2_up_le_mono 2 c Hc) as Hk.
  change (Z.log2_up 2) with 1 in Hk.
  set (k := Z.log2_up c) in *.
  unfold Exp2. replace (0 <=? - k) with false by (symmetry; apply Z.leb_gt; lia).
  rewrite Z.opp_involutive.
  assert (2 <= 2 ^ k) as Hp. { pose proof (Z.pow_le_mono_r 2 1 k). lia. }
  destruct (2 ^ k) as [|q|q] eqn:E; try lia.
  unfold uint32_of_float64, Qinv, inject_Z, Qfloor. cbn [Qnum Qden].
  change (Z.pos 1 / Z.pos q) with (1 / Z.pos q).
  rewrite Z.div_small by lia. reflexivity.
Qed.

(** From one hour on, the pre-factor window is the largest power of two that
    is at most the number of whole hours. *)
Lemma preFactorWindow_ge_hour (ttl : Z) :
  3600 <= ttl -> preFactorWindow ttl = uint32 (2 ^ Z.log2 (ttl / 3600)).
Proof.
  intros Httl.
  unfold preFactorWindow, ttlUnits, FloorLog2, Qle_bool. simpl Qnum. simpl Qden.
  replace (ttl * 1 <=? 0 * 3600) with false by (symmetry; apply Z.leb_gt; lia).
  replace (1 * 3600 <=? ttl * 1) with true by (symmetry; apply Z.leb_le; lia).
  unfold Exp2.
  replace (0 <=? _) with true by (symmetry; apply Z.leb_le, Z.log2_nonneg).
  unfold uint32_of_float64. by rewrite Qfloor_Z.
Qed.

Lemma log2_bucket (k n : Z) : 0 <= k -> 2 ^ k <= n < 2 ^ (k + 1) -> Z.log2 n = k.
Proof. intros Hk Hn. apply Z.log2_unique; [done|]. by rewrite <- Z.add_1_r. Qed.

Lemma preFactorWindow_bucket (k ttl : Z) :
  0 <= k -> is_uint32 ttl -> 2 ^ k * 3600 <= ttl < 2 ^ (k + 1) * 3600 ->
  preFactorWindow ttl = 2 ^ k.
Proof.
  intros Hk Hu [Hlo Hhi].
  assert (0 < 2 ^ k) by (apply Z.pow_pos_nonneg; lia).
  rewrite preFactorWindow_ge_hour by nia.
  assert (2 ^ k <= ttl / 3600 < 2 ^ (k + 1)) as Hq.
  { split; [apply Z.div_le_lower_bound; lia | apply Z.div_lt_upper_bound; lia]. }
  rewrite (log2_bucket k) by done.
  unfold uint32. apply Z.mod_small. unfold is_uint32 in Hu. nia.
Qed.

(** [GetTTLTable] panics exactly when the window factor converts to 0. *)
Lemma GetTTLTable_Some (ttl windowFactor : Z) (nameFormat : string) :
  uint32 windowFactor <> 0 ->
  GetTTLTable ttl windowFactor nameFormat =
  Some {| Table := Sprintf nameFormat [ArgUint32 (preFactorWindow ttl)];
          WindowSize :=
            uint32 (preFactorWindow ttl / uint32 windowFactor + 1) |}.
Proof.
  intros Hwf. unfold GetTTLTable.
  by destruct (Z.eqb_spec (uint32 windowFactor) 0).
Qed.

Lemma GetTTLTable_Table (ttl windowFactor : Z) (nameFormat : string) :
  Table <$> GetTTLTable ttl windowFactor nameFormat =
  if uint32 windowFactor =? 0 then None
  else Some (Sprintf nameFormat [ArgUint32 (preFactorWindow ttl)]).
Proof. unfold GetTTLTable. by destruct (uint32 windowFactor =? 0). Qed.

(** The same two facts with the formatter as a parameter, and the router
    of the package as the instance at [fmt.Sprintf]. *)
Lemma formatter_GetTTLTable_Some (Sprintf : string -> list arg -> string)
    (ttl windowFactor : Z) (nameFormat : string) :
  uint32 windowFactor <> 0 ->
  formatter.GetTTLTable Sprintf ttl windowFactor nameFormat =
  Some {| Table := Sprintf nameFormat [ArgUint32 (preFactorWindow ttl)];
          WindowSize :=
            uint32 (preFactorWindow ttl / uint32 windowFactor + 1) |}.
Proof.
  intros Hwf. unfold formatter.GetTTLTable.
  by destruct (Z.eqb_spec (uint32 windowFactor) 0).
Qed.

Lemma formatter_GetTTLTable_Table (Sprintf : string -> list arg -> string)
    (ttl windowFactor : Z) (nameFormat : string) :
  Table <$> formatter.GetTTLTable Sprintf ttl windowFactor nameFormat =
  if uint32 windowFactor =? 0 then None
  else Some (Sprintf nameFormat [ArgUint32 (preFactorWindow ttl)]).
Proof.
  unfold formatter.GetTTLTable. by destruct (uint32 windowFactor =? 0).
Qed.

Lemma GetTTLTable_formatter (ttl windowFactor : Z) (nameFormat : string) :
  GetTTLTable ttl windowFactor nameFormat
  = formatter.GetTTLTable fmt.Sprintf ttl windowFactor nameFormat.
Proof. reflexivity. Qed.

(** C4 (as stated, refuted): with [ttl = 0] the router formats the name with
    pre-factor 0, not 1; under the default format and window factor 1 it
    returns table [metric_0] and window size 1, where the claim says
    [metric_1] and [1/1 + 1 = 2]. *)
Lemma C4_ttl_zero_counterexample :
  GetTTLTable 0 1 Table_name_format
    = Some {| Table := "metric_0"; WindowSize := 1 |}
  /\ Sprintf Table_name_format [ArgUint32 1] = "metric_1"
  /\ "metric_0" <> "metric_1"
  /\ 1 / 1 + 1 = 2.
Proof. repeat split; done. Qed.

(** C4 (amended): for [ttl = 0] the pre-factor is 0: for every window factor
    whose [uint32] conversion is not 0 (every window factor from 1 to
    [2^32 - 1] in particular) and every name format, [GetTTLTable] returns the
    table name [format(nameFormat, 0)], what [fmt.Sprintf] prints for the
    name format and the operand 0, and window size 1, as the table in the
    function's comment says for [0 <= hours < 1]; under the default format
    the table is [metric_0]. *)
Theorem C4_ttl_zero_router (Sprintf : string -> list arg -> string)
    (windowFactor : Z) (nameFormat : string) :
  uint32 windowFactor <> 0 ->
  preFactorWindow 0 = 0
  /\ formatter.GetTTLTable Sprintf 0 windowFactor nameFormat
     = Some {| Table := Sprintf nameFormat [ArgUint32 0]; WindowSize := 1 |}
  /\ GetTTLTable 0 windowFactor Table_name_format
     = Some {| Table := "metric_0"; WindowSize := 1 |}.
Proof.
  intros Hwf. split; [reflexivity|].
  split;
    rewrite ?formatter_GetTTLTable_Some, ?GetTTLTable_Some, preFactorWindow_0
      by done;
    by rewrite Z.div_0_l.
Qed.

Lemma C4_ttl_zero_router_witness :
  uint32 20 <> 0
  /\ GetTTLTable 0 20 "metric_%d"
     = Some {| Table := "metric_0"; WindowSize := 1 |}.
Proof.
  split; [done|].
  exact (proj1 (proj2 (C4_ttl_zero_router fmt.Sprintf 20 "metric_%d"
                         ltac:(done)))).
Defined.

(** C5: for every [k >= 0] and every two TTLs in
    [[2^k * 3600, 2^(k+1) * 3600)], the router returns the same table name,
    for the same window factor and name format: what [fmt.Sprintf] prints
    for the name format and the operand [2^k], the pre-factor of both.
    (When the window factor converts to 0 both calls panic.) *)
Theorem C5_ttl_routing_stability (Sprintf : string -> list arg -> string)
    (k ttl1 ttl2 windowFactor : Z) (nameFormat : string) :
  0 <= k -> is_uint32 ttl1 -> is_uint32 ttl2 ->
  2 ^ k * 3600 <= ttl1 < 2 ^ (k + 1) * 3600 ->
  2 ^ k * 3600 <= ttl2 < 2 ^ (k + 1) * 3600 ->
  preFactorWindow ttl1 = 2 ^ k /\ preFactorWindow ttl2 = 2 ^ k
  /\ Table <$> formatter.GetTTLTable Sprintf ttl1 windowFactor nameFormat
     = Table <$> formatter.GetTTLTable Sprintf ttl2 windowFactor nameFormat
  /\ (uint32 windowFactor <> 0 ->
      exists t1 t2,
        formatter.GetTTLTable Sprintf ttl1 windowFactor nameFormat = Some t1
        /\ formatter.GetTTLTable Sprintf ttl2 windowFactor nameFormat
           = Some t2
        /\ Table t1 = Sprintf nameFormat [ArgUint32 (2 ^ k)]
        /\ Table t2 = Table t1).
Proof.
  intros Hk Hu1 Hu2 H1 H2.
  pose proof (preFactorWindow_bucket k ttl1 Hk Hu1 H1) as E1.
  pose proof (preFactorWindow_bucket k ttl2 Hk Hu2 H2) as E2.
  split; [done|]. split; [done|]. split.
  - by rewrite !formatter_GetTTLTable_Table, E1, E2.
  - intros Hwf. rewrite !formatter_GetTTLTable_Some, E1, E2 by done.
    eexists _, _. repeat split; reflexivity.
Qed.

Lemma C5_ttl_routing_stability_witness :
  Table <$> GetTTLTable 28800 20 "metric_%d"
    = Table <$> GetTTLTable 57599 20 "metric_%d".
Proof.
  refine (proj1 (proj2 (proj2
            (C5_ttl_routing_stability fmt.Sprintf 3 28800 57599 20
               "metric_%d" _ _ _ _ _))));
    unfold is_uint32; lia.
Defined.

(** C6: with window factor 20 and name format [metric_%d], a TTL of 3600
    goes to table [metric_1] with window size 1, and a TTL of 604800 (168
    hours) has pre-factor 128 and goes to table [metric_128] with window
    size 7. *)
Theorem C6_ttl_routing_scenario :
  GetTTLTable 3600 20 "metric_%d"
    = Some {| Table := "metric_1"; WindowSize := 1 |}
  /\ preFactorWindow 604800 = 128
  /\ GetTTLTable 604800 20 "metric_%d"
     = Some {| Table := "metric_128"; WindowSize := 7 |}.
Proof.
  assert (preFactorWindow 3600 = 1) as E1.
  { apply (preFactorWindow_bucket 0); unfold is_uint32; lia. }
  assert (preFactorWindow 604800 = 128) as E2.
  { apply (preFactorWindow_bucket 7); unfold is_uint32; lia. }
  split; [|split; [exact E2|]]; rewrite GetTTLTable_Some by done.
  - rewrite E1. reflexivity.
  - rewrite E2. reflexivity.
Qed.

(** C10 (as stated, refuted): the window factor is a Go [int]; the value
    [2^32] is at least 1 and converts to the [uint32] 0, so the integer
    division panics and no table is returned. *)
Lemma C10_sub_hour_counterexample :
  0 < 1800 < 3600 /\ 1 <= 4294967296 /\ is_int 4294967296
  /\ GetTTLTable 1800 4294967296 Table_name_format = None.
Proof. unfold is_int. repeat split; try lia; reflexivity. Qed.

(** C10 (amended): for every [ttl] with [0 < ttl < 3600] the pre-factor
    truncates to 0, so for every name format and every window factor whose
    [uint32] conversion is not 0 (every window factor from 1 to [2^32 - 1] in
    particular) [GetTTLTable] returns the table name [format(nameFormat, 0)],
    what [fmt.Sprintf] prints for the name format and the operand 0, and
    window size 1; under the default format the table is [metric_0]. *)
Theorem C10_sub_hour_router (Sprintf : string -> list arg -> string)
    (ttl windowFactor : Z) (nameFormat : string) :
  0 < ttl < 3600 -> uint32 windowFactor <> 0 ->
  preFactorWindow ttl = 0
  /\ formatter.GetTTLTable Sprintf ttl windowFactor nameFormat
     = Some {| Table := Sprintf nameFormat [ArgUint32 0]; WindowSize := 1 |}
  /\ GetTTLTable ttl windowFactor Table_name_format
     = Some {| Table := "metric_0"; WindowSize := 1 |}.
Proof.
  intros Httl Hwf.
  pose proof (preFactorWindow_lt_hour ttl Httl) as E.
  split; [exact E|].
  split; rewrite ?formatter_GetTTLTable_Some, ?GetTTLTable_Some, E by done;
    by rewrite Z.div_0_l.
Qed.

Lemma C10_sub_hour_router_witness :
  GetTTLTable 1800 20 Table_name_format
  = Some {| Table := "metric_0"; WindowSize := 1 |}.
Proof.
  exact (proj1 (proj2 (C10_sub_hour_router fmt.Sprintf 1800 20
                         Table_name_format ltac:(lia) ltac:(done)))).
Defined.

End router.

(** ** Row keys *)

Section row_keys.
Import go fmt cassandra.

Lemma row_key_eq (key : string) (t0 : Z) :
  row_key key t0 = key +:+ "_" +:+ decimal (t0 / Month_sec).
Proof. unfold row_key. cbn. by rewrite append_empty_r. Qed.

Lemma row_key_inj (key : string) (t0 t0' : Z) :
  row_key key t0 = row_key key t0' <-> t0 / Month_sec = t0' / Month_sec.
Proof.
  rewrite !row_key_eq. split; [|by intros ->].
  intros H. apply append_inj_r in H.
  change ("_" +:+ ?s) with (String "_" s) in H.
  injection H as H. by apply decimal_inj.
Qed.

(** C3: for every key and every [t0] that is a multiple of [span] with
    [t0 >= span], when [Month_sec mod span = 0] the row key of the chunk at
    [t0] equals the row key of the chunk at [t0 - span] if and only if
    [t0 mod Month_sec <> 0].  ([span = 0] does not satisfy the precondition:
    in [Z], [Month_sec mod 0] is [Month_sec].) *)
Theorem C3_row_key_locality (key : string) (t0 span : Z) :
  is_uint32 t0 -> is_uint32 span ->
  Month_sec mod span = 0 -> t0 mod span = 0 -> span <= t0 ->
  (row_key key t0 = row_key key (uint32 (t0 - span))
   <-> t0 mod Month_sec <> 0).
Proof.
  unfold is_uint32. intros Ht0 Hspan HM Ht Hle.
  assert (0 < span) as Hpos.
  { destruct (decide (span = 0)) as [->|]; [|lia].
    rewrite Z.mod_0_r in HM. discriminate. }
  assert (uint32 (t0 - span) = t0 - span) as ->
    by (unfold uint32; apply Z.mod_small; lia).
  rewrite row_key_inj.
  apply Z.mod_divide in HM as [a Ha]; [|lia].
  apply Z.mod_divide in Ht as [b Hb]; [|lia].
  assert (0 < Month_sec) as HMpos by done.
  pose proof (Z.div_mod t0 Month_sec ltac:(lia)) as Hdm.
  pose proof (Z.mod_pos_bound t0 Month_sec HMpos) as Hr.
  set (q := t0 / Month_sec) in *. set (r := t0 mod Month_sec) in *.
  assert (r = span * (b - q * a)) as Hrs by lia.
  assert (span <= Month_sec) as HsM.
  { assert (1 <= a) by nia. nia. }
  split.
  - intros Heq Hr0.
    assert ((t0 - span) / Month_sec = q - 1); [|lia].
    symmetry. apply (Z.div_unique_pos _ _ _ (Month_sec - span)); lia.
  - intros Hr0.
    assert (span <= r) as Hsr.
    { assert (1 <= b - q * a) by nia. nia. }
    apply (Z.div_unique_pos _ _ _ (r - span)); lia.
Qed.

Lemma C3_row_key_locality_witness :
  (row_key "foo" 4838400 = row_key "foo" (uint32 (4838400 - 604800))
   <-> 4838400 mod Month_sec <> 0)
  /\ (row_key "foo" 5443200 = row_key "foo" (uint32 (5443200 - 604800))
      <-> 5443200 mod Month_sec <> 0).
Proof.
  split.
  - apply (C3_row_key_locality "foo" 4838400 604800);
      unfold is_uint32; (lia || reflexivity).
  - apply (C3_row_key_locality "foo" 5443200 604800);
      unfold is_uint32; (lia || reflexivity).
Defined.

(** The loop of [SearchTable], when [month + Month_sec] never wraps: [k]
    iterations, one row key per month. *)
Lemma rowKeys_loop_run (k : nat) : forall (fuel : nat) (key : string)
    (month em : Z) (acc : list string),
  (k < fuel)%nat -> 0 <= month -> em + Month_sec < 2 ^ 32 ->
  em < month + Z.of_nat k * Month_sec <= em + Month_sec ->
  rowKeys_loop fuel key month em acc
  = Some (acc ++ ((fun i : nat => row_key key (month + Z.of_nat i * Month_sec))
                    <$> seq 0 k)).
Proof.
  assert (0 < Month_sec) as HM by done.
  induction k as [|k IH]; intros fuel key month em acc Hf Hm Hem Hk;
    (destruct fuel as [|fuel]; [lia|]); cbn [rowKeys_loop].
  - destruct (Z.leb_spec month em); [lia|]. by rewrite app_nil_r.
  - destruct (Z.leb_spec month em); [|lia].
    assert (uint32 (month + Month_sec) = month + Month_sec) as ->
      by (unfold uint32; apply Z.mod_small; lia).
    rewrite IH by lia.
    rewrite <- app_assoc. cbn [seq fmap list_fmap app].
    rewrite Z.mul_0_l, Z.add_0_r.
    rewrite <- fmap_S_seq, <- list_fmap_compose.
    apply (f_equal Some), (f_equal (app acc)), (f_equal (cons _)).
    apply list_fmap_ext. intros _ i _. simpl. f_equal. lia.
Qed.

Lemma rowKeys_loop_prefix (fuel : nat) : forall (key : string) (month em : Z)
    (acc l : list string),
  rowKeys_loop fuel key month em acc = Some l -> acc `prefix_of` l.
Proof.
  induction fuel as [|fuel IH]; intros key month em acc l; cbn [rowKeys_loop];
    [done|].
  destruct (month <=? em).
  - intros H%IH. etrans; [|exact H]. by apply prefix_app_r.
  - by intros [= ->].
Qed.

(** C7 (as stated, refuted): [start = 4294080000], [end = 4294080001] is a
    range of [uint32] timestamps with [startMonth = endMonth = 4294080000],
    so the claim gives exactly the row key [foo_1775].  In the loop
    [month += Month_sec] wraps around to 1531904, which is still at most
    [end_month]: the loop goes on, and [foo_0] is the second row key of any
    result. *)
Lemma C7_row_keys_counterexample :
  4294080000 < 4294080001 /\ is_uint32 4294080001
  /\ start_month 4294080000 = 4294080000
  /\ end_month 4294080001 = 4294080000
  /\ row_key "foo" 4294080000 = "foo_1775"
  /\ uint32 (4294080000 + Month_sec) = 1531904
  /\ (forall (fuel : nat) (l : list string),
        rowKeys fuel "foo" 4294080000 4294080001 = Some l ->
        l !! 1%nat = Some "foo_0" /\ l <> ["foo_1775"]).
Proof.
  unfold is_uint32.
  do 6 (split; [first [lia | reflexivity]|]).
  intros [|[|fuel]] l; try discriminate.
  change (rowKeys (S (S fuel)) "foo" 4294080000 4294080001)
    with (rowKeys_loop fuel "foo" (uint32 (1531904 + Month_sec)) 4294080000
            ["foo_1775"; "foo_0"]).
  intros [r ->]%rowKeys_loop_prefix. split; [reflexivity | discriminate].
Qed.

(** C7 (amended): for every search with key and range [[start, end)] whose
    last month does not reach the end of the [uint32] range
    ([end - 1 < 1775 * Month_sec = 4294080000]), the queried months are
    [startMonth = start - start mod Month_sec] through
    [endMonth = (end-1) - (end-1) mod Month_sec] in steps of [Month_sec],
    each contributing the row key [{key}_{month/Month_sec}]; in particular
    key [foo], start 5222000, end 7555000 gives [startMonth = 4838400],
    [endMonth = 7257600] and exactly the row keys [foo_2], [foo_3]. *)
Theorem C7_search_row_keys (key : string) (start end_ : Z) :
  0 <= start -> start < end_ -> end_ - 1 < 1775 * Month_sec ->
  let startMonth := start - start mod Month_sec in
  let endMonth := (end_ - 1) - (end_ - 1) mod Month_sec in
  let n := Z.to_nat ((endMonth - startMonth) / Month_sec + 1) in
  start_month start = startMonth
  /\ end_month end_ = endMonth
  /\ startMonth + (Z.of_nat n - 1) * Month_sec = endMonth
  /\ (forall fuel : nat, (n < fuel)%nat ->
        rowKeys fuel key start end_
        = Some ((fun i : nat =>
                   key +:+ "_" +:+
                   decimal ((startMonth + Z.of_nat i * Month_sec) / Month_sec))
                  <$> seq 0 n))
  /\ (start_month 5222000 = 4838400
      /\ end_month 7555000 = 7257600
      /\ rowKeys 3 "foo" 5222000 7555000 = Some ["foo_2"; "foo_3"]).
Proof.
  intros Hs Hlt Hend sm em n.
  assert (0 < Month_sec) as HM by done.
  pose proof (Z.mod_pos_bound start Month_sec HM) as Hrs.
  pose proof (Z.mod_pos_bound (end_ - 1) Month_sec HM) as Hre.
  pose proof (Z.mod_le start Month_sec Hs HM) as Hrs'.
  pose proof (Z.mod_le (end_ - 1) Month_sec ltac:(lia) HM) as Hre'.
  assert (1775 * Month_sec < 2 ^ 32) as Hmax by reflexivity.
  assert (start_month start = sm) as Esm.
  { unfold start_month, uint32. apply Z.mod_small. unfold sm. lia. }
  assert (end_month end_ = em) as Eem.
  { unfold end_month, uint32. rewrite (Z.mod_small (end_ - 1)) by lia.
    apply Z.mod_small. unfold em. lia. }
  assert (sm = Month_sec * (start / Month_sec)) as Hsm
    by (unfold sm; rewrite Z.mod_eq; lia).
  assert (em = Month_sec * ((end_ - 1) / Month_sec)) as Hem
    by (unfold em; rewrite Z.mod_eq; lia).
  assert (start / Month_sec <= (end_ - 1) / Month_sec) as Hq
    by (apply Z.div_le_mono; lia).
  assert ((end_ - 1) / Month_sec < 1775) as Hlast
    by (apply Z.div_lt_upper_bound; lia).
  assert ((em - sm) / Month_sec
          = (end_ - 1) / Month_sec - start / Month_sec) as Hd.
  { rewrite Hsm, Hem, <- Z.mul_sub_distr_l, Z.mul_comm.
    apply Z.div_mul. lia. }
  assert (Z.of_nat n = (end_ - 1) / Month_sec - start / Month_sec + 1) as Hn
    by (unfold n; rewrite Hd; lia).
  assert (em + Month_sec <= 1775 * Month_sec) as Hroom by nia.
  split; [exact Esm|]. split; [exact Eem|]. split; [lia|]. split.
  - intros fuel Hfuel. unfold rowKeys. rewrite Esm, Eem.
    rewrite (rowKeys_loop_run n) by lia.
    cbn [app]. f_equal. apply list_fmap_ext. intros _ i _.
    apply row_key_eq.
  - repeat split; reflexivity.
Qed.

Lemma C7_search_row_keys_witness :
  (0 <= 5222000 /\ 5222000 < 7555000 /\ 7555000 - 1 < 1775 * Month_sec)
  /\ rowKeys 3 "foo" 5222000 7555000 = Some ["foo_2"; "foo_3"].
Proof.
  split; [repeat split; reflexivity || lia|].
  pose proof (C7_search_row_keys "foo" 5222000 7555000
                ltac:(lia) ltac:(lia) ltac:(reflexivity)) as H.
  cbv zeta in H. destruct H as (_ & _ & _ & H & _).
  exact (H 3%nat ltac:(vm_compute; lia)).
Defined.

End row_keys.

(** ** The writer's retry loop *)

Section go_int.
Import go.

Lemma int_add_mul (x k : Z) : int (x + k * 2 ^ 64) = int x.
Proof.
  unfold int. f_equal.
  replace (x + k * 2 ^ 64 + 2 ^ 63) with (x + 2 ^ 63 + k * 2 ^ 64) by lia.
  apply Z_mod_plus_full.
Qed.

Lemma int_decomp (x : Z) : exists k, int x = x + k * 2 ^ 64.
Proof.
  exists (- ((x + 2 ^ 63) / 2 ^ 64)). unfold int.
  rewrite Z.mod_eq by lia. lia.
Qed.

Lemma int_small (x : Z) : is_int x -> int x = x.
Proof. unfold is_int, int. intros H. rewrite Z.mod_small; lia. Qed.

Lemma int_succ_int (x : Z) : int (int x + 1) = int (x + 1).
Proof.
  destruct (int_decomp x) as [k ->].
  replace (x + k * 2 ^ 64 + 1) with (x + 1 + k * 2 ^ 64) by lia.
  apply int_add_mul.
Qed.

Lemma int_mul_int (a x : Z) : int (a * int x) = int (a * x).
Proof.
  destruct (int_decomp x) as [k ->].
  replace (a * (x + k * 2 ^ 64)) with (a * x + (a * k) * 2 ^ 64) by lia.
  apply int_add_mul.
Qed.

End go_int.

Section writer_facts.
Import go cassandra.

(** [sleepDuration] is [min(100 * attempts, 2000)] milliseconds in the
    [int] and [time.Duration] arithmetic of the code. *)
Lemma sleepDuration_min (attempts : Z) :
  sleepDuration attempts
  = int (Z.min (int (100 * attempts)) 2000 * Millisecond).
Proof.
  unfold sleepDuration. cbn zeta. rewrite Z.gtb_ltb.
  destruct (Z.ltb_spec 2000 (int (100 * attempts)));
    [rewrite Z.min_r by lia | rewrite Z.min_l by lia]; done.
Qed.

(** As long as [100 * attempts] fits an [int], the arithmetic is exact. *)
Lemma sleepDuration_small (attempts : Z) :
  0 <= attempts < 92233720368547759 ->
  sleepDuration attempts = Z.min (100 * attempts) 2000 * Millisecond.
Proof.
  intros H. rewrite sleepDuration_min. unfold Millisecond.
  rewrite (int_small (100 * attempts)) by (unfold is_int; lia).
  apply int_small. unfold is_int. lia.
Qed.

Lemma sleepDuration_int (attempts : Z) :
  sleepDuration (int attempts) = sleepDuration attempts.
Proof. unfold sleepDuration. by rewrite int_mul_int. Qed.

Lemma omap_warn {B : Type} (f : event -> option B) (z w : Z) :
  (forall n, f (EvLogWarn n) = None) ->
  omap f (if z =? 0 then [EvLogWarn w] else []) = [].
Proof. intros Hf. destruct (z =? 0); cbn; [by rewrite Hf | done]. Qed.

Variables (cwr : ChunkWriteRequest) (buf : list Z).

(** The loop on [n] failures followed by a success, entered with
    [attempts = a]. *)
Lemma insertLoop_retries (fails : list error) (rest : list (option error)) :
  forall a : nat,
  let run := insertLoop cwr buf ((Some <$> fails) ++ None :: rest)
               (int (Z.of_nat a)) in
  run.2 = true
  /\ insertsOk run.1 = [(Key cwr, T0 cwr, TTL cwr, buf)]
  /\ syncs run.1 = [T0 cwr]
  /\ insertsFailed run.1
     = replicate (length fails) (Key cwr, T0 cwr, TTL cwr, buf)
  /\ sleeps run.1
     = (fun i : nat => sleepDuration (Z.of_nat i)) <$> seq a (length fails).
Proof.
  induction fails as [|err fails IH]; intros a; cbn zeta.
  - cbn. done.
  - cbn [fmap list_fmap app insertLoop length seq replicate].
    rewrite int_succ_int.
    replace (Z.of_nat a + 1) with (Z.of_nat (S a)) by lia.
    specialize (IH (S a)). cbn zeta in IH.
    destruct (insertLoop cwr buf _ _) as [events success].
    destruct IH as (Hs & Hok & Hsync & Hfail & Hsleep). cbn [fst snd] in *.
    split; [done|].
    unfold insertsOk, insertsFailed, syncs, sleeps in *.
    cbn [omap list_omap]. rewrite !omap_app, !omap_warn by done.
    cbn [omap list_omap app].
    rewrite Hok, Hsync, Hfail, Hsleep.
    repeat split. cbn [fmap list_fmap]. f_equal.
    apply sleepDuration_int.
Qed.

(** While every insert fails the loop keeps retrying. *)
Lemma insertLoop_all_fail (fails : list error) : forall attempts : Z,
  (insertLoop cwr buf (Some <$> fails) attempts).2 = false.
Proof.
  induction fails as [|err fails IH]; intros attempts; [done|].
  cbn [fmap list_fmap insertLoop]. specialize (IH (int (attempts + 1))).
  by destruct (insertLoop cwr buf _ _).
Qed.

(** The loop is left only through the success branch: the request has then
    been inserted, once, and its save state synchronised, once. *)
Lemma insertLoop_exit (results : list (option error)) : forall attempts : Z,
  (insertLoop cwr buf results attempts).2 = true ->
  insertsOk (insertLoop cwr buf results attempts).1
    = [(Key cwr, T0 cwr, TTL cwr, buf)]
  /\ syncs (insertLoop cwr buf results attempts).1 = [T0 cwr].
Proof.
  induction results as [|[err|] results IH]; intros attempts; [done| |done].
  cbn [insertLoop]. specialize (IH (int (attempts + 1))).
  destruct (insertLoop cwr buf _ _) as [events success]. cbn [fst snd] in *.
  intros Hs. destruct (IH Hs) as [Hok Hsync].
  unfold insertsOk, syncs in *.
  cbn [omap list_omap]. rewrite !omap_app, !omap_warn by done.
  cbn [omap list_omap app]. by rewrite Hok, Hsync.
Qed.

(** C1: for every chunk write request and every finite sequence of insert
    failures before the first success, the retry loop ends with success
    after exactly one successful insert of the request and exactly one
    [SyncChunkSaveState(T0)]; every failed attempt was an insert of the same
    request; while there are only failures the loop keeps retrying, and it is
    never left without the successful insert.  After the failure that
    [attempts] failures preceded the loop sleeps
    [min(100 * attempts, 2000)] milliseconds, computed in the code's [int]
    and [time.Duration] arithmetic, which is exact while [100 * attempts]
    fits an [int]. *)
Theorem C1_writer_retry (fails : list error) (rest : list (option error)) :
  let n := length fails in
  let run := insertLoop cwr buf ((Some <$> fails) ++ None :: rest) 0 in
  run.2 = true
  /\ insertsOk run.1 = [(Key cwr, T0 cwr, TTL cwr, buf)]
  /\ syncs run.1 = [T0 cwr]
  /\ insertsFailed run.1 = replicate n (Key cwr, T0 cwr, TTL cwr, buf)
  /\ sleeps run.1
     = (fun attempts : nat =>
          int (Z.min (int (100 * Z.of_nat attempts)) 2000 * Millisecond))
       <$> seq 0 n
  /\ (Z.of_nat n <= 92233720368547759 ->
      sleeps run.1
      = (fun attempts : nat =>
           Z.min (100 * Z.of_nat attempts) 2000 * Millisecond) <$> seq 0 n)
  /\ (insertLoop cwr buf (Some <$> fails) 0).2 = false
  /\ (forall results : list (option error),
        (insertLoop cwr buf results 0).2 = true ->
        insertsOk (insertLoop cwr buf results 0).1
        = [(Key cwr, T0 cwr, TTL cwr, buf)]).
Proof.
  intros n run.
  destruct (insertLoop_retries fails rest 0)
    as (Hs & Hok & Hsync & Hfail & Hsleep).
  change (int (Z.of_nat 0)) with 0 in *. fold run in Hs, Hok, Hsync, Hfail, Hsleep.
  do 4 (split; [done|]). split; [|split; [|split]].
  - rewrite Hsleep. apply list_fmap_ext. intros j i Hi.
    apply sleepDuration_min.
  - intros Hn. rewrite Hsleep. apply list_fmap_ext. intros j i Hi.
    apply lookup_seq in Hi as [-> Hj]. apply sleepDuration_small. lia.
  - apply insertLoop_all_fail.
  - intros results Hr. by apply insertLoop_exit.
Qed.

End writer_facts.

(** A request with a registered span: the worker prepares the frame
    [format, spanCode, series] and enters the loop with it. *)
Lemma saveChunk_registered (RevChunkSpans : Z -> option Z)
    (cwr : cassandra.ChunkWriteRequest) (spanCode : Z)
    (results : list (option cassandra.error)) :
  RevChunkSpans (cassandra.Span cwr) = Some spanCode ->
  cassandra.saveChunk RevChunkSpans cwr results
  = Some (cassandra.insertLoop cwr
            (cassandra.FormatStandardGoTszWithSpan :: spanCode
               :: cassandra.Series cwr) results 0).
Proof. intros H. unfold cassandra.saveChunk, cassandra.PrepareChunkData. by rewrite H. Qed.

(** ** The MessagePack primitives: reading back what was appended *)

Section msgp_facts.
Import go msgp.

Lemma uint32_small (n : Z) : 0 <= n < 2 ^ 32 -> uint32 n = n.
Proof. intros H. unfold uint32. by apply Z.mod_small. Qed.


Lemma length_list_ascii_of_string (s : string) :
  length (String.list_ascii_of_string s) = String.length s.
Proof. induction s as [|c s IH]; simpl; congruence. Qed.

Lemma length_bytes_of_string (s : string) :
  length (bytes_of_string s) = String.length s.
Proof. unfold bytes_of_string. by rewrite length_fmap, length_list_ascii_of_string. Qed.

Lemma string_of_bytes_of_string (s : string) :
  string_of_bytes (bytes_of_string s) = s.
Proof.
  unfold string_of_bytes, bytes_of_string. rewrite <- list_fmap_compose.
  rewrite (list_fmap_ext _ id (String.list_ascii_of_string s)).
  - rewrite list_fmap_id. apply String.string_of_list_ascii_of_string.
  - intros _ c _. simpl. by rewrite N2Z.id, ascii_N_embedding.
Qed.

Lemma be_value_snoc (l : bytes) (x : Z) : be_value (l ++ [x]) = be_value l * 256 + x.
Proof. unfold be_value. by rewrite foldl_app. Qed.

Lemma length_be_bytes (k : nat) : forall n, length (be_bytes k n) = k.
Proof.
  induction k as [|k IH]; intros n; [done|].
  cbn [be_bytes]. rewrite length_app, IH. simpl. lia.
Qed.

Lemma be_value_be_bytes (k : nat) : forall n,
  be_value (be_bytes k n) = n mod 256 ^ Z.of_nat k.
Proof.
  induction k as [|k IH]; intros n.
  - simpl. by rewrite Z.mod_1_r.
  - cbn [be_bytes]. rewrite be_value_snoc, IH.
    rewrite Nat2Z.inj_succ, Z.pow_succ_r by lia.
    rewrite Z.rem_mul_r by lia. lia.
Qed.

Lemma read_size_be (k : nat) (lead n : Z) (rest : bytes) :
  read_size k (lead :: be_bytes k n ++ rest) = Ok (n mod 256 ^ Z.of_nat k, rest).
Proof.
  unfold read_size.
  assert (length (lead :: be_bytes k n ++ rest) = S (k + length rest)) as ->
    by (cbn; by rewrite length_app, length_be_bytes).
  destruct (Nat.ltb_spec (S (k + length rest)) (S k)); [lia|].
  cbn [drop]. rewrite drop_0.
  rewrite take_app_length' by (by rewrite length_be_bytes).
  rewrite drop_app_length' by (by rewrite length_be_bytes).
  by rewrite be_value_be_bytes.
Qed.

Lemma ReadArrayHeader_Append (sz : Z) (rest : bytes) :
  0 <= sz < 2 ^ 32 ->
  ReadArrayHeaderBytes (AppendArrayHeader [] sz ++ rest) = Ok (sz, rest).
Proof.
  intros Hsz. unfold AppendArrayHeader.
  destruct (Z.leb_spec sz 15); [|destruct (Z.leb_spec sz 65535)];
    cbn [app ReadArrayHeaderBytes].
  - unfold isfixarray, mfixarray.
    destruct (Z.leb_spec 144 (144 + sz)); [|lia].
    destruct (Z.ltb_spec (144 + sz) 160); [|lia].
    cbn. do 2 f_equal. lia.
  - change (isfixarray marray16) with false. change (marray16 =? marray16) with true.
    cbn iota. rewrite read_size_be. do 2 f_equal. apply Z.mod_small. lia.
  - change (isfixarray marray32) with false. change (marray32 =? marray16) with false.
    change (marray32 =? marray32) with true.
    cbn iota. rewrite read_size_be. do 2 f_equal. apply Z.mod_small. lia.
Qed.

Lemma ReadMapHeader_Append (sz : Z) (rest : bytes) :
  0 <= sz < 2 ^ 32 ->
  ReadMapHeaderBytes (AppendMapHeader [] sz ++ rest) = Ok (sz, rest).
Proof.
  intros Hsz. unfold AppendMapHeader.
  destruct (Z.leb_spec sz 15); [|destruct (Z.leb_spec sz 65535)];
    cbn [app ReadMapHeaderBytes].
  - unfold isfixmap, mfixmap.
    destruct (Z.leb_spec 128 (128 + sz)); [|lia].
    destruct (Z.ltb_spec (128 + sz) 144); [|lia].
    cbn. do 2 f_equal. lia.
  - change (isfixmap mmap16) with false. change (mmap16 =? mmap16) with true.
    cbn iota. rewrite read_size_be. do 2 f_equal. apply Z.mod_small. lia.
  - change (isfixmap mmap32) with false. change (mmap32 =? mmap16) with false.
    change (mmap32 =? mmap32) with true.
    cbn iota. rewrite read_size_be. do 2 f_equal. apply Z.mod_small. lia.
Qed.

Lemma read_body_app (v rest : bytes) :
  read_body (Z.of_nat (length v), v ++ rest) = Ok (v, rest).
Proof.
  unfold read_body. rewrite Nat2Z.id, length_app.
  destruct (Nat.ltb_spec (length v + length rest) (length v)); [lia|].
  by rewrite take_app_length, drop_app_length.
Qed.

Lemma ReadStringZC_Append (s : string) (rest : bytes) :
  Z.of_nat (String.length s) < 2 ^ 32 ->
  ReadStringZC (AppendString [] s ++ rest) = Ok (bytes_of_string s, rest).
Proof.
  intros Hs. unfold AppendString. cbn zeta.
  rewrite <- (length_bytes_of_string s) in *.
  set (v := bytes_of_string s) in *. set (sz := Z.of_nat (length v)) in *.
  destruct (Z.leb_spec sz 31); [|destruct (Z.leb_spec sz 255);
    [|destruct (Z.leb_spec sz 65535)]]; cbn [app ReadStringZC].
  - unfold isfixstr, mfixstr.
    destruct (Z.leb_spec 160 (160 + sz)); [|lia].
    destruct (Z.ltb_spec (160 + sz) 192); [|lia].
    cbn [andb]. replace (160 + sz - 160) with sz by lia. apply read_body_app.
  - change (isfixstr mstr8) with false. change (mstr8 =? mstr8) with true.
    cbn iota. rewrite <- app_assoc, read_size_be. cbn [mbind result_bind].
    rewrite Z.mod_small by lia. apply read_body_app.
  - change (isfixstr mstr16) with false. change (mstr16 =? mstr8) with false.
    change (mstr16 =? mstr16) with true.
    cbn iota. rewrite <- app_assoc, read_size_be. cbn [mbind result_bind].
    rewrite Z.mod_small by lia. apply read_body_app.
  - change (isfixstr mstr32) with false. change (mstr32 =? mstr8) with false.
    change (mstr32 =? mstr16) with false. change (mstr32 =? mstr32) with true.
    cbn iota. rewrite <- app_assoc, read_size_be. cbn [mbind result_bind].
    unfold uint32. rewrite Z.mod_mod by lia. change (256 ^ Z.of_nat 4) with (2 ^ 32).
    rewrite Z.mod_small by lia. apply read_body_app.
Qed.

Lemma ReadString_Append (s : string) (rest : bytes) :
  Z.of_nat (String.length s) < 2 ^ 32 ->
  ReadStringBytes (AppendString [] s ++ rest) = Ok (s, rest).
Proof.
  intros Hs. unfold ReadStringBytes. rewrite ReadStringZC_Append by done.
  cbn. by rewrite string_of_bytes_of_string.
Qed.

Lemma ReadBool_Append (t : bool) (rest : bytes) :
  ReadBoolBytes (AppendBool [] t ++ rest) = Ok (t, rest).
Proof. by destruct t. Qed.


Lemma signed_mod (k : nat) (i : Z) :
  - 2 ^ (8 * Z.of_nat k - 1) <= i < 2 ^ (8 * Z.of_nat k - 1) -> (0 < k)%nat ->
  signed k (i mod 256 ^ Z.of_nat k) = i.
Proof.
  intros Hi Hk. unfold signed.
  change 256 with (2 ^ 8). rewrite <- Z.pow_mul_r by lia.
  set (h := 2 ^ (8 * Z.of_nat k - 1)) in *.
  assert (2 ^ (8 * Z.of_nat k) = 2 * h) as ->.
  { unfold h. rewrite <- Z.pow_succ_r by lia. f_equal. lia. }
  assert (0 < h) by (apply Z.pow_pos_nonneg; lia).
  destruct (Z.le_gt_cases 0 i).
  - rewrite Z.mod_small by lia. destruct (Z.ltb_spec i h); lia.
  - assert (i mod (2 * h) = i + 2 * h) as ->.
    { symmetry. apply (Z.mod_unique_pos _ _ (-1)); lia. }
    destruct (Z.ltb_spec (i + 2 * h) h); lia.
Qed.

Lemma read_signed (k : nat) (lead i : Z) (rest : bytes) :
  - 2 ^ (8 * Z.of_nat k - 1) <= i < 2 ^ (8 * Z.of_nat k - 1) -> (0 < k)%nat ->
  ('(u, o) ← read_size k (lead :: be_bytes k i ++ rest); Ok (signed k u, o))
  = Ok (i, rest).
Proof.
  intros Hi Hk. rewrite read_size_be. cbn [mbind result_bind].
  by rewrite signed_mod.
Qed.

Lemma ReadInt64_mint8 (b : bytes) :
  ReadInt64Bytes (mint8 :: b)
  = '(u, o) ← read_size 1 (mint8 :: b); Ok (signed 1 u, o).
Proof. reflexivity. Qed.

Lemma ReadInt64_mint16 (b : bytes) :
  ReadInt64Bytes (mint16 :: b)
  = '(u, o) ← read_size 2 (mint16 :: b); Ok (signed 2 u, o).
Proof. reflexivity. Qed.

Lemma ReadInt64_mint32 (b : bytes) :
  ReadInt64Bytes (mint32 :: b)
  = '(u, o) ← read_size 4 (mint32 :: b); Ok (signed 4 u, o).
Proof. reflexivity. Qed.

Lemma ReadInt64_mint64 (b : bytes) :
  ReadInt64Bytes (mint64 :: b)
  = '(u, o) ← read_size 8 (mint64 :: b); Ok (signed 8 u, o).
Proof. reflexivity. Qed.

Lemma ReadInt64_Append (i : Z) (rest : bytes) :
  is_int i -> ReadInt64Bytes (AppendInt64 [] i ++ rest) = Ok (i, rest).
Proof.
  unfold is_int. intros Hi. unfold AppendInt64.
  repeat match goal with
         | |- context [?a <=? ?b] => destruct (Z.leb_spec a b)
         end; try lia; cbn [app];
    rewrite ?ReadInt64_mint8, ?ReadInt64_mint16, ?ReadInt64_mint32,
      ?ReadInt64_mint64;
    try (apply read_signed; lia).
  - unfold ReadInt64Bytes, isfixint. destruct (Z.leb_spec 0 i); [|lia].
    destruct (Z.ltb_spec i 128); [|lia]. done.
  - unfold ReadInt64Bytes, isfixint, isnfixint.
    destruct (Z.leb_spec 0 (i + 256)); [|lia].
    destruct (Z.ltb_spec (i + 256) 128); [lia|].
    destruct (Z.leb_spec 224 (i + 256)); [|lia].
    destruct (Z.ltb_spec (i + 256) 256); [|lia].
    cbn. do 2 f_equal. lia.
Qed.

(** Every [Append...] adds to the end of the slice it is given. *)
Lemma AppendArrayHeader_app (b : bytes) (sz : Z) :
  AppendArrayHeader b sz = b ++ AppendArrayHeader [] sz.
Proof. unfold AppendArrayHeader. by repeat case_match. Qed.

Lemma AppendMapHeader_app (b : bytes) (sz : Z) :
  AppendMapHeader b sz = b ++ AppendMapHeader [] sz.
Proof. unfold AppendMapHeader. by repeat case_match. Qed.

Lemma AppendString_app (b : bytes) (s : string) :
  AppendString b s = b ++ AppendString [] s.
Proof. unfold AppendString. cbn zeta. by repeat case_match. Qed.

Lemma AppendBool_app (b : bytes) (t : bool) : AppendBool b t = b ++ AppendBool [] t.
Proof. done. Qed.

Lemma AppendInt64_app (b : bytes) (i : Z) :
  AppendInt64 b i = b ++ AppendInt64 [] i.
Proof. unfold AppendInt64. by repeat case_match. Qed.

(** A fold of appends adds the encodings of the elements in order. *)
Lemma foldl_append {A : Type} (f : bytes -> A -> bytes) (l : list A) :
  (forall b a, f b a = b ++ f [] a) ->
  forall b, foldl f b l = b ++ foldl f [] l.
Proof.
  intros Hf. induction l as [|a l IH]; intros b; cbn [foldl].
  - by rewrite app_nil_r.
  - rewrite IH, (IH (f [] a)), Hf. by rewrite app_assoc.
Qed.

Lemma foldl_append_cons {A : Type} (f : bytes -> A -> bytes) (a : A) (l : list A) :
  (forall b a, f b a = b ++ f [] a) ->
  foldl f [] (a :: l) = f [] a ++ foldl f [] l.
Proof. intros Hf. cbn [foldl]. by apply foldl_append. Qed.

(** The field names of the four messages, as the encoders write them. *)
Lemma ReadMapKeyZC_fixstr (name rest : bytes) :
  Z.of_nat (length name) <= 31 ->
  ReadMapKeyZC ((mfixstr + Z.of_nat (length name)) :: name ++ rest)
  = Ok (name, rest).
Proof.
  intros Hn. unfold ReadMapKeyZC, ReadStringZC, isfixstr, mfixstr.
  destruct (Z.leb_spec 160 (160 + Z.of_nat (length name))); [|lia].
  destruct (Z.ltb_spec (160 + Z.of_nat (length name)) 192); [|lia].
  cbn [andb].
  replace (160 + Z.of_nat (length name) - 160) with (Z.of_nat (length name)) by lia.
  by rewrite read_body_app.
Qed.

Lemma ReadMapHeader_fixmap2 (r : bytes) : ReadMapHeaderBytes (130 :: r) = Ok (2, r).
Proof. reflexivity. Qed.
Lemma ReadMapHeader_fixmap3 (r : bytes) : ReadMapHeaderBytes (131 :: r) = Ok (3, r).
Proof. reflexivity. Qed.
Lemma ReadMapKeyZC_4 (a b c d : Z) (r : bytes) :
  ReadMapKeyZC (164 :: a :: b :: c :: d :: r) = Ok ([a; b; c; d], r).
Proof. reflexivity. Qed.
Lemma ReadMapKeyZC_5 (a b c d e : Z) (r : bytes) :
  ReadMapKeyZC (165 :: a :: b :: c :: d :: e :: r) = Ok ([a; b; c; d; e], r).
Proof. reflexivity. Qed.
Lemma ReadMapKeyZC_6 (a b c d e f : Z) (r : bytes) :
  ReadMapKeyZC (166 :: a :: b :: c :: d :: e :: f :: r) = Ok ([a; b; c; d; e; f], r).
Proof. reflexivity. Qed.
Lemma ReadMapKeyZC_9 (a b c d e f g h i : Z) (r : bytes) :
  ReadMapKeyZC (169 :: a :: b :: c :: d :: e :: f :: g :: h :: i :: r)
  = Ok ([a; b; c; d; e; f; g; h; i], r).
Proof. reflexivity. Qed.

End msgp_facts.

(** ** The round trip of the four messages *)

Section tag_del_series.
Import go msgp GraphiteTagDelSeries.

Lemma TagDel_MarshalMsg_eq (z : t) (b : bytes) :
  MarshalMsg z b
  = b ++ [130; 165; 80; 97; 116; 104; 115]
      ++ AppendArrayHeader [] (uint32 (Z.of_nat (length (Paths z))))
      ++ foldl AppendString [] (Paths z)
      ++ [169; 80; 114; 111; 112; 97; 103; 97; 116; 101]
      ++ AppendBool [] (Propagate z).
Proof.
  unfold MarshalMsg. cbn zeta.
  rewrite AppendBool_app, (foldl_append AppendString _ AppendString_app),
    AppendArrayHeader_app.
  by rewrite <- !app_assoc.
Qed.

Lemma read_strings_roundtrip (l : list string) (rest : bytes) :
  Forall valid_string l ->
  read_strings (length l) (foldl AppendString [] l ++ rest) = Ok (l, rest).
Proof.
  induction 1 as [|s l Hs Hl IH]; [done|].
  rewrite (foldl_append_cons AppendString _ _ AppendString_app), <- app_assoc.
  cbn [length read_strings]. rewrite ReadString_Append by done.
  cbn [mbind result_bind]. by rewrite IH.
Qed.

Lemma TagDel_field_Paths (z : t) (paths : list string) (rest : bytes) :
  valid_length paths -> Forall valid_string paths ->
  field z "Paths"
    (AppendArrayHeader [] (uint32 (Z.of_nat (length paths)))
       ++ foldl AppendString [] paths ++ rest)
  = Ok ({| Paths := paths; Propagate := Propagate z |}, rest).
Proof.
  intros Hlen Hstr. unfold valid_length in Hlen. unfold field.
  change (String.eqb "Paths" "Paths") with true. cbn iota.
  rewrite uint32_small, ReadArrayHeader_Append by lia.
  cbn [mbind result_bind]. rewrite Nat2Z.id, read_strings_roundtrip by done.
  done.
Qed.

Lemma TagDel_field_Propagate (z : t) (p : bool) (rest : bytes) :
  field z "Propagate" (AppendBool [] p ++ rest)
  = Ok ({| Paths := Paths z; Propagate := p |}, rest).
Proof. by destruct p. Qed.

Lemma TagDel_roundtrip (x z : t) :
  valid x -> UnmarshalMsg z (MarshalMsg x []) = Ok (x, []).
Proof.
  intros [Hlen Hstr].
  rewrite TagDel_MarshalMsg_eq. unfold UnmarshalMsg. cbn [app].
  rewrite ReadMapHeader_fixmap2. cbn [mbind result_bind].
  change (Z.to_nat 2) with 2%nat. cbn [fields].
  rewrite ReadMapKeyZC_5. cbn [mbind result_bind].
  change (string_of_bytes [80; 97; 116; 104; 115]) with "Paths".
  rewrite TagDel_field_Paths by done. cbn [mbind result_bind].
  rewrite ReadMapKeyZC_9. cbn [mbind result_bind].
  change (string_of_bytes [80; 114; 111; 112; 97; 103; 97; 116; 101])
    with "Propagate".
  rewrite <- (app_nil_r (AppendBool [] _)), TagDel_field_Propagate.
  cbn [mbind result_bind]. by destruct x.
Qed.
End tag_del_series.

Section tag_del_series_resp.
Import go msgp GraphiteTagDelSeriesResp.

Lemma peer_app (b : bytes) (p : string * Z) : peer b p = b ++ peer [] p.
Proof.
  destruct p as [k v]. unfold peer, AppendInt.
  rewrite AppendInt64_app, AppendString_app, (AppendInt64_app (AppendString [] k)).
  by rewrite app_assoc.
Qed.

Lemma Resp_MarshalMsg_eq (range : list (string * Z)) (z : t) (b : bytes) :
  MarshalMsg range z b
  = b ++ [130; 165; 67; 111; 117; 110; 116]
      ++ AppendInt64 [] (Count z)
      ++ [165; 80; 101; 101; 114; 115]
      ++ AppendMapHeader [] (uint32 (Z.of_nat (size (Peers z))))
      ++ foldl peer [] range.
Proof.
  unfold MarshalMsg. cbn zeta.
  rewrite (foldl_append peer _ peer_app), AppendMapHeader_app.
  unfold AppendInt. rewrite AppendInt64_app.
  by rewrite <- !app_assoc.
Qed.

Lemma read_peers_roundtrip (range : list (string * Z)) (rest : bytes)
    (peers : gmap string Z) :
  Forall (fun p => valid_string p.1 /\ is_int p.2) range ->
  read_peers (length range) peers (foldl peer [] range ++ rest)
  = Ok (foldl (fun m p => <[p.1 := p.2]> m) peers range, rest).
Proof.
  intros H. revert peers.
  induction H as [|[k v] range [Hk Hv] Hr IH]; intros peers; [done|].
  rewrite (foldl_append_cons peer _ _ peer_app), <- app_assoc.
  cbn [length read_peers foldl fst snd]. unfold peer at 1, AppendInt.
  rewrite AppendInt64_app, <- app_assoc, ReadString_Append by done.
  cbn [mbind result_bind]. unfold ReadIntBytes.
  rewrite ReadInt64_Append by done. cbn [mbind result_bind]. apply IH.
Qed.

Lemma foldl_insert_reverse (l : list (string * Z)) : forall m : gmap string Z,
  foldl (fun m p => <[p.1 := p.2]> m) m l
  = foldr (fun p m => <[p.1 := p.2]> m) m (reverse l).
Proof.
  induction l as [|p l IH]; intros m; [done|].
  cbn [foldl]. by rewrite IH, reverse_cons, foldr_app.
Qed.

(** Whatever the order of the entries, inserting them one by one into the
    empty map gives the map back. *)
Lemma foldl_insert_range (peers : gmap string Z) (range : list (string * Z)) :
  range ≡ₚ map_to_list peers ->
  foldl (fun m p => <[p.1 := p.2]> m) ∅ range = peers.
Proof.
  intros Hr. rewrite foldl_insert_reverse. symmetry.
  apply (list_to_map_flip peers (reverse range)).
  by rewrite reverse_Permutation.
Qed.

Lemma Resp_field_Count (z : t) (c : Z) (rest : bytes) :
  is_int c ->
  field z "Count" (AppendInt64 [] c ++ rest)
  = Ok ({| Count := c; Peers := Peers z |}, rest).
Proof.
  intros Hc. unfold field. change (String.eqb "Count" "Count") with true.
  cbn iota. unfold ReadIntBytes. by rewrite ReadInt64_Append.
Qed.

Lemma Resp_field_Peers (z : t) (peers : gmap string Z) (range : list (string * Z))
    (rest : bytes) :
  Z.of_nat (size peers) < 2 ^ 32 ->
  map_Forall (fun k v => valid_string k /\ is_int v) peers ->
  range ≡ₚ map_to_list peers ->
  field z "Peers"
    (AppendMapHeader [] (uint32 (Z.of_nat (size peers)))
       ++ foldl peer [] range ++ rest)
  = Ok ({| Count := Count z; Peers := peers |}, rest).
Proof.
  intros Hsize Hvalid Hr. unfold field.
  change (String.eqb "Peers" "Count") with false.
  change (String.eqb "Peers" "Peers") with true. cbn iota.
  rewrite uint32_small, ReadMapHeader_Append by lia.
  cbn [mbind result_bind].
  assert (length range = size peers) as Hlen.
  { by rewrite Hr, length_map_to_list. }
  rewrite Nat2Z.id, <- Hlen, read_peers_roundtrip.
  - cbn [mbind result_bind]. by rewrite (foldl_insert_range peers).
  - apply map_Forall_to_list in Hvalid. rewrite Hr.
    eapply Forall_impl; [exact Hvalid|]. by intros [k v].
Qed.

Lemma Resp_roundtrip (x z : t) (range : list (string * Z)) :
  valid x -> range ≡ₚ map_to_list (Peers x) ->
  UnmarshalMsg z (MarshalMsg range x []) = Ok (x, []).
Proof.
  intros (Hc & Hsize & Hvalid) Hr.
  rewrite Resp_MarshalMsg_eq. unfold UnmarshalMsg. cbn [app].
  rewrite ReadMapHeader_fixmap2. cbn [mbind result_bind].
  change (Z.to_nat 2) with 2%nat. cbn [fields].
  rewrite ReadMapKeyZC_5. cbn [mbind result_bind].
  change (string_of_bytes [67; 111; 117; 110; 116]) with "Count".
  rewrite Resp_field_Count by done. cbn [mbind result_bind].
  rewrite ReadMapKeyZC_5. cbn [mbind result_bind].
  change (string_of_bytes [80; 101; 101; 114; 115]) with "Peers".
  rewrite <- (app_nil_r (foldl peer [] range)), Resp_field_Peers by done.
  cbn [mbind result_bind]. by destruct x.
Qed.

End tag_del_series_resp.

Section series_pickle_item.
Import go msgp SeriesPickleItem.

Lemma interval_app (b : bytes) (iv : list Z) : interval b iv = b ++ interval [] iv.
Proof.
  unfold interval.
  rewrite (foldl_append AppendInt64 _ AppendInt64_app), AppendArrayHeader_app.
  rewrite (foldl_append AppendInt64 _ AppendInt64_app (AppendArrayHeader [] _)).
  by rewrite app_assoc.
Qed.

Lemma Item_MarshalMsg_eq (z : t) (b : bytes) :
  MarshalMsg z b
  = b ++ [131; 164; 112; 97; 116; 104]
      ++ AppendString [] (Path z)
      ++ [166; 105; 115; 76; 101; 97; 102]
      ++ AppendBool [] (IsLeaf z)
      ++ [169; 105; 110; 116; 101; 114; 118; 97; 108; 115]
      ++ AppendArrayHeader [] (uint32 (Z.of_nat (length (Intervals z))))
      ++ foldl interval [] (Intervals z).
Proof.
  unfold MarshalMsg. cbn zeta.
  rewrite (foldl_append interval _ interval_app), AppendArrayHeader_app,
    AppendBool_app, AppendString_app.
  by rewrite <- !app_assoc.
Qed.

Lemma Item_MarshalMsg_app (z : t) (b : bytes) : MarshalMsg z b = b ++ MarshalMsg z [].
Proof. by rewrite Item_MarshalMsg_eq, (Item_MarshalMsg_eq z []). Qed.

Lemma read_int64s_roundtrip (l : list Z) (rest : bytes) :
  Forall is_int l ->
  read_int64s (length l) (foldl AppendInt64 [] l ++ rest) = Ok (l, rest).
Proof.
  induction 1 as [|i l Hi Hl IH]; [done|].
  rewrite (foldl_append_cons AppendInt64 _ _ AppendInt64_app), <- app_assoc.
  cbn [length read_int64s]. rewrite ReadInt64_Append by done.
  cbn [mbind result_bind]. by rewrite IH.
Qed.

Lemma read_intervals_roundtrip (l : list (list Z)) (rest : bytes) :
  Forall valid_interval l ->
  read_intervals (length l) (foldl interval [] l ++ rest) = Ok (l, rest).
Proof.
  induction 1 as [|iv l [Hlen Hiv] Hl IH]; [done|].
  unfold valid_length in Hlen.
  rewrite (foldl_append_cons interval _ _ interval_app), <- app_assoc.
  cbn [length read_intervals]. unfold interval at 1.
  rewrite (foldl_append AppendInt64 _ AppendInt64_app), <- app_assoc.
  rewrite uint32_small, ReadArrayHeader_Append by lia.
  cbn [mbind result_bind].
  rewrite Nat2Z.id, read_int64s_roundtrip by done.
  cbn [mbind result_bind]. by rewrite IH.
Qed.

Lemma Item_field_path (z : t) (p : string) (rest : bytes) :
  valid_string p ->
  field z "path" (AppendString [] p ++ rest)
  = Ok ({| Path := p; IsLeaf := IsLeaf z; Intervals := Intervals z |}, rest).
Proof.
  intros Hp. unfold field. change (String.eqb "path" "path") with true.
  cbn iota. by rewrite ReadString_Append.
Qed.

Lemma Item_field_isLeaf (z : t) (l : bool) (rest : bytes) :
  field z "isLeaf" (AppendBool [] l ++ rest)
  = Ok ({| Path := Path z; IsLeaf := l; Intervals := Intervals z |}, rest).
Proof. by destruct l. Qed.

Lemma Item_field_intervals (z : t) (ivs : list (list Z)) (rest : bytes) :
  valid_length ivs -> Forall valid_interval ivs ->
  field z "intervals"
    (AppendArrayHeader [] (uint32 (Z.of_nat (length ivs)))
       ++ foldl interval [] ivs ++ rest)
  = Ok ({| Path := Path z; IsLeaf := IsLeaf z; Intervals := ivs |}, rest).
Proof.
  intros Hlen Hivs. unfold valid_length in Hlen. unfold field.
  change (String.eqb "intervals" "path") with false.
  change (String.eqb "intervals" "isLeaf") with false.
  change (String.eqb "intervals" "intervals") with true. cbn iota.
  rewrite uint32_small, ReadArrayHeader_Append by lia.
  cbn [mbind result_bind].
  by rewrite Nat2Z.id, read_intervals_roundtrip.
Qed.

Lemma Item_roundtrip_rest (x z : t) (rest : bytes) :
  valid x -> UnmarshalMsg z (MarshalMsg x [] ++ rest) = Ok (x, rest).
Proof.
  intros (Hp & Hlen & Hivs).
  rewrite Item_MarshalMsg_eq, <- !app_assoc. unfold UnmarshalMsg. cbn [app].
  rewrite ReadMapHeader_fixmap3. cbn [mbind result_bind].
  change (Z.to_nat 3) with 3%nat. cbn [fields].
  rewrite ReadMapKeyZC_4. cbn [mbind result_bind].
  change (string_of_bytes [112; 97; 116; 104]) with "path".
  rewrite Item_field_path by done. cbn [mbind result_bind].
  rewrite ReadMapKeyZC_6. cbn [mbind result_bind].
  change (string_of_bytes [105; 115; 76; 101; 97; 102]) with "isLeaf".
  rewrite Item_field_isLeaf. cbn [mbind result_bind].
  rewrite ReadMapKeyZC_9. cbn [mbind result_bind].
  change (string_of_bytes [105; 110; 116; 101; 114; 118; 97; 108; 115])
    with "intervals".
  rewrite Item_field_intervals by done.
  cbn [mbind result_bind]. by destruct x.
Qed.

End series_pickle_item.

Section series_pickle.
Import go msgp SeriesPickle.

Lemma items_roundtrip (x : t) (rest : bytes) :
  Forall SeriesPickleItem.valid x ->
  forall z : list SeriesPickleItem.t, length z = length x ->
  items z (foldl item [] x ++ rest) = Ok (x, rest).
Proof.
  induction 1 as [|i x Hi Hx IH]; intros [|z0 z] Hlen; try done.
  rewrite (foldl_append_cons item _ _ (fun b a => Item_MarshalMsg_app a b)),
    <- app_assoc.
  cbn [items]. unfold item at 1. rewrite Item_roundtrip_rest by done.
  cbn [mbind result_bind]. rewrite IH by (simpl in Hlen; lia). done.
Qed.

Lemma Pickle_roundtrip (x : t) (backing : list SeriesPickleItem.t) :
  valid x -> UnmarshalMsg backing (MarshalMsg x []) = Ok (x, []).
Proof.
  intros [Hlen Hx]. unfold valid_length in Hlen.
  unfold UnmarshalMsg, MarshalMsg. cbn zeta.
  rewrite (foldl_append item _ (fun b a => Item_MarshalMsg_app a b)).
  rewrite uint32_small, ReadArrayHeader_Append by lia.
  cbn [mbind result_bind]. rewrite Nat2Z.id.
  rewrite <- (app_nil_r (foldl item [] x)).
  destruct (Nat.leb_spec (length x) (length backing)).
  - apply items_roundtrip; [done|]. rewrite length_take. lia.
  - apply items_roundtrip; [done|]. by rewrite length_replicate.
Qed.

End series_pickle.

(** C2: for every valid value [x] of each of the four message types
    (tag-deletion request, tag-deletion response, series-metadata entry,
    series-metadata collection), decoding the bytes that encoding [x]
    produces yields [x], with no bytes left, whatever the receiver held
    before and, for the response, in whatever order the encoder ranged over
    the map. *)
Theorem C2_envelope_roundtrip :
  (forall x z : GraphiteTagDelSeries.t,
     GraphiteTagDelSeries.valid x ->
     GraphiteTagDelSeries.UnmarshalMsg z (GraphiteTagDelSeries.MarshalMsg x [])
     = msgp.Ok (x, []))
  /\ (forall (x z : GraphiteTagDelSeriesResp.t) (range : list (string * Z)),
        GraphiteTagDelSeriesResp.valid x ->
        range ≡ₚ map_to_list (GraphiteTagDelSeriesResp.Peers x) ->
        GraphiteTagDelSeriesResp.UnmarshalMsg z
          (GraphiteTagDelSeriesResp.MarshalMsg range x [])
        = msgp.Ok (x, []))
  /\ (forall x z : SeriesPickleItem.t,
        SeriesPickleItem.valid x ->
        SeriesPickleItem.UnmarshalMsg z (SeriesPickleItem.MarshalMsg x [])
        = msgp.Ok (x, []))
  /\ (forall (x : SeriesPickle.t) (backing : list SeriesPickleItem.t),
        SeriesPickle.valid x ->
        SeriesPickle.UnmarshalMsg backing (SeriesPickle.MarshalMsg x [])
        = msgp.Ok (x, [])).
Proof.
  split; [|split; [|split]].
  - intros x z Hx. by apply TagDel_roundtrip.
  - intros x z range Hx Hr. by apply Resp_roundtrip.
  - intros x z Hx.
    rewrite <- (app_nil_r (SeriesPickleItem.MarshalMsg x [])).
    by apply Item_roundtrip_rest.
  - intros x backing Hx. by apply Pickle_roundtrip.
Qed.

Lemma C2_envelope_roundtrip_witness :
  let del := {| GraphiteTagDelSeries.Paths := ["a.b"; "c"];
                GraphiteTagDelSeries.Propagate := true |} in
  let resp := {| GraphiteTagDelSeriesResp.Count := 300;
                 GraphiteTagDelSeriesResp.Peers := {[ "peer" := -1 ]} |} in
  let entry := {| SeriesPickleItem.Path := "foo.bar";
                  SeriesPickleItem.IsLeaf := true;
                  SeriesPickleItem.Intervals := [[0; 1500000000]; [-5; 300]] |} in
  GraphiteTagDelSeries.UnmarshalMsg
    {| GraphiteTagDelSeries.Paths := ["old"];
       GraphiteTagDelSeries.Propagate := false |}
    (GraphiteTagDelSeries.MarshalMsg del []) = msgp.Ok (del, [])
  /\ GraphiteTagDelSeriesResp.UnmarshalMsg resp
       (GraphiteTagDelSeriesResp.MarshalMsg [("peer", -1)] resp [])
     = msgp.Ok (resp, [])
  /\ SeriesPickleItem.UnmarshalMsg SeriesPickleItem.zero
       (SeriesPickleItem.MarshalMsg entry []) = msgp.Ok (entry, [])
  /\ SeriesPickle.UnmarshalMsg [] (SeriesPickle.MarshalMsg [entry; entry] [])
     = msgp.Ok ([entry; entry], []).
Proof.
  intros del resp entry.
  destruct C2_envelope_roundtrip as (Hdel & Hresp & Hentry & Hpickle).
  assert (SeriesPickleItem.valid entry) as Hvalid.
  { unfold SeriesPickleItem.valid, SeriesPickleItem.valid_interval,
      msgp.valid_string, msgp.valid_length, go.is_int.
    repeat first [split | constructor | reflexivity | by vm_compute]. }
  split; [|split; [|split]].
  - apply Hdel. unfold GraphiteTagDelSeries.valid, msgp.valid_length.
    split; [reflexivity|]. repeat constructor.
  - apply Hresp.
    + unfold GraphiteTagDelSeriesResp.valid, go.is_int. simpl.
      split; [lia|]. split.
      * rewrite map_size_singleton. reflexivity.
      * apply map_Forall_singleton. unfold msgp.valid_string. simpl. lia.
    + unfold resp. cbn [GraphiteTagDelSeriesResp.Peers].
      by rewrite map_to_list_singleton.
  - by apply Hentry.
  - apply Hpickle. split; [reflexivity|]. by repeat constructor.
Defined.

(** ** Row keys determine the metric key and the month *)

Section row_key_inj.
Import go fmt cassandra.

Lemma list_ascii_of_string_app (s t : string) :
  String.list_ascii_of_string (s +:+ t)
  = String.list_ascii_of_string s ++ String.list_ascii_of_string t.
Proof.
  induction s as [|c s IH]; [done|].
  change (String c s +:+ t) with (String c (s +:+ t)). simpl. by rewrite IH.
Qed.

Lemma list_ascii_of_string_inj (s t : string) :
  String.list_ascii_of_string s = String.list_ascii_of_string t -> s = t.
Proof.
  intros H.
  rewrite <- (String.string_of_list_ascii_of_string s),
    <- (String.string_of_list_ascii_of_string t). by rewrite H.
Qed.

(** A character splits a list at its first occurrence in one way only. *)
Lemma first_occurrence_inj {A : Type} (x : A) (a1 : list A) :
  forall a2 b1 b2 : list A,
  x ∉ a1 -> x ∉ a2 -> a1 ++ x :: b1 = a2 ++ x :: b2 -> a1 = a2 /\ b1 = b2.
Proof.
  induction a1 as [|y a1 IH]; intros [|z a2] b1 b2 H1 H2 E; simpl in E.
  - by injection E as ->.
  - injection E as -> _. exfalso. apply H2. by left.
  - injection E as -> _. exfalso. apply H1. by left.
  - injection E as -> E. apply not_elem_of_cons in H1 as [_ H1].
    apply not_elem_of_cons in H2 as [_ H2].
    destruct (IH a2 b1 b2 H1 H2 E) as [-> ->]. done.
Qed.

(** So does its last occurrence. *)
Lemma last_occurrence_inj {A : Type} (x : A) (a1 a2 b1 b2 : list A) :
  x ∉ b1 -> x ∉ b2 -> a1 ++ x :: b1 = a2 ++ x :: b2 -> a1 = a2 /\ b1 = b2.
Proof.
  intros H1 H2 E. apply (f_equal reverse) in E.
  rewrite !reverse_app, !reverse_cons, <- !app_assoc in E. simpl in E.
  apply first_occurrence_inj in E as [E1 E2]; [| by rewrite elem_of_reverse..].
  apply (inj reverse) in E1, E2. done.
Qed.

Lemma string_of_uint_no_underscore (d : Decimal.uint) :
  "_"%char ∉ String.list_ascii_of_string (NilEmpty.string_of_uint d).
Proof.
  induction d; simpl; [apply not_elem_of_nil|..];
    (apply not_elem_of_cons; split; [discriminate | done]).
Qed.

Lemma uint_no_underscore (d : Decimal.uint) :
  "_"%char ∉ String.list_ascii_of_string (NilZero.string_of_uint d).
Proof.
  destruct d; try apply string_of_uint_no_underscore.
  simpl. apply not_elem_of_cons. split; [discriminate | apply not_elem_of_nil].
Qed.

Lemma decimal_no_underscore (n : Z) :
  "_"%char ∉ String.list_ascii_of_string (decimal n).
Proof.
  unfold decimal. destruct (Z.to_int n) as [d|d]; simpl.
  - apply uint_no_underscore.
  - apply not_elem_of_cons. split; [discriminate | apply uint_no_underscore].
Qed.

(** A row key determines the metric key and the month. *)
Lemma row_key_inj_key (k1 k2 : string) (t1 t2 : Z) :
  row_key k1 t1 = row_key k2 t2 ->
  k1 = k2 /\ t1 / Month_sec = t2 / Month_sec.
Proof.
  rewrite !row_key_eq. intros H.
  apply (f_equal String.list_ascii_of_string) in H.
  rewrite !list_ascii_of_string_app in H. simpl in H.
  apply last_occurrence_inj in H as [Hk Hd];
    [| apply decimal_no_underscore..].
  split; [by apply list_ascii_of_string_inj|].
  by apply decimal_inj, list_ascii_of_string_inj.
Qed.

End row_key_inj.

(** ** The database and the rows of a query *)

Section store_facts.
Import go fmt cassandra.

(** Every row of a database that [insertChunk] filled sits under the row
    key of its timestamp, a [uint32]. *)
Lemma written_row_key (c : CassandraStore) (db : database) :
  written c db ->
  forall (tbl rk : string) (ts : Z) (data : list Z),
  db !! (tbl, rk, ts) = Some data ->
  is_uint32 ts /\ exists k, rk = row_key k ts.
Proof.
  induction 1 as [|db key t0 ttl data e Hdb IH Ht0]; intros tbl rk ts d.
  - by rewrite lookup_empty.
  - unfold insertChunk.
    destruct (Session c); cbn [negb]; [|apply IH].
    destruct (getTable c ttl) as [table|err]; [|apply IH].
    destruct e as [|err [|]]; cbn [fst]; try apply IH;
      (intros [[[= <- <- <-] _]|[_ H]]%lookup_insert_Some;
       [split; [done|by exists key] | by eapply IH]).
Qed.

Lemma rowKeys_loop_row_keys (fuel : nat) : forall (key : string) (month em : Z)
    (acc l : list string),
  rowKeys_loop fuel key month em acc = Some l ->
  Forall (fun rk => exists m, rk = row_key key m) acc ->
  Forall (fun rk => exists m, rk = row_key key m) l.
Proof.
  induction fuel as [|fuel IH]; intros key month em acc l; cbn [rowKeys_loop];
    [done|].
  destruct (month <=? em).
  - intros H Hacc. eapply IH; [exact H|].
    apply Forall_app. split; [done|]. repeat constructor. by exists month.
  - by intros [= ->].
Qed.

Lemma rowKeys_row_keys (fuel : nat) (key : string) (start end_ : Z)
    (l : list string) :
  rowKeys fuel key start end_ = Some l ->
  Forall (fun rk => exists m, rk = row_key key m) l.
Proof. intros H. eapply rowKeys_loop_row_keys; [exact H|constructor]. Qed.

Lemma NoDup_omap_fst {A B C : Type} (f : A -> option (B * C)) (l : list A) :
  NoDup l ->
  (forall x y b c c', x ∈ l -> y ∈ l ->
     f x = Some (b, c) -> f y = Some (b, c') -> x = y) ->
  NoDup (omap f l).*1.
Proof.
  induction 1 as [|x l Hx Hl IH]; intros Hinj; [constructor|].
  cbn [omap list_omap].
  assert (NoDup (omap f l).*1) as IH'.
  { apply IH. intros y z b c c' Hy Hz. apply Hinj; by right. }
  destruct (f x) as [[b c]|] eqn:Efx; [|done].
  cbn [fmap list_fmap fst]. constructor; [|done].
  intros Hb. apply list_elem_of_fmap in Hb as ([b' c'] & [= <-] & Hin).
  apply list_elem_of_omap in Hin as (y & Hy & Efy).
  assert (x = y) as -> by (eapply Hinj; [by left|by right|done..]).
  done.
Qed.

Section query.
Variables (c : CassandraStore) (db : database) (table key : string)
  (rowKeys : list string) (end_ : Z).
Hypothesis Hdb : written c db.
Hypothesis Hkeys : Forall (fun rk => exists m, rk = row_key key m) rowKeys.

Lemma selected_Some (e : (string * string * Z) * list Z) (ts : Z) (d : list Z) :
  selected table rowKeys end_ e = Some (ts, d) ->
  exists rk, e = ((table, rk, ts), d) /\ rk ∈ rowKeys.
Proof.
  destruct e as [[[tbl rk] ts'] d']. unfold selected.
  case_bool_decide as H; [|done]. intros [= -> ->].
  destruct H as (-> & Hrk & _). by exists rk.
Qed.

(** The selected rows have pairwise distinct timestamps, all [uint32]. *)
Lemma query_rows_NoDup : NoDup (query_rows db table rowKeys end_).*1.
Proof.
  unfold query_rows. apply NoDup_omap_fst; [apply NoDup_map_to_list|].
  intros x y ts d d' Hx Hy Ex Ey.
  apply selected_Some in Ex as (rk1 & -> & Hrk1).
  apply selected_Some in Ey as (rk2 & -> & Hrk2).
  apply elem_of_map_to_list in Hx, Hy.
  destruct (written_row_key c db Hdb _ _ _ _ Hx) as [_ [k1 E1]].
  destruct (written_row_key c db Hdb _ _ _ _ Hy) as [_ [k2 E2]].
  rewrite Forall_forall in Hkeys.
  destruct (Hkeys _ Hrk1) as [m1 F1]. destruct (Hkeys _ Hrk2) as [m2 F2].
  assert (k1 = key) as -> by (by eapply row_key_inj_key; rewrite <- E1, <- F1).
  assert (k2 = key) as -> by (by eapply row_key_inj_key; rewrite <- E2, <- F2).
  subst rk1 rk2. rewrite Hx in Hy. by injection Hy as ->.
Qed.

Lemma query_rows_uint32 : Forall is_uint32 (query_rows db table rowKeys end_).*1.
Proof.
  apply Forall_fmap, Forall_forall. intros [ts d] Hin.
  apply list_elem_of_omap in Hin as (e & He & Esel).
  apply selected_Some in Esel as (rk & -> & _).
  apply elem_of_map_to_list in He.
  by destruct (written_row_key c db Hdb _ _ _ _ He).
Qed.

End query.
End store_facts.

(** ** The scan and the sort *)

Section scan_facts.
Import go fmt cassandra.
Variable ChunkSpans : Z -> option Z.

Lemma NewGen_Ts (b : list Z) (ts : Z) (g : IterGen) :
  NewGen ChunkSpans b ts = inl g -> Ts g = ts.
Proof.
  unfold NewGen. repeat case_match; try done. by intros [= <-].
Qed.

(** A scan that ends without an error has made one generator per row, in
    the order of the rows, each with the timestamp of its row. *)
Lemma scanRows_Ts (rows : list (Z * list Z)) : forall acc g : list IterGen,
  scanRows ChunkSpans rows acc = (g, None) ->
  Ts <$> g = (Ts <$> acc) ++ ((fun r => uint32 r.1) <$> rows).
Proof.
  induction rows as [|[ts b] rows IH]; intros acc g; cbn [scanRows].
  - intros [= ->]. by rewrite app_nil_r.
  - destruct (length b <? 2)%nat; [done|].
    destruct (NewGen ChunkSpans b (uint32 ts)) as [itgen|err] eqn:E; [|done].
    intros H%IH. rewrite H, fmap_app, <- app_assoc. cbn.
    by rewrite (NewGen_Ts _ _ _ E).
Qed.

#[local] Instance IterGensAsc_total : Total IterGensAsc.
Proof. intros a b. unfold IterGensAsc. lia. Qed.

#[local] Instance IterGensAsc_trans : Transitive IterGensAsc.
Proof. intros a b d. unfold IterGensAsc. lia. Qed.

Lemma StronglySorted_le_lt (l : list Z) :
  StronglySorted Z.le l -> NoDup l -> StronglySorted Z.lt l.
Proof.
  induction 1 as [|x l Hl IH Hx]; intros Hnd; [constructor|].
  apply NoDup_cons in Hnd as [Hx' Hnd]. constructor; [by apply IH|].
  rewrite Forall_forall in *. intros y Hy.
  assert (x <> y) by (by intros ->). specialize (Hx y Hy). lia.
Qed.

(** Sorting generators with distinct timestamps puts them in strictly
    increasing order. *)
Lemma sortIterGensAsc_strict (itgens : list IterGen) :
  NoDup (Ts <$> itgens) ->
  StronglySorted Z.lt (Ts <$> sortIterGensAsc itgens).
Proof.
  intros Hnd. apply StronglySorted_le_lt.
  - apply (StronglySorted_fmap _ IterGensAsc); [by intros a b|].
    apply StronglySorted_merge_sort; apply _.
  - unfold sortIterGensAsc. by rewrite merge_sort_Permutation.
Qed.

Lemma uint32_id_fmap (l : list (Z * list Z)) :
  Forall is_uint32 l.*1 -> (fun r => uint32 r.1) <$> l = l.*1.
Proof.
  intros H. apply list_fmap_ext. intros i r Hr.
  apply uint32_small. rewrite Forall_fmap, Forall_lookup in H.
  by apply (H i r).
Qed.

(** When the delivered rows have distinct [uint32] timestamps, a search that
    gets through its scan without an error returns generators in strictly
    increasing order of [T0]. *)
Lemma scanResult_strict (i : Iter) (g : list IterGen) :
  (closeErr i = None -> NoDup (rows i).*1 /\ Forall is_uint32 (rows i).*1) ->
  scanResult ChunkSpans i = (g, None) ->
  StronglySorted Z.lt (Ts <$> g).
Proof.
  intros Hrows. unfold scanResult.
  destruct (scanRows ChunkSpans (rows i) []) as [itgens [err|]] eqn:E; [done|].
  destruct (closeErr i) as [err|].
  - case_bool_decide; [|done]. intros [= <-]. constructor.
  - intros [= <-]. destruct (Hrows eq_refl) as [Hnd Hu].
    apply sortIterGensAsc_strict.
    rewrite (scanRows_Ts _ _ _ E). cbn [fmap list_fmap app].
    by rewrite uint32_id_fmap.
Qed.

End scan_facts.

(** ** A search and its reader: the protocol *)

Section search_facts.
Import go fmt cassandra.
Variables (ChunkSpans : Z -> option Z) (c : CassandraStore) (db : database)
  (table key : string) (start end_ : Z).

Local Abbreviation step := (cassandra.step ChunkSpans db table key start end_).
Local Abbreviation reachable :=
  (cassandra.reachable ChunkSpans db table key start end_).

Lemma protocol_init (canceled : bool) : protocol (init canceled).
Proof. repeat split; (done || by left || intros; done). Qed.

Lemma protocol_step (s s' : state) : protocol s -> step s s' -> protocol s'.
Proof.
  intros (HA & HB & HC) Hstep.
  inversion Hstep; subst; clear Hstep; unfold protocol; cbn;
    repeat split; intros;
    repeat match goal with
           | H : _ \/ _ |- _ => destruct H
           | H : ex _ |- _ => destruct H
           | H : _ /\ _ |- _ => destruct H
           | H : search ?x = AtStart,
             HB : search ?x = AtStart \/ _ -> _ |- _ =>
               destruct (HB (or_introl H)) as (? & ? & ?); clear HB
           | H : search ?x = AtEnqueue ?ks,
             HB : _ \/ (exists ks, search ?x = AtEnqueue ks) -> _ |- _ =>
               destruct (HB (or_intror (ex_intro _ ks H))) as (? & ? & ?);
               clear HB
           | H : readQueue ?x = Some ?ks,
             HA : forall ks, readQueue ?x = Some ks -> _ |- _ =>
               destruct (HA ks H) as (? & ? & ?); clear HA
           | H : worker ?x = Aborted, HC : worker ?x = Aborted -> _ |- _ =>
               destruct (HC H) as (? & ? & ? & ?); clear HC
           end; simplify_eq/=; eauto; congruence.
Qed.

Lemma reachable_protocol (canceled : bool) (s : state) :
  reachable canceled s -> protocol s.
Proof.
  induction 1 as [|s s' _ IH Hstep];
    [apply protocol_init | by eapply protocol_step].
Qed.

(** The steps that take the request off the queue. *)
Lemma step_dequeue (s s' : state) (ks : list string) :
  step s s' -> readQueue s = Some ks -> readQueue s' = None ->
  if ctxDone s then worker s' = Aborted
  else worker s' = Omitted \/ worker s' = Executed.
Proof.
  intros Hstep Hq Hq'.
  inversion Hstep; subst; clear Hstep; cbn in *;
    repeat match goal with
           | H : ctxDone _ = _ |- _ => rewrite H
           end; eauto; congruence.
Qed.

(** Once a reader has aborted the request: what the search returns, that the
    request stays aborted, and that the search can go on. *)
Lemma aborted_search (canceled : bool) (s : state) :
  reachable canceled s -> worker s = Aborted ->
  (forall itgens err, search s = Returned itgens err -> itgens = [] /\ err = None)
  /\ (forall s', step s s' -> worker s' = Aborted)
  /\ (forall s', search_step ChunkSpans db table key start end_ s s' ->
                 search s' = Returned [] None)
  /\ (search s = AtResults ->
      exists s', search_step ChunkSpans db table key start end_ s s').
Proof.
  intros Hr Hw.
  destruct (reachable_protocol _ _ Hr) as (HA & HB & HC).
  destruct (HC Hw) as (Hctx & Hq & Hres & Hpc).
  split; [|split; [|split]].
  - intros itgens err Hret. destruct Hpc as [Hpc|Hpc]; split; congruence.
  - intros s' Hstep. inversion Hstep; subst; cbn; congruence.
  - intros s' [Hstep Hne].
    destruct Hpc as [Hpc|Hpc]; inversion Hstep; subst; cbn in *;
      try congruence.
    destruct Hres as [Hres|Hres]; [congruence|].
    assert (res = ResErr errCtxCanceled) as -> by congruence. done.
  - intros Hat. eexists. split; [by apply step_results_canceled|].
    cbn. congruence.
Qed.

End search_facts.

(** ** A search and its reader: the order of the results *)

Section order_facts.
Import go fmt cassandra.
Variables (ChunkSpans : Z -> option Z) (c : CassandraStore) (db : database)
  (table key : string) (start end_ : Z).
Hypothesis Hdb : written c db.

Local Abbreviation step := (cassandra.step ChunkSpans db table key start end_).
Local Abbreviation reachable :=
  (cassandra.reachable ChunkSpans db table key start end_).

Lemma received_strict (res : readResult) (g : list IterGen) :
  (forall i, res = ResIter i -> closeErr i = None ->
     NoDup (rows i).*1 /\ Forall is_uint32 (rows i).*1) ->
  received ChunkSpans res = (g, None) -> StronglySorted Z.lt (Ts <$> g).
Proof.
  intros Hres. destruct res as [i|err]; cbn [received].
  - apply scanResult_strict. by apply Hres.
  - case_bool_decide; [|done]. intros [= <-]. constructor.
Qed.

Lemma ordered_step (s s' : state) : ordered key s -> step s s' -> ordered key s'.
Proof.
  intros (H1 & H2 & H3 & H4) Hstep.
  inversion Hstep; subst; clear Hstep; unfold ordered; cbn;
    (split; [|split; [|split]]); intros; simplify_eq/=; eauto;
    try by constructor.
  - match goal with
    | Hk : rowKeys _ _ _ _ = Some _ |- _ => exact (rowKeys_row_keys _ _ _ _ _ Hk)
    end.
  - match goal with
    | Hp : closeErr ?i = None -> rows ?i ≡ₚ _, He : closeErr ?i = None |- _ =>
        rewrite (Hp He)
    end.
    match goal with
    | Hq : readQueue s = Some ?ks |- _ => pose proof (H2 ks Hq) as Hks
    end.
    split; [by eapply (query_rows_NoDup c) | by eapply (query_rows_uint32 c)].
  - destruct (received ChunkSpans res) as [g' e'] eqn:E. cbn in *. subst e'.
    eapply received_strict; [|exact E].
    intros i -> Hc. eauto.
Qed.

Lemma reachable_ordered (canceled : bool) (s : state) :
  reachable canceled s -> ordered key s.
Proof.
  induction 1 as [|s s' _ IH Hstep]; [|by eapply ordered_step].
  repeat split; intros; simplify_eq/=.
Qed.

End order_facts.

(** ** The two properties of a search *)

Section search_properties.
Import go cassandra.

(** C8: for every search over a database that [insertChunk] filled, in
    whatever order the scan delivers the rows, the generators that the
    search returns without an error are in strictly increasing order of
    [T0]. *)
Theorem C8_search_results_ordered (ChunkSpans : Z -> option Z)
    (c : CassandraStore) (db : database) (table key : string)
    (start end_ : Z) (canceled : bool) (s : state) (itgens : list IterGen) :
  written c db ->
  reachable ChunkSpans db table key start end_ canceled s ->
  search s = Returned itgens None ->
  StronglySorted Z.lt (Ts <$> itgens).
Proof.
  intros Hdb Hr Hs.
  destruct (reachable_ordered ChunkSpans c db table key start end_ Hdb _ _ Hr)
    as (_ & _ & _ & H).
  by apply H.
Qed.

Lemma C8_search_results_ordered_witness :
  StronglySorted Z.lt
    (Ts <$> [ {| Ts := 600; SpanOf := 600; B := [9] |};
              {| Ts := 1200; SpanOf := 600; B := [7] |} ]).
Proof.
  pose (i := {| rows := [(1200, [1; 3; 7]); (600, [1; 3; 9])];
                closeErr := None |}).
  pose (s1 := {| search := AtEnqueue ["foo_0"]; ctxDone := false;
                 readQueue := None; results := None;
                 worker := NotDequeued |}).
  pose (s2 := {| search := AtResults; ctxDone := false;
                 readQueue := Some ["foo_0"]; results := None;
                 worker := NotDequeued |}).
  pose (s3 := {| search := AtResults; ctxDone := false;
                 readQueue := None; results := Some (ResIter i);
                 worker := Executed |}).
  pose (s4 := {| search :=
                   Returned [ {| Ts := 600; SpanOf := 600; B := [9] |};
                              {| Ts := 1200; SpanOf := 600; B := [7] |} ] None;
                 ctxDone := false; readQueue := None; results := None;
                 worker := Executed |}).
  apply (C8_search_results_ordered scenario.spans scenario.store scenario.db
           "metric_1" "foo" 0 1800 false s4).
  - unfold scenario.db. repeat apply written_insert; try apply written_empty;
      unfold is_uint32; lia.
  - apply (reachable_step _ _ _ _ _ _ _ s3); [|exact
      (step_results scenario.spans scenario.db "metric_1" "foo" 0 1800
         s3 (ResIter i) eq_refl eq_refl)].
    apply (reachable_step _ _ _ _ _ _ _ s2); [|apply
      (step_worker_query scenario.spans scenario.db "metric_1" "foo" 0 1800
         s2 ["foo_0"] i eq_refl eq_refl); intros _; apply perm_swap].
    apply (reachable_step _ _ _ _ _ _ _ s1); [|exact
      (step_enqueue scenario.spans scenario.db "metric_1" "foo" 0 1800
         s1 ["foo_0"] eq_refl)].
    apply (reachable_step _ _ _ _ _ _ _ (init false)); [apply reachable_init|].
    exact (step_request scenario.spans scenario.db "metric_1" "foo" 0 1800
             (init false) 2 ["foo_0"] eq_refl eq_refl eq_refl).
  - reflexivity.
Defined.



End search_properties.

(* ================================================================== *)
(** * Further properties of the store and of the message types *)

(** ** The TTL tables *)

Section ttl_tables.
Import go fmt cassandra.

Lemma GetTTLTables_loop_None (ttls : list Z) (wf : Z) (nf : string) :
  forall acc : gmap Z ttlTable,
  GetTTLTables_loop ttls wf nf acc = None <-> ttls <> [] /\ uint32 wf = 0.
Proof.
  induction ttls as [|ttl ttls IH]; intros acc; cbn.
  - split; [done|]. by intros [? _].
  - unfold GetTTLTable at 1.
    destruct (Z.eqb_spec (uint32 wf) 0) as [H0|H0].
    + split; [done|]. done.
    + rewrite IH. split; [intros [_ ?]; done|]. intros [_ ?]; done.
Qed.

Lemma GetTTLTables_loop_lookup (ttls : list Z) (wf : Z) (nf : string) :
  forall (acc tables : gmap Z ttlTable) (ttl : Z),
  GetTTLTables_loop ttls wf nf acc = Some tables ->
  tables !! ttl
  = if bool_decide (ttl ∈ ttls) then GetTTLTable ttl wf nf else acc !! ttl.
Proof.
  induction ttls as [|t ttls IH]; intros acc tables ttl; cbn.
  - intros [= <-]. by rewrite bool_decide_eq_false_2 by apply not_elem_of_nil.
  - destruct (GetTTLTable t wf nf) as [e|] eqn:He; [|done].
    intros H. rewrite (IH _ _ ttl H).
    destruct (decide (ttl ∈ ttls)) as [Hin|Hin].
    + rewrite !bool_decide_eq_true_2; [done| |done]. by right.
    + rewrite (bool_decide_eq_false_2 _ Hin).
      destruct (decide (ttl = t)) as [->|Hne].
      * rewrite bool_decide_eq_true_2 by left. by rewrite lookup_insert_eq.
      * rewrite bool_decide_eq_false_2, lookup_insert_ne; [done|done|].
        rewrite elem_of_cons. intros [?|?]; done.
Qed.

Lemma formatter_GetTTLTables_loop_None
    (Sprintf : string -> list arg -> string) (ttls : list Z) (wf : Z)
    (nf : string) :
  forall acc : gmap Z ttlTable,
  formatter.GetTTLTables_loop Sprintf ttls wf nf acc = None
  <-> ttls <> [] /\ uint32 wf = 0.
Proof.
  induction ttls as [|ttl ttls IH]; intros acc; cbn.
  - split; [done|]. by intros [? _].
  - unfold formatter.GetTTLTable at 1.
    destruct (Z.eqb_spec (uint32 wf) 0) as [H0|H0].
    + split; [done|]. done.
    + rewrite IH. split; [intros [_ ?]; done|]. intros [_ ?]; done.
Qed.

Lemma formatter_GetTTLTables_loop_lookup
    (Sprintf : string -> list arg -> string) (ttls : list Z) (wf : Z)
    (nf : string) :
  forall (acc tables : gmap Z ttlTable) (ttl : Z),
  formatter.GetTTLTables_loop Sprintf ttls wf nf acc = Some tables ->
  tables !! ttl
  = if bool_decide (ttl ∈ ttls) then formatter.GetTTLTable Sprintf ttl wf nf
    else acc !! ttl.
Proof.
  induction ttls as [|t ttls IH]; intros acc tables ttl; cbn.
  - intros [= <-]. by rewrite bool_decide_eq_false_2 by apply not_elem_of_nil.
  - destruct (formatter.GetTTLTable Sprintf t wf nf) as [e|] eqn:He; [|done].
    intros H. rewrite (IH _ _ ttl H).
    destruct (decide (ttl ∈ ttls)) as [Hin|Hin].
    + rewrite !bool_decide_eq_true_2; [done| |done]. by right.
    + rewrite (bool_decide_eq_false_2 _ Hin).
      destruct (decide (ttl = t)) as [->|Hne].
      * rewrite bool_decide_eq_true_2 by left. by rewrite lookup_insert_eq.
      * rewrite bool_decide_eq_false_2, lookup_insert_ne; [done|done|].
        rewrite elem_of_cons. intros [?|?]; done.
Qed.

Lemma GetTTLTables_formatter (ttls : list Z) (wf : Z) (nf : string) :
  GetTTLTables ttls wf nf = formatter.GetTTLTables fmt.Sprintf ttls wf nf.
Proof. reflexivity. Qed.

(** X1: [GetTTLTables] panics exactly when there is a TTL to route and the
    window factor converts to 0; otherwise, on a store with the tables it
    returns, [getTable] answers the router's table name, what [fmt.Sprintf]
    prints for the name format and the pre-factor of the TTL, for every TTL
    of the list and [errTableNotFound] for every other TTL.  This holds for
    every name format, whatever [fmt.Sprintf] prints for it; with the default
    format the name is [metric_] followed by the pre-factor in decimal. *)
Theorem getTable_GetTTLTables (Sprintf : string -> list arg -> string)
    (ttls : list Z) (windowFactor : Z) (nameFormat : string) :
  (formatter.GetTTLTables Sprintf ttls windowFactor nameFormat = None
   <-> ttls <> [] /\ uint32 windowFactor = 0)
  /\ (forall (tables : gmap Z ttlTable) (session : bool) (ttl : Z),
        formatter.GetTTLTables Sprintf ttls windowFactor nameFormat
        = Some tables ->
        getTable {| Session := session; ttlTables := tables |} ttl
        = if bool_decide (ttl ∈ ttls)
          then inl (Sprintf nameFormat [ArgUint32 (preFactorWindow ttl)])
          else inr errTableNotFound)
  /\ (forall (tables : gmap Z ttlTable) (session : bool) (ttl : Z),
        GetTTLTables ttls windowFactor Table_name_format = Some tables ->
        getTable {| Session := session; ttlTables := tables |} ttl
        = if bool_decide (ttl ∈ ttls)
          then inl ("metric_" +:+ decimal (preFactorWindow ttl))
          else inr errTableNotFound).
Proof.
  assert (forall (S : string -> list arg -> string) (nf : string)
            (tables : gmap Z ttlTable) (session : bool) (ttl : Z),
            formatter.GetTTLTables S ttls windowFactor nf = Some tables ->
            getTable {| Session := session; ttlTables := tables |} ttl
            = if bool_decide (ttl ∈ ttls)
              then inl (S nf [ArgUint32 (preFactorWindow ttl)])
              else inr errTableNotFound) as Hget.
  { intros S nf tables session ttl H. unfold getTable. cbn.
    rewrite (formatter_GetTTLTables_loop_lookup _ _ _ _ _ _ ttl H).
    case_bool_decide as Hin; [|by rewrite lookup_empty].
    destruct (Z.eqb_spec (uint32 windowFactor) 0) as [H0|H0].
    - assert (formatter.GetTTLTables S ttls windowFactor nf = None) as HN.
      { apply formatter_GetTTLTables_loop_None. split; [|done]. intros ->.
        by apply elem_of_nil in Hin. }
      congruence.
    - by rewrite formatter_GetTTLTable_Some. }
  split; [apply formatter_GetTTLTables_loop_None|]. split; [apply Hget|].
  intros tables session ttl H. rewrite GetTTLTables_formatter in H.
  rewrite (Hget _ _ _ session ttl H). case_bool_decide; [|done].
  cbn. by rewrite append_empty_r.
Qed.

Lemma GetTableNames_eq (range : list (Z * ttlTable)) :
  GetTableNames range = (fun e => Table e.2) <$> range.
Proof.
  unfold GetTableNames.
  enough (forall acc, foldl (fun names e => names ++ [Table e.2]) acc range
                      = acc ++ ((fun e => Table e.2) <$> range)) as H by apply H.
  induction range as [|e range IH]; intros acc; cbn.
  - by rewrite app_nil_r.
  - by rewrite IH, <- app_assoc.
Qed.

(** X2: whatever the order of the loop over the map, [GetTableNames] lists
    one name for each TTL of the store (a table shared by two TTLs is listed
    twice), and the names listed are the names [getTable] can answer. *)
Theorem GetTableNames_getTable (c : CassandraStore) (range : list (Z * ttlTable)) :
  range ≡ₚ map_to_list (ttlTables c) ->
  length (GetTableNames range) = size (ttlTables c)
  /\ (forall name : string,
        name ∈ GetTableNames range <-> exists ttl, getTable c ttl = inl name).
Proof.
  intros Hr. rewrite GetTableNames_eq. split.
  - by rewrite length_fmap, Hr, length_map_to_list.
  - intros name. rewrite list_elem_of_fmap. split.
    + intros ([ttl e] & -> & Hin). exists ttl. rewrite Hr in Hin.
      apply elem_of_map_to_list in Hin. unfold getTable. by rewrite Hin.
    + intros [ttl H]. unfold getTable in H.
      destruct (ttlTables c !! ttl) as [e|] eqn:He; [|done].
      exists (ttl, e). split; [by injection H|].
      rewrite Hr. by apply elem_of_map_to_list.
Qed.

Lemma GetTableNames_getTable_witness :
  length (GetTableNames [(3600, {| Table := "metric_1"; WindowSize := 1 |})])
  = size (ttlTables scenario.store)
  /\ (forall name : string,
        name ∈ GetTableNames [(3600, {| Table := "metric_1"; WindowSize := 1 |})]
        <-> exists ttl, getTable scenario.store ttl = inl name).
Proof.
  apply (GetTableNames_getTable scenario.store).
  unfold scenario.store. cbn [ttlTables]. by rewrite map_to_list_singleton.
Defined.

End ttl_tables.

(** ** The writer on a store *)

Section writer_store.
Import go fmt cassandra.
Variables (RevChunkSpans : Z -> option Z) (c : CassandraStore)
  (cwr : ChunkWriteRequest) (buf : list Z).

(** The cell of the request in [table]. *)
Local Abbreviation cell table := (table, row_key (Key cwr) (T0 cwr), T0 cwr).

Lemma insertChunks_saves (table : string) (fails : list (error * bool))
    (rest : list exec) :
  Session c = true -> getTable c (TTL cwr) = inl table ->
  forall db : database,
  insertChunks c db cwr buf
    (((fun f => ExecFailed f.1 f.2) <$> fails) ++ ExecOk :: rest)
  = (<[cell table := buf]> db, (Some <$> fails.*1) ++ [None]).
Proof.
  intros Hs Ht. induction fails as [|[err w] fails IH]; intros db; cbn.
  - unfold insertChunk. by rewrite Hs, Ht.
  - unfold insertChunk at 1. rewrite Hs, Ht. cbn. rewrite IH.
    destruct w; [|done]. by rewrite insert_insert_eq.
Qed.

Lemma insertChunks_no_table (err : error) (execs : list exec) :
  Session c = true -> getTable c (TTL cwr) = inr err ->
  forall db : database,
  insertChunks c db cwr buf execs = (db, replicate (length execs) (Some err)).
Proof.
  intros Hs Ht. induction execs as [|e execs IH]; intros db; cbn; [done|].
  unfold insertChunk at 1. rewrite Hs, Ht. cbn. by rewrite IH.
Qed.

Lemma insertChunk_cases (db : database) (e : exec) :
  (insertChunk c db (Key cwr) (T0 cwr) (TTL cwr) buf e).1 = db
  \/ exists table, getTable c (TTL cwr) = inl table
       /\ (insertChunk c db (Key cwr) (T0 cwr) (TTL cwr) buf e).1
          = <[cell table := buf]> db.
Proof.
  unfold insertChunk. destruct (Session c); cbn; [|by left].
  destruct (getTable c (TTL cwr)) as [table|err]; [|by left].
  destruct e as [|err [|]]; cbn; eauto.
Qed.

Lemma insertChunks_other (execs : list exec) :
  forall (db : database) (k : string * string * Z),
  (insertChunks c db cwr buf execs).1 !! k = db !! k
  \/ exists table, getTable c (TTL cwr) = inl table /\ k = cell table
       /\ (insertChunks c db cwr buf execs).1 !! k = Some buf.
Proof.
  induction execs as [|e execs IH]; intros db k; cbn; [by left|].
  pose proof (insertChunk_cases db e) as Hc.
  destruct (insertChunk c db (Key cwr) (T0 cwr) (TTL cwr) buf e)
    as [db' [err|]] eqn:Hi; cbn in Hc.
  - specialize (IH db' k).
    destruct (insertChunks c db' cwr buf execs) as [db'' errs]. cbn in *.
    destruct IH as [IH|IH]; [|by right].
    rewrite IH. destruct Hc as [->|(table & Ht & ->)]; [by left|].
    destruct (decide (k = cell table)) as [->|Hne].
    + right. exists table. by rewrite lookup_insert_eq.
    + left. by rewrite lookup_insert_ne.
  - cbn. destruct Hc as [->|(table & Ht & ->)]; [by left|].
    destruct (decide (k = cell table)) as [->|Hne].
    + right. exists table. by rewrite lookup_insert_eq.
    + left. by rewrite lookup_insert_ne.
Qed.

Lemma insertLoop_fail_trace (n : nat) (err : error) : forall attempts : Z,
  let run := insertLoop cwr buf (replicate n (Some err)) attempts in
  run.2 = false /\ insertsOk run.1 = [] /\ syncs run.1 = []
  /\ insertsFailed run.1 = replicate n (Key cwr, T0 cwr, TTL cwr, buf).
Proof.
  induction n as [|n IH]; intros attempts; cbn; [done|].
  specialize (IH (int (attempts + 1))). cbn in IH.
  destruct (insertLoop cwr buf (replicate n (Some err)) (int (attempts + 1)))
    as [events success]. cbn in *.
  destruct IH as (-> & Hok & Hsync & Hfail).
  unfold insertsOk, syncs, insertsFailed in *.
  cbn [omap list_omap]. rewrite !omap_app, !omap_warn by done.
  cbn [omap list_omap app]. by rewrite Hok, Hsync, Hfail.
Qed.

End writer_store.

Section writer_store_properties.
Import go fmt cassandra.

(** X3: on a store with a session and a table for the request's TTL, a
    request with a registered span that meets any failures of [Exec] and
    then a success leaves the database with the frame
    [format, spanCode, series] in the cell of the chunk (table, row key,
    [T0]) and nothing else changed, whether or not the failed attempts had
    written the row: the retries are idempotent.  The loop ends with
    success, one successful insert and one [SyncChunkSaveState(T0)]. *)
Theorem writeChunk_saves (RevChunkSpans : Z -> option Z) (c : CassandraStore)
    (db : database) (cwr : ChunkWriteRequest) (table : string) (spanCode : Z)
    (fails : list (error * bool)) (rest : list exec) :
  Session c = true ->
  getTable c (TTL cwr) = inl table ->
  RevChunkSpans (Span cwr) = Some spanCode ->
  let buf := FormatStandardGoTszWithSpan :: spanCode :: Series cwr in
  exists events : list event,
    writeChunk RevChunkSpans c db cwr
      (((fun f => ExecFailed f.1 f.2) <$> fails) ++ ExecOk :: rest)
    = Some (<[(table, row_key (Key cwr) (T0 cwr), T0 cwr) := buf]> db,
            (events, true))
    /\ insertsOk events = [(Key cwr, T0 cwr, TTL cwr, buf)]
    /\ syncs events = [T0 cwr]
    /\ insertsFailed events
       = replicate (length fails) (Key cwr, T0 cwr, TTL cwr, buf).
Proof.
  intros Hs Ht Hspan buf. unfold writeChunk, PrepareChunkData.
  rewrite Hspan. fold buf.
  rewrite (insertChunks_saves c cwr buf table fails rest Hs Ht).
  destruct (insertLoop_retries cwr buf fails.*1 [] 0)
    as (Hsucc & Hok & Hsync & Hfail & _).
  change (int (Z.of_nat 0)) with 0 in *.
  destruct (insertLoop cwr buf ((Some <$> fails.*1) ++ [None]) 0)
    as [events success]. cbn in *. subst success.
  exists events. by rewrite length_fmap in Hfail.
Qed.

Lemma writeChunk_saves_witness :
  exists events : list event,
    writeChunk scenario.revSpans scenario.store ∅ scenario.request
      [ExecFailed (errDriver "timeout") true; ExecOk]
    = Some (<[("metric_1", "foo_0", 1200) := [1; 3; 7]]> ∅, (events, true))
    /\ syncs events = [1200].
Proof.
  destruct (writeChunk_saves scenario.revSpans scenario.store ∅
              scenario.request "metric_1" 3 [(errDriver "timeout", true)] []
              eq_refl eq_refl eq_refl)
    as (events & Hrun & _ & Hsync & _).
  exists events. split; [exact Hrun|exact Hsync].
Defined.



(** X5: the worker panics (in [PrepareChunkData]) exactly when the span of
    the request is not registered, before any insert; otherwise, whatever
    [Exec] does, the only cell of the database it can change is the one of
    the request's chunk, and if that cell changed it holds the prepared
    frame. *)
Theorem writeChunk_own_cell (RevChunkSpans : Z -> option Z)
    (c : CassandraStore) (db : database) (cwr : ChunkWriteRequest)
    (execs : list exec) :
  (writeChunk RevChunkSpans c db cwr execs = None
   <-> RevChunkSpans (Span cwr) = None)
  /\ (forall (db' : database) (run : list event * bool)
        (k : string * string * Z),
        writeChunk RevChunkSpans c db cwr execs = Some (db', run) ->
        db' !! k = db !! k
        \/ exists table spanCode,
             getTable c (TTL cwr) = inl table
             /\ RevChunkSpans (Span cwr) = Some spanCode
             /\ k = (table, row_key (Key cwr) (T0 cwr), T0 cwr)
             /\ db' !! k
                = Some (FormatStandardGoTszWithSpan :: spanCode :: Series cwr)).
Proof.
  unfold writeChunk, PrepareChunkData.
  destruct (RevChunkSpans (Span cwr)) as [spanCode|]; cbn.
  - set (buf := FormatStandardGoTszWithSpan :: spanCode :: Series cwr).
    pose proof (insertChunks_other c cwr buf execs db) as H.
    destruct (insertChunks c db cwr buf execs) as [db'' results]. cbn in H.
    split; [done|]. intros db' run k [= <- <-].
    destruct (H k) as [Hk|(table & Ht & -> & Hk)]; [by left|].
    right. by exists table, spanCode.
  - split; [done|]. done.
Qed.

Lemma Add_sum_exact (key : list Z) : forall sum : Z,
  Forall (fun b => 0 <= b < 256) key ->
  0 <= sum -> sum + 256 * Z.of_nat (length key) < 2 ^ 63 ->
  foldl (fun sum b => int (sum + int b)) sum key = sum + foldr Z.add 0 key
  /\ 0 <= foldr Z.add 0 key <= 255 * Z.of_nat (length key).
Proof.
  induction key as [|b key IH]; intros sum Hb Hs Hlen; cbn [foldl foldr length].
  - split; lia.
  - apply Forall_cons in Hb as [Hb Hkey].
    cbn [length] in Hlen. rewrite Nat2Z.inj_succ in Hlen.
    rewrite (int_small b) by (unfold is_int; lia).
    rewrite (int_small (sum + b)) by (unfold is_int; lia).
    destruct (IH (sum + b) Hkey) as [-> Hr]; [lia|lia|].
    rewrite Nat2Z.inj_succ. split; lia.
Qed.

(** X6: for an organisation id in [uint32] and key bytes, [Add] panics when
    the store has no write queue and otherwise sends the request to queue
    [(org + sum of the key bytes) mod queues], an index within the queues:
    requests of one metric key always go to the same queue. *)
Theorem Add_in_range (org : Z) (key : list Z) (queues : Z) :
  is_uint32 org ->
  Forall (fun b => 0 <= b < 256) key ->
  Z.of_nat (length key) < 2 ^ 32 ->
  0 <= queues ->
  Add org key queues
  = (if queues =? 0 then None
     else Some ((org + foldr Z.add 0 key) mod queues))
  /\ (forall which, Add org key queues = Some which -> 0 <= which < queues).
Proof.
  intros Ho Hkey Hlen Hq. unfold Add, Add_sum.
  destruct (Z.eqb_spec queues 0) as [->|Hq0]; [done|].
  unfold is_uint32 in Ho.
  rewrite (int_small org) by (unfold is_int; lia).
  destruct (Add_sum_exact key org Hkey) as [-> Hsum]; [lia|lia|].
  rewrite Z.rem_mod_nonneg by lia.
  pose proof (Z.mod_pos_bound (org + foldr Z.add 0 key) queues) as Hm.
  destruct (Z.leb_spec 0 ((org + foldr Z.add 0 key) mod queues)); [|lia].
  destruct (Z.ltb_spec ((org + foldr Z.add 0 key) mod queues) queues); [|lia].
  cbn. split; [done|]. intros which [= <-]. lia.
Qed.

Lemma Add_in_range_witness :
  Add 1 [1; 2; 3] 4 = Some 3
  /\ (forall which, Add 1 [1; 2; 3] 4 = Some which -> 0 <= which < 4).
Proof.
  apply (Add_in_range 1 [1; 2; 3] 4); unfold is_uint32; cbn;
    repeat constructor; lia.
Defined.

End writer_store_properties.

(** ** The window of a search *)

Section search_window.
Import go fmt cassandra.

Lemma rowKeys_loop_mono (fuel : nat) : forall (key : string) (month em : Z)
    (acc l : list string) (k : nat),
  rowKeys_loop fuel key month em acc = Some l ->
  rowKeys_loop (fuel + k) key month em acc = Some l.
Proof.
  induction fuel as [|fuel IH]; intros key month em acc l k; cbn; [done|].
  destruct (month <=? em); [apply IH|done].
Qed.

(** Without wrap-around the row keys of a search are those of the months
    from the one of [start] to the one of [end - 1]. *)
Lemma rowKeys_months (fuel : nat) (key : string) (start end_ : Z)
    (ks : list string) :
  0 <= start -> start < end_ -> end_ - 1 < 1775 * Month_sec ->
  rowKeys fuel key start end_ = Some ks ->
  forall rk : string,
  rk ∈ ks <->
  exists q, start / Month_sec <= q <= (end_ - 1) / Month_sec
            /\ rk = row_key key (q * Month_sec).
Proof.
  intros Hs Hlt Hend Hks.
  set (sm := start - start mod Month_sec).
  set (em := (end_ - 1) - (end_ - 1) mod Month_sec).
  set (n := Z.to_nat ((em - sm) / Month_sec + 1)).
  assert (0 < Month_sec) as HM by done.
  pose proof (Z.mod_pos_bound start Month_sec HM) as Hrs.
  pose proof (Z.mod_pos_bound (end_ - 1) Month_sec HM) as Hre.
  pose proof (Z.mod_le start Month_sec Hs HM) as Hrs'.
  pose proof (Z.mod_le (end_ - 1) Month_sec ltac:(lia) HM) as Hre'.
  assert (1775 * Month_sec < 2 ^ 32) as Hmax by reflexivity.
  assert (start_month start = sm) as Esm.
  { unfold start_month, uint32. apply Z.mod_small. unfold sm. lia. }
  assert (end_month end_ = em) as Eem.
  { unfold end_month, uint32. rewrite (Z.mod_small (end_ - 1)) by lia.
    apply Z.mod_small. unfold em. lia. }
  assert (sm = Month_sec * (start / Month_sec)) as Hsm
    by (unfold sm; rewrite Z.mod_eq; lia).
  assert (em = Month_sec * ((end_ - 1) / Month_sec)) as Hem
    by (unfold em; rewrite Z.mod_eq; lia).
  assert (start / Month_sec <= (end_ - 1) / Month_sec) as Hq
    by (apply Z.div_le_mono; lia).
  assert (0 <= start / Month_sec) as Hq0 by (apply Z.div_pos; lia).
  assert ((end_ - 1) / Month_sec < 1775) as Hlast
    by (apply Z.div_lt_upper_bound; lia).
  assert ((em - sm) / Month_sec
          = (end_ - 1) / Month_sec - start / Month_sec) as Hd.
  { rewrite Hsm, Hem, <- Z.mul_sub_distr_l, Z.mul_comm.
    apply Z.div_mul. lia. }
  assert (Z.of_nat n = (end_ - 1) / Month_sec - start / Month_sec + 1) as Hn
    by (unfold n; rewrite Hd; lia).
  assert (em + Month_sec <= 1775 * Month_sec) as Hroom by nia.
  unfold rowKeys in Hks. rewrite Esm, Eem in Hks.
  apply (rowKeys_loop_mono _ _ _ _ _ _ (S n)) in Hks.
  rewrite (rowKeys_loop_run n) in Hks by lia.
  injection Hks as <-. cbn [app].
  intros rk. rewrite list_elem_of_fmap. split.
  - intros (i & -> & Hi). apply elem_of_seq in Hi.
    exists (start / Month_sec + Z.of_nat i). split; [lia|].
    rewrite Hsm. f_equal. ring.
  - intros (q & Hq' & ->).
    exists (Z.to_nat (q - start / Month_sec)). split.
    + rewrite Hsm, Z2Nat.id by lia. f_equal. ring.
    + apply elem_of_seq. lia.
Qed.

(** The rows a search selects: the chunks of the key in the table from
    the month of [start] on and before [end]; among them the chunk that
    holds [start], for a span that divides the month. *)
Lemma query_rows_window (c : CassandraStore) (db : database)
    (table key : string) (start end_ : Z) (fuel : nat) (ks : list string) :
  written c db ->
  0 <= start -> start < end_ -> end_ - 1 < 1775 * Month_sec ->
  rowKeys fuel key start end_ = Some ks ->
  (forall (ts : Z) (data : list Z),
     (ts, data) ∈ query_rows db table ks end_
     <-> db !! (table, row_key key ts, ts) = Some data
         /\ start - start mod Month_sec <= ts < end_)
  /\ (forall (span : Z) (data : list Z),
        0 < span -> Month_sec mod span = 0 ->
        let t0 := start - start mod span in
        db !! (table, row_key key t0, t0) = Some data ->
        (t0, data) ∈ query_rows db table ks end_).
Proof.
  intros Hdb Hs Hlt Hend Hks.
  pose proof (rowKeys_months fuel key start end_ ks Hs Hlt Hend Hks) as Hin.
  assert (0 < Month_sec) as HM by done.
  assert (forall ts data,
            (ts, data) ∈ query_rows db table ks end_
            <-> db !! (table, row_key key ts, ts) = Some data
                /\ start - start mod Month_sec <= ts < end_) as Hw.
  { intros ts data. unfold query_rows. rewrite list_elem_of_omap. split.
    - intros ([[[tbl rk] ts'] d] & He & Hsel).
      apply elem_of_map_to_list in He.
      unfold selected in Hsel. case_bool_decide as Hb; [|done].
      injection Hsel as -> ->. destruct Hb as (-> & Hrk & Hts).
      destruct (written_row_key c db Hdb _ _ _ _ He) as [Hu [k Hk]].
      apply Hin in Hrk as (q & Hq & Hrk).
      rewrite Hk in Hrk. apply row_key_inj_key in Hrk as [-> Hdiv].
      rewrite Z.div_mul in Hdiv by lia. subst q.
      split; [by rewrite <- Hk|].
      split; [|done].
      rewrite Z.mod_eq by lia.
      pose proof (Z.mul_div_le ts Month_sec HM). nia.
    - intros [Hdbk [Hlo Hhi]].
      exists ((table, row_key key ts, ts), data). split.
      + by apply elem_of_map_to_list.
      + unfold selected. rewrite bool_decide_eq_true_2; [done|].
        split; [done|]. split; [|done].
        apply Hin. exists (ts / Month_sec). split.
        * split.
          -- apply Z.div_le_lower_bound; [lia|].
             rewrite Z.mod_eq in Hlo by lia. lia.
          -- apply Z.div_le_mono; lia.
        * apply row_key_inj. by rewrite Z.div_mul by lia. }
  split; [exact Hw|].
  intros span data Hspan Hdiv t0 Hcell. apply Hw. split; [done|].
  pose proof (Z.mod_pos_bound start span Hspan) as Hr.
  split; [|unfold t0; lia].
  unfold t0.
  assert (start mod span = (start mod Month_sec) mod span) as ->.
  { symmetry. apply Z.mod_mod_divide. by apply Z.mod_divide; [lia|]. }
  pose proof (Z.mod_pos_bound start Month_sec HM) as Hrm.
  pose proof (Z.mod_le (start mod Month_sec) span ltac:(lia) Hspan). lia.
Qed.

(** X7: on a database that [insertChunk] filled, and for a range without
    wrap-around, the query of a search ([key IN rowKeys AND ts < end] with
    the row keys of [SearchTable]) selects exactly the chunks of the key in
    the table whose [t0] is at or after the start of the month of [start] and
    before [end].  So it selects every chunk with [start <= t0 < end], and,
    when the chunk span divides [Month_sec], the chunk that holds [start]
    (the one at [start - start mod span]), which is in the row of the month
    of [start]. *)
Theorem search_window (c : CassandraStore) (db : database)
    (table key : string) (start end_ : Z) (fuel : nat) (ks : list string) :
  written c db ->
  0 <= start -> start < end_ -> end_ - 1 < 1775 * Month_sec ->
  rowKeys fuel key start end_ = Some ks ->
  (forall (ts : Z) (data : list Z),
     (ts, data) ∈ query_rows db table ks end_
     <-> db !! (table, row_key key ts, ts) = Some data
         /\ start - start mod Month_sec <= ts < end_)
  /\ (forall (span : Z) (data : list Z),
        0 < span -> Month_sec mod span = 0 ->
        let t0 := start - start mod span in
        db !! (table, row_key key t0, t0) = Some data ->
        (t0, data) ∈ query_rows db table ks end_).
Proof. apply query_rows_window. Qed.

Lemma scenario_written : written scenario.store scenario.db.
Proof.
  unfold scenario.db. repeat apply written_insert; try apply written_empty;
    unfold is_uint32; lia.
Qed.

Lemma search_window_witness :
  (600, [1; 3; 9]) ∈ query_rows scenario.db "metric_1" ["foo_0"] 1800.
Proof.
  destruct (search_window scenario.store scenario.db "metric_1" "foo" 700 1800
              2 ["foo_0"]) as [_ Hspan];
    [apply scenario_written | lia | lia | vm_compute; reflexivity
    | reflexivity |].
  apply (Hspan 600 [1; 3; 9]); [lia | reflexivity | vm_compute; reflexivity].
Defined.

End search_window.

(** ** The outcomes of a search *)

Section outcome_facts.
Import go fmt cassandra.
Variables (ChunkSpans : Z -> option Z) (db : database)
  (table key : string) (start end_ : Z).

Local Abbreviation step := (cassandra.step ChunkSpans db table key start end_).
Local Abbreviation reachable :=
  (cassandra.reachable ChunkSpans db table key start end_).
Local Abbreviation outcome :=
  (cassandra.outcome ChunkSpans db table key start end_).
Local Abbreviation verdict :=
  (cassandra.verdict ChunkSpans db table key start end_).

Lemma verdict_received (s : state) (res : readResult) :
  answer db table key start end_ (worker s) res ->
  readQueue s = None ->
  forall s', worker s' = worker s -> readQueue s' = readQueue s ->
  verdict s' (received ChunkSpans res).1 (received ChunkSpans res).2.
Proof.
  intros Ha Hq s' Hw Hq'. unfold answer in Ha.
  destruct (worker s) eqn:Ew.
  - done.
  - subst res. by left.
  - subst res. cbn. right. right. left. by rewrite Hw.
  - destruct Ha as (ks & i & -> & Hsel). cbn [received].
    destruct (scanResult ChunkSpans i) as [g [e|]] eqn:E; cbn.
    + right. right. right. rewrite Hw. eauto 10.
    + unfold scanResult in E.
      destruct (scanRows ChunkSpans (rows i) []) as [g' [e'|]] eqn:Es; [done|].
      destruct (closeErr i) as [ce|] eqn:Ec.
      * case_bool_decide; [|done]. injection E as <-. by left.
      * right. rewrite Hw. split; [done|]. exists ks, i.
        split; [done|]. split; [done|]. unfold scanResult.
        by rewrite Es, Ec.
Qed.

Lemma outcome_step (s s' : state) :
  protocol s -> outcome s -> step s s' -> outcome s'.
Proof.
  intros (HA & HB & HC) (H1 & H2 & H3) Hstep.
  inversion Hstep; subst; clear Hstep.
  all: unfold cassandra.outcome; cbn; (split; [|split]).
  all: try (intros; simplify_eq/=; eauto; fail).
  all: try (intros ks [Hk|Hk]; simplify_eq/=; eauto; fail).
  - (* invalid range *)
    intros g e Hret; injection Hret as <- <-. cbn. left.
    destruct (HB (or_introl H)) as (? & ? & ?). done.
  - (* queue full *)
    intros g e Hret; injection Hret as <- <-. cbn. right. left.
    destruct (HB (or_intror (ex_intro _ _ H))) as (? & ? & ?).
    destruct (H1 rowKeys0 (or_introl H)) as [? _]. done.
  - (* the reader aborts *)
    intros g e Hret. destruct (HA _ H) as (Hw & _ & [Hs|Hs]); [congruence|].
    rewrite Hs in Hret. injection Hret as <- <-. by left.
  - (* the reader omits *)
    intros g e Hret. destruct (HA _ H) as (Hw & _ & [Hs|Hs]); [congruence|].
    rewrite Hs in Hret. injection Hret as <- <-. by left.
  - (* the reader runs the query *)
    intros res Hres; injection Hres as <-. exists rowKeys0, i. split; [done|].
    destruct (H1 rowKeys0 (or_intror H)) as [? Hf]. by split.
  - intros g e Hret. destruct (HA _ H) as (Hw & _ & [Hs|Hs]); [congruence|].
    rewrite Hs in Hret. injection Hret as <- <-. by left.
  - (* the search takes the answer *)
    intros g e Hret; injection Hret as <- <-.
    destruct (readQueue s) as [ks|] eqn:Hq.
    { destruct (HA _ eq_refl) as (_ & ? & _). congruence. }
    eapply (verdict_received s); cbn; eauto.
Qed.

Lemma reachable_outcome (canceled : bool) (s : state) :
  reachable canceled s -> outcome s.
Proof.
  induction 1 as [|s s' Hr IH Hstep].
  - repeat split; intros; simplify_eq/=. all: by destruct H.
  - eapply outcome_step; [|done..].
    by eapply (reachable_protocol ChunkSpans db table key start end_).
Qed.

End outcome_facts.

Section search_outcomes.
Import go fmt cassandra.
Variables (ChunkSpans : Z -> option Z) (db : database)
  (table key : string) (start end_ : Z).

(** X8: a search with [start >= end] never reaches the store: in every
    state of the search the read queue is empty, no answer is pending and no
    reader has handled a request, and the only return is
    [errInvalidRange] with no generators, whether or not the context is
    canceled. *)
Theorem SearchTable_invalid_range (canceled : bool) (s : state) :
  end_ <= start ->
  cassandra.reachable ChunkSpans db table key start end_ canceled s ->
  (search s = AtStart \/ search s = Returned [] (Some errInvalidRange))
  /\ readQueue s = None /\ results s = None /\ worker s = NotDequeued.
Proof.
  intros Hr. induction 1 as [|s s' _ IH Hstep]; [by split; [left|]|].
  destruct IH as (Hs & Hq & Hres & Hw).
  inversion Hstep; subst; cbn; repeat split; try done;
    destruct Hs; try congruence; try lia; eauto.
Qed.

(** X9: the errors of [SearchTable].  A search that returns an error
    returns [errInvalidRange] (the range is empty; nothing was queued),
    [errReadQueueFull] (nothing was queued), [errReadTooOld] (a reader
    omitted the request; no query ran), or the error of the scan or of
    [Close] of the query a reader ran; in the first three cases it returns
    no generators. *)
Theorem SearchTable_errors (canceled : bool) (s : state)
    (itgens : list IterGen) (err : error) :
  cassandra.reachable ChunkSpans db table key start end_ canceled s ->
  search s = Returned itgens (Some err) ->
  (err = errInvalidRange /\ end_ <= start /\ itgens = []
   /\ worker s = NotDequeued /\ readQueue s = None)
  \/ (err = errReadQueueFull /\ start < end_ /\ itgens = []
      /\ worker s = NotDequeued /\ readQueue s = None)
  \/ (err = errReadTooOld /\ itgens = [] /\ worker s = Omitted)
  \/ (worker s = Executed
      /\ exists ks i,
           (exists fuel, rowKeys fuel key start end_ = Some ks)
           /\ (closeErr i = None -> rows i ≡ₚ query_rows db table ks end_)
           /\ scanResult ChunkSpans i = (itgens, Some err)).
Proof.
  intros Hr Hs.
  destruct (reachable_outcome _ _ _ _ _ _ _ _ Hr) as (_ & _ & H3).
  specialize (H3 _ _ Hs). cbn in H3. unfold selection in H3.
  destruct H3 as [?|[?|[?|(? & ks & i & (? & ? & ?) & ?)]]]; eauto 10.
Qed.

Lemma scanRows_gens (rows : list (Z * list Z)) : forall acc g : list IterGen,
  scanRows ChunkSpans rows acc = (g, None) ->
  exists gs, g = acc ++ gs
    /\ Forall2 (fun r gen => NewGen ChunkSpans r.2 (uint32 r.1) = inl gen)
         rows gs.
Proof.
  induction rows as [|[ts b] rows IH]; intros acc g; cbn [scanRows].
  - intros [= <-]. exists []. by rewrite app_nil_r.
  - destruct (length b <? 2)%nat; [intros ?; simplify_eq|].
    destruct (NewGen ChunkSpans b (uint32 ts)) as [gen|e] eqn:E;
      [|intros ?; simplify_eq].
    intros H. apply IH in H as (gs & -> & HF).
    exists (gen :: gs). split; [by rewrite <- app_assoc|].
    by constructor.
Qed.

End search_outcomes.

Section search_examples.
Import go fmt cassandra.

Lemma SearchTable_invalid_range_witness :
  (Returned [] (Some errInvalidRange) = AtStart
   \/ Returned [] (Some errInvalidRange)
      = Returned (@nil IterGen) (Some errInvalidRange))
  /\ @None (list string) = None /\ @None readResult = None
  /\ NotDequeued = NotDequeued.
Proof.
  apply (SearchTable_invalid_range scenario.spans scenario.db "metric_1" "foo"
           1800 700 true
           {| search := Returned [] (Some errInvalidRange); ctxDone := true;
              readQueue := None; results := None; worker := NotDequeued |});
    [lia|].
  apply (reachable_step _ _ _ _ _ _ _ (init true)); [apply reachable_init|].
  exact (step_invalid scenario.spans scenario.db "metric_1" "foo" 1800 700
           (init true) eq_refl ltac:(lia)).
Defined.

Lemma SearchTable_errors_witness :
  (errReadQueueFull = errInvalidRange /\ 1800 <= 0 /\ @nil IterGen = []
   /\ NotDequeued = NotDequeued /\ @None (list string) = None)
  \/ (errReadQueueFull = errReadQueueFull /\ 0 < 1800 /\ @nil IterGen = []
      /\ NotDequeued = NotDequeued /\ @None (list string) = None)
  \/ (errReadQueueFull = errReadTooOld /\ @nil IterGen = []
      /\ NotDequeued = Omitted)
  \/ (NotDequeued = Executed
      /\ exists ks i,
           (exists fuel, rowKeys fuel "foo" 0 1800 = Some ks)
           /\ (closeErr i = None
               -> rows i ≡ₚ query_rows scenario.db "metric_1" ks 1800)
           /\ scanResult scenario.spans i = ([], Some errReadQueueFull)).
Proof.
  pose (s1 := {| search := AtEnqueue ["foo_0"]; ctxDone := false;
                 readQueue := None; results := None;
                 worker := NotDequeued |}).
  apply (SearchTable_errors scenario.spans scenario.db "metric_1" "foo"
           0 1800 false
           {| search := Returned [] (Some errReadQueueFull); ctxDone := false;
              readQueue := None; results := None; worker := NotDequeued |});
    [|reflexivity].
  apply (reachable_step _ _ _ _ _ _ _ s1); [|exact
    (step_queue_full scenario.spans scenario.db "metric_1" "foo" 0 1800
       s1 ["foo_0"] eq_refl eq_refl)].
  apply (reachable_step _ _ _ _ _ _ _ (init false)); [apply reachable_init|].
  exact (step_request scenario.spans scenario.db "metric_1" "foo" 0 1800
           (init false) 2 ["foo_0"] eq_refl eq_refl eq_refl).
Defined.

Lemma scenario_returned :
  reachable scenario.spans scenario.db "metric_1" "foo" 0 1800 false
    scenario.returned.
Proof.
  pose (i := {| rows := [(1200, [1; 3; 7]); (600, [1; 3; 9])];
                closeErr := None |}).
  pose (s1 := {| search := AtEnqueue ["foo_0"];
                 ctxDone := false; readQueue := None;
                 results := None;
                 worker := NotDequeued |}).
  pose (s2 := {| search := AtResults;
                 ctxDone := false;
                 readQueue := Some ["foo_0"];
                 results := None;
                 worker := NotDequeued |}).
  pose (s3 := {| search := AtResults;
                 ctxDone := false; readQueue := None;
                 results := Some (ResIter i);
                 worker := Executed |}).
  apply (reachable_step _ _ _ _ _ _ _ s3); [|exact
    (step_results scenario.spans scenario.db "metric_1" "foo" 0 1800
       s3 (ResIter i) eq_refl eq_refl)].
  apply (reachable_step _ _ _ _ _ _ _ s2); [|apply
    (step_worker_query scenario.spans scenario.db "metric_1" "foo"
       0 1800 s2 ["foo_0"] i eq_refl eq_refl); intros _; apply perm_swap].
  apply (reachable_step _ _ _ _ _ _ _ s1); [|exact
    (step_enqueue scenario.spans scenario.db "metric_1" "foo" 0 1800
       s1 ["foo_0"] eq_refl)].
  apply (reachable_step _ _ _ _ _ _ _ (init false));
    [apply reachable_init|].
  exact (step_request scenario.spans scenario.db "metric_1" "foo"
           0 1800 (init false) 2 ["foo_0"]
           eq_refl eq_refl eq_refl).
Qed.



End search_examples.

(** ** The size estimates of the message types *)

Section size_facts.
Import go msgp.

Lemma int_int (x : Z) : int (int x) = int x.
Proof. apply int_small. unfold int, is_int. 
  pose proof (Z.mod_pos_bound (x + 2 ^ 63) (2 ^ 64) ltac:(done)). lia. Qed.

Lemma int_add_int_r (a x : Z) : int (a + int x) = int (a + x).
Proof.
  destruct (int_decomp x) as [k ->].
  by rewrite Z.add_assoc, int_add_mul.
Qed.

Lemma int_add_int_l (a x : Z) : int (int a + x) = int (a + x).
Proof. by rewrite Z.add_comm, int_add_int_r, Z.add_comm. Qed.

(** A wrapping sum is the wrapped sum. *)
Lemma foldl_int_sum {A : Type} (f : A -> Z) (g : A -> nat) (l : list A) :
  (forall a, int (f a) = int (Z.of_nat (g a))) ->
  forall s : nat,
  foldl (fun s a => int (s + f a)) (int (Z.of_nat s)) l
  = int (Z.of_nat (s + sum_list_with g l)).
Proof.
  intros Hf. induction l as [|a l IH]; intros s; cbn [foldl sum_list_with].
  - by rewrite Nat.add_0_r.
  - rewrite int_add_int_l, <- int_add_int_r, Hf, int_add_int_r.
    rewrite <- Nat2Z.inj_add, IH. f_equal. lia.
Qed.

Lemma length_AppendArrayHeader (sz : Z) :
  (length (AppendArrayHeader [] sz) <= 5)%nat.
Proof.
  unfold AppendArrayHeader. repeat case_match; cbn; lia.
Qed.

Lemma length_AppendMapHeader (sz : Z) :
  (length (AppendMapHeader [] sz) <= 5)%nat.
Proof.
  unfold AppendMapHeader. repeat case_match; cbn; lia.
Qed.

Lemma length_AppendString (s : string) :
  (length (AppendString [] s) <= 5 + String.length s)%nat.
Proof.
  unfold AppendString. cbv zeta.
  repeat case_match; cbn [app length];
    rewrite ?length_app, ?length_be_bytes, ?length_bytes_of_string; lia.
Qed.

Lemma length_AppendBool (t : bool) : length (AppendBool [] t) = 1%nat.
Proof. done. Qed.

Lemma length_AppendInt64 (i : Z) : (length (AppendInt64 [] i) <= 9)%nat.
Proof.
  unfold AppendInt64. repeat case_match; cbn; lia.
Qed.

Lemma length_foldl_append {A : Type} (f : bytes -> A -> bytes) (g : A -> nat)
    (l : list A) :
  (forall b a, f b a = b ++ f [] a) ->
  (forall a, (length (f [] a) <= g a)%nat) ->
  (length (foldl f [] l) <= sum_list_with g l)%nat.
Proof.
  intros Happ Hlen. induction l as [|a l IH]; [done|].
  rewrite foldl_append_cons by done. rewrite length_app.
  cbn [sum_list_with]. specialize (Hlen a). lia.
Qed.

End size_facts.

Section msgsize.
Import go msgp.

Lemma TagDel_Msgsize (x : GraphiteTagDelSeries.t) (b : bytes) :
  let bound := (23 + sum_list_with (fun p => 5 + String.length p)
                       (GraphiteTagDelSeries.Paths x))%nat in
  GraphiteTagDelSeries.Msgsize x = int (Z.of_nat bound)
  /\ (length (GraphiteTagDelSeries.MarshalMsg x b) <= length b + bound)%nat.
Proof.
  intros bound. split.
  - unfold GraphiteTagDelSeries.Msgsize. cbv zeta.
    change (1 + 6 + ArrayHeaderSize) with (int (Z.of_nat 12)).
    rewrite (foldl_int_sum _ (fun p => 5 + String.length p)%nat).
    + rewrite int_add_int_l. f_equal. unfold bound, BoolSize. lia.
    + intros p. rewrite int_int. f_equal. unfold StringPrefixSize. lia.
  - rewrite TagDel_MarshalMsg_eq. rewrite !length_app.
    pose proof (length_AppendArrayHeader
                  (uint32 (Z.of_nat (length (GraphiteTagDelSeries.Paths x))))).
    pose proof (length_foldl_append AppendString
                  (fun p => 5 + String.length p)%nat
                  (GraphiteTagDelSeries.Paths x) AppendString_app
                  length_AppendString).
    rewrite length_AppendBool. cbn [length]. unfold bound. lia.
Qed.

Lemma Resp_Msgsize (x : GraphiteTagDelSeriesResp.t) (b : bytes)
    (range range' : list (string * Z)) :
  range ≡ₚ map_to_list (GraphiteTagDelSeriesResp.Peers x) ->
  range' ≡ₚ map_to_list (GraphiteTagDelSeriesResp.Peers x) ->
  let bound := (27 + sum_list_with (fun p => 14 + String.length p.1)
                       (map_to_list (GraphiteTagDelSeriesResp.Peers x)))%nat in
  GraphiteTagDelSeriesResp.Msgsize range' x = int (Z.of_nat bound)
  /\ (length (GraphiteTagDelSeriesResp.MarshalMsg range x b)
      <= length b + bound)%nat.
Proof.
  intros Hr Hr' bound. split.
  - unfold GraphiteTagDelSeriesResp.Msgsize. cbv zeta.
    change (1 + 6 + IntSize + 6 + MapHeaderSize) with (int (Z.of_nat 27)).
    rewrite (foldl_int_sum _ (fun p => 14 + String.length p.1)%nat).
    + f_equal. unfold bound. by rewrite Hr'.
    + intros p. rewrite int_int, int_add_int_l. f_equal.
      unfold StringPrefixSize, IntSize, Int64Size. lia.
  - rewrite Resp_MarshalMsg_eq. rewrite !length_app.
    pose proof (length_AppendInt64 (GraphiteTagDelSeriesResp.Count x)).
    pose proof (length_AppendMapHeader
                  (uint32 (Z.of_nat (size (GraphiteTagDelSeriesResp.Peers x))))).
    pose proof (length_foldl_append GraphiteTagDelSeriesResp.peer
                  (fun p => 14 + String.length p.1)%nat range peer_app) as Hp.
    assert (sum_list_with (fun p : string * Z => (14 + String.length p.1)%nat) range
            = sum_list_with (fun p => (14 + String.length p.1)%nat)
                (map_to_list (GraphiteTagDelSeriesResp.Peers x))) as Hsum
      by (by rewrite Hr).
    rewrite Hsum in Hp. cbn [length]. unfold bound.
    enough (length (foldl GraphiteTagDelSeriesResp.peer [] range)
            <= sum_list_with (fun p => 14 + String.length p.1)
                 (map_to_list (GraphiteTagDelSeriesResp.Peers x)))%nat by lia.
    apply Hp. intros [k v]. unfold GraphiteTagDelSeriesResp.peer, AppendInt.
    rewrite AppendInt64_app, length_app.
    pose proof (length_AppendString k). pose proof (length_AppendInt64 v).
    cbn [fst]. lia.
Qed.

Lemma length_interval (iv : list Z) :
  (length (SeriesPickleItem.interval [] iv) <= 5 + length iv * 9)%nat.
Proof.
  unfold SeriesPickleItem.interval.
  rewrite (foldl_append AppendInt64 iv AppendInt64_app), length_app.
  pose proof (length_AppendArrayHeader (uint32 (Z.of_nat (length iv)))).
  pose proof (length_foldl_append AppendInt64 (fun _ => 9%nat) iv
                AppendInt64_app length_AppendInt64) as Hs.
  assert (sum_list_with (fun _ : Z => 9%nat) iv = (length iv * 9)%nat) as E.
  { clear. induction iv as [|? ? IH]; [done|].
    cbn [sum_list_with length]. rewrite IH. lia. }
  lia.
Qed.

Lemma Item_Msgsize (x : SeriesPickleItem.t) (b : bytes) :
  SeriesPickleItem.Msgsize x = int (Z.of_nat (SeriesPickleItem.Msgsize_sum x))
  /\ (length (SeriesPickleItem.MarshalMsg x b) <= length b + SeriesPickleItem.Msgsize_sum x)%nat.
Proof.
  split.
  - unfold SeriesPickleItem.Msgsize. cbv zeta.
    replace (1 + 5 + StringPrefixSize
             + Z.of_nat (String.length (SeriesPickleItem.Path x))
             + 7 + BoolSize + 10 + ArrayHeaderSize)
      with (Z.of_nat (34 + String.length (SeriesPickleItem.Path x)))
      by (unfold StringPrefixSize, BoolSize, ArrayHeaderSize; lia).
    rewrite (foldl_int_sum _ (fun iv => 5 + length iv * 9)%nat).
    + f_equal.
    + intros iv. rewrite int_int, int_add_int_r. f_equal.
      unfold ArrayHeaderSize, Int64Size. lia.
  - rewrite Item_MarshalMsg_eq. rewrite !length_app.
    pose proof (length_AppendString (SeriesPickleItem.Path x)).
    pose proof (length_AppendArrayHeader
                  (uint32 (Z.of_nat (length (SeriesPickleItem.Intervals x))))).
    pose proof (length_foldl_append SeriesPickleItem.interval
                  (fun iv => 5 + length iv * 9)%nat
                  (SeriesPickleItem.Intervals x) interval_app length_interval).
    rewrite length_AppendBool. cbn [length]. unfold SeriesPickleItem.Msgsize_sum. lia.
Qed.

Lemma Pickle_Msgsize (x : SeriesPickle.t) (b : bytes) :
  let bound := (5 + sum_list_with SeriesPickleItem.Msgsize_sum x)%nat in
  SeriesPickle.Msgsize x = int (Z.of_nat bound)
  /\ (length (SeriesPickle.MarshalMsg x b) <= length b + bound)%nat.
Proof.
  intros bound. split.
  - unfold SeriesPickle.Msgsize.
    change ArrayHeaderSize with (int (Z.of_nat 5)).
    rewrite (foldl_int_sum SeriesPickleItem.Msgsize SeriesPickleItem.Msgsize_sum); [done|].
    intros item. destruct (Item_Msgsize item []) as [-> _]. apply int_int.
  - unfold SeriesPickle.MarshalMsg. cbv zeta.
    rewrite AppendArrayHeader_app.
    rewrite (foldl_append SeriesPickle.item x).
    2: { intros o z. apply Item_MarshalMsg_app. }
    rewrite !length_app.
    pose proof (length_AppendArrayHeader (uint32 (Z.of_nat (length x)))).
    pose proof (length_foldl_append SeriesPickle.item SeriesPickleItem.Msgsize_sum x) as Hs.
    unfold bound.
    enough (length (foldl SeriesPickle.item [] x)
            <= sum_list_with SeriesPickleItem.Msgsize_sum x)%nat by lia.
    apply Hs.
    + intros o z. apply Item_MarshalMsg_app.
    + intros z. destruct (Item_Msgsize z []) as [_ H']. exact H'.
Qed.

End msgsize.

(** ** What the decoders accept *)

Section skip.
Import go msgp.

Lemma Skip_step (b rest : bytes) (sz : Z) :
  getSize (b ++ rest) = Ok (sz, 0) -> Z.to_nat sz = length b ->
  Skip (b ++ rest) = Ok rest.
Proof.
  intros Hsz Hlen. unfold Skip. cbn [Skip_depth]. rewrite Hsz.
  cbn [mbind result_bind]. change (Z.to_nat 0) with 0%nat.
  rewrite Hlen, length_app.
  destruct (Nat.ltb_spec (length b + length rest) (length b)); [lia|].
  by rewrite drop_app_length.
Qed.

Lemma Skip_AppendBool (t : bool) (rest : bytes) :
  Skip (AppendBool [] t ++ rest) = Ok rest.
Proof. apply (Skip_step _ _ 1); [by destruct t|done]. Qed.

Lemma ReadMapKeyZC_Append (name : string) (rest : bytes) :
  valid_string name ->
  ReadMapKeyZC (AppendString [] name ++ rest) = Ok (bytes_of_string name, rest).
Proof.
  intros Hn. unfold ReadMapKeyZC. by rewrite ReadStringZC_Append.
Qed.

End skip.

Section tag_del_fields.
Import go msgp GraphiteTagDelSeries.

Lemma String_eqb_neq (s t : string) : s <> t -> String.eqb s t = false.
Proof. intros H. by apply String.eqb_neq. Qed.

Lemma TagDel_fields_entry (e : entry) (n : nat) (z : t) (rest : bytes) :
  well_formed e ->
  fields (S n) z (encode e ++ rest) = fields n (assign z e) rest.
Proof.
  intros Hwf. cbn [fields]. destruct e as [paths|p|name value]; cbn [encode].
  - rewrite <- app_assoc, ReadMapKeyZC_Append by done. cbn [mbind result_bind].
    rewrite string_of_bytes_of_string.
    rewrite (foldl_append AppendString paths) by apply AppendString_app.
    rewrite <- !app_assoc. destruct Hwf as [Hl Hs].
    by rewrite TagDel_field_Paths.
  - rewrite <- app_assoc, ReadMapKeyZC_Append by done. cbn [mbind result_bind].
    rewrite string_of_bytes_of_string. by rewrite TagDel_field_Propagate.
  - destruct Hwf as (H1 & H2 & Hn & Hskip).
    rewrite <- app_assoc, ReadMapKeyZC_Append by done. cbn [mbind result_bind].
    rewrite string_of_bytes_of_string. unfold field.
    rewrite !String_eqb_neq by done. by rewrite Hskip.
Qed.

Lemma TagDel_fields_entries (es : list entry) (rest : bytes) :
  Forall well_formed es ->
  forall z : t,
  fields (length es) z (concat (encode <$> es) ++ rest)
  = Ok (foldl assign z es, rest).
Proof.
  induction 1 as [|e es He Hes IH]; intros z; [done|].
  cbn [length fmap list_fmap concat foldl]. rewrite <- app_assoc.
  by rewrite TagDel_fields_entry.
Qed.

Lemma TagDel_decodes (es : list entry) (z : t) (rest : bytes) :
  valid_length es -> Forall well_formed es ->
  UnmarshalMsg z (message es ++ rest) = Ok (foldl assign z es, rest).
Proof.
  intros Hl Hes. unfold UnmarshalMsg, message. rewrite <- app_assoc.
  rewrite uint32_small by (unfold valid_length in Hl; lia).
  rewrite ReadMapHeader_Append by (unfold valid_length in Hl; lia).
  cbn [mbind result_bind]. rewrite Nat2Z.id.
  by apply TagDel_fields_entries.
Qed.

End tag_del_fields.

Section resp_fields.
Import go msgp GraphiteTagDelSeriesResp.

Lemma Resp_field_Peers_list (z : t) (peers : list (string * Z)) (rest : bytes) :
  valid_length peers ->
  Forall (fun p => valid_string p.1 /\ is_int p.2) peers ->
  field z "Peers"
    (AppendMapHeader [] (uint32 (Z.of_nat (length peers)))
       ++ foldl peer [] peers ++ rest)
  = Ok ({| Count := Count z;
           Peers := foldl (fun m p => <[p.1 := p.2]> m) ∅ peers |}, rest).
Proof.
  intros Hl Hp. unfold field. cbn [String.eqb Ascii.eqb Bool.eqb].
  rewrite uint32_small by (unfold valid_length in Hl; lia).
  rewrite ReadMapHeader_Append by (unfold valid_length in Hl; lia).
  cbn [mbind result_bind]. rewrite Nat2Z.id.
  by rewrite read_peers_roundtrip.
Qed.

Lemma Resp_fields_entry (e : entry) (n : nat) (z : t) (rest : bytes) :
  well_formed e ->
  fields (S n) z (encode e ++ rest) = fields n (assign z e) rest.
Proof.
  intros Hwf. cbn [fields]. destruct e as [c|peers|name value]; cbn [encode].
  - rewrite <- app_assoc, ReadMapKeyZC_Append by done. cbn [mbind result_bind].
    rewrite string_of_bytes_of_string. unfold AppendInt.
    by rewrite Resp_field_Count.
  - rewrite <- app_assoc, ReadMapKeyZC_Append by done. cbn [mbind result_bind].
    rewrite string_of_bytes_of_string.
    rewrite (foldl_append peer peers) by apply peer_app.
    rewrite <- !app_assoc. destruct Hwf as [Hl Hs].
    by rewrite Resp_field_Peers_list.
  - destruct Hwf as (H1 & H2 & Hn & Hskip).
    rewrite <- app_assoc, ReadMapKeyZC_Append by done. cbn [mbind result_bind].
    rewrite string_of_bytes_of_string. unfold field.
    rewrite !String_eqb_neq by done. by rewrite Hskip.
Qed.

Lemma Resp_fields_entries (es : list entry) (rest : bytes) :
  Forall well_formed es ->
  forall z : t,
  fields (length es) z (concat (encode <$> es) ++ rest)
  = Ok (foldl assign z es, rest).
Proof.
  induction 1 as [|e es He Hes IH]; intros z; [done|].
  cbn [length fmap list_fmap concat foldl]. rewrite <- app_assoc.
  by rewrite Resp_fields_entry.
Qed.

Lemma Resp_decodes (es : list entry) (z : t) (rest : bytes) :
  valid_length es -> Forall well_formed es ->
  UnmarshalMsg z (message es ++ rest) = Ok (foldl assign z es, rest).
Proof.
  intros Hl Hes. unfold UnmarshalMsg, message. rewrite <- app_assoc.
  rewrite uint32_small by (unfold valid_length in Hl; lia).
  rewrite ReadMapHeader_Append by (unfold valid_length in Hl; lia).
  cbn [mbind result_bind]. rewrite Nat2Z.id.
  by apply Resp_fields_entries.
Qed.

End resp_fields.

Section item_fields.
Import go msgp SeriesPickleItem.

Lemma Item_fields_entry (e : entry) (n : nat) (z : t) (rest : bytes) :
  well_formed e ->
  fields (S n) z (encode e ++ rest) = fields n (assign z e) rest.
Proof.
  intros Hwf. cbn [fields]. destruct e as [p|l|ivs|name value]; cbn [encode].
  - rewrite <- app_assoc, ReadMapKeyZC_Append by done. cbn [mbind result_bind].
    rewrite string_of_bytes_of_string. by rewrite Item_field_path.
  - rewrite <- app_assoc, ReadMapKeyZC_Append by done. cbn [mbind result_bind].
    rewrite string_of_bytes_of_string. by rewrite Item_field_isLeaf.
  - rewrite <- app_assoc, ReadMapKeyZC_Append by done. cbn [mbind result_bind].
    rewrite string_of_bytes_of_string.
    rewrite (foldl_append interval ivs) by apply interval_app.
    rewrite <- !app_assoc. destruct Hwf as [Hl Hs].
    by rewrite Item_field_intervals.
  - destruct Hwf as (H1 & H2 & H3 & Hn & Hskip).
    rewrite <- app_assoc, ReadMapKeyZC_Append by done. cbn [mbind result_bind].
    rewrite string_of_bytes_of_string. unfold field.
    rewrite !String_eqb_neq by done. by rewrite Hskip.
Qed.

Lemma Item_fields_entries (es : list entry) (rest : bytes) :
  Forall well_formed es ->
  forall z : t,
  fields (length es) z (concat (encode <$> es) ++ rest)
  = Ok (foldl assign z es, rest).
Proof.
  induction 1 as [|e es He Hes IH]; intros z; [done|].
  cbn [length fmap list_fmap concat foldl]. rewrite <- app_assoc.
  by rewrite Item_fields_entry.
Qed.

Lemma Item_decodes (es : list entry) (z : t) (rest : bytes) :
  valid_length es -> Forall well_formed es ->
  UnmarshalMsg z (message es ++ rest) = Ok (foldl assign z es, rest).
Proof.
  intros Hl Hes. unfold UnmarshalMsg, message. rewrite <- app_assoc.
  rewrite uint32_small by (unfold valid_length in Hl; lia).
  rewrite ReadMapHeader_Append by (unfold valid_length in Hl; lia).
  cbn [mbind result_bind]. rewrite Nat2Z.id.
  by apply Item_fields_entries.
Qed.

End item_fields.

Section pickle_items.
Import go msgp SeriesPickle.

Lemma items_decodes (ess : list (list SeriesPickleItem.entry)) (rest : bytes) :
  Forall (fun es => valid_length es /\ Forall SeriesPickleItem.well_formed es) ess ->
  forall z : list SeriesPickleItem.t, length z = length ess ->
  items z (concat (SeriesPickleItem.message <$> ess) ++ rest)
  = Ok (zip_with (foldl SeriesPickleItem.assign) z ess, rest).
Proof.
  induction 1 as [|es ess [Hl Hes] _ IH]; intros [|item z] Hlen;
    try done.
  cbn [fmap list_fmap concat items zip_with]. rewrite <- app_assoc.
  rewrite Item_decodes by done. cbn [mbind result_bind].
  rewrite IH by (cbn in Hlen; lia). done.
Qed.

Lemma Pickle_decodes (ess : list (list SeriesPickleItem.entry))
    (backing : list SeriesPickleItem.t) (rest : bytes) :
  valid_length ess ->
  Forall (fun es => valid_length es /\ Forall SeriesPickleItem.well_formed es) ess ->
  UnmarshalMsg backing (SeriesPickle.message ess ++ rest)
  = Ok (zip_with (foldl SeriesPickleItem.assign)
          (if (length ess <=? length backing)%nat then backing
           else replicate (length ess) SeriesPickleItem.zero)
          ess, rest).
Proof.
  intros Hl Hes. unfold UnmarshalMsg, SeriesPickle.message. rewrite <- app_assoc.
  rewrite uint32_small by (unfold valid_length in Hl; lia).
  rewrite ReadArrayHeader_Append by (unfold valid_length in Hl; lia).
  cbn [mbind result_bind]. rewrite Nat2Z.id.
  destruct (Nat.leb_spec (length ess) (length backing)) as [Hle|Hlt].
  - rewrite items_decodes; [|done|by rewrite length_take; lia].
    by rewrite zip_with_take_l.
  - rewrite items_decodes; [done|done|by rewrite length_replicate].
Qed.

End pickle_items.

(** ** The message types: sizes and accepted messages *)

Section message_properties.
Import go msgp.

(** X11: [Msgsize] of each of the four message types is the wrapped sum of
    the per-field maxima; the bytes [MarshalMsg] appends never exceed that
    sum.  So, while the sum is below [2^63], [Msgsize] is an upper bound of
    the encoded size, and the [msgp.Require(b, z.Msgsize())] that
    [MarshalMsg] starts with reserves room for all of its appends. *)
Theorem Msgsize_upper_bound :
  (forall (x : GraphiteTagDelSeries.t) (b : bytes),
     let sum := (23 + sum_list_with (fun p => 5 + String.length p)
                        (GraphiteTagDelSeries.Paths x))%nat in
     GraphiteTagDelSeries.Msgsize x = int (Z.of_nat sum)
     /\ (length (GraphiteTagDelSeries.MarshalMsg x b) <= length b + sum)%nat)
  /\ (forall (x : GraphiteTagDelSeriesResp.t) (b : bytes)
        (range range' : list (string * Z)),
        range ≡ₚ map_to_list (GraphiteTagDelSeriesResp.Peers x) ->
        range' ≡ₚ map_to_list (GraphiteTagDelSeriesResp.Peers x) ->
        let sum := (27 + sum_list_with (fun p => 14 + String.length p.1)
                           (map_to_list (GraphiteTagDelSeriesResp.Peers x)))%nat in
        GraphiteTagDelSeriesResp.Msgsize range' x = int (Z.of_nat sum)
        /\ (length (GraphiteTagDelSeriesResp.MarshalMsg range x b)
            <= length b + sum)%nat)
  /\ (forall (x : SeriesPickleItem.t) (b : bytes),
        let sum := (34 + String.length (SeriesPickleItem.Path x)
                    + sum_list_with (fun iv => 5 + length iv * 9)
                        (SeriesPickleItem.Intervals x))%nat in
        SeriesPickleItem.Msgsize x = int (Z.of_nat sum)
        /\ (length (SeriesPickleItem.MarshalMsg x b) <= length b + sum)%nat)
  /\ (forall (x : SeriesPickle.t) (b : bytes),
        let sum := (5 + sum_list_with SeriesPickleItem.Msgsize_sum x)%nat in
        SeriesPickle.Msgsize x = int (Z.of_nat sum)
        /\ (length (SeriesPickle.MarshalMsg x b) <= length b + sum)%nat).
Proof.
  split; [|split; [|split]].
  - intros x b. apply TagDel_Msgsize.
  - intros x b range range' Hr Hr'. by apply Resp_Msgsize.
  - intros x b. apply Item_Msgsize.
  - intros x b. apply Pickle_Msgsize.
Qed.

(** X12: what [GraphiteTagDelSeries.UnmarshalMsg] accepts.  A map of any
    number of fields, in any order, is decoded by assigning the fields named
    [Paths] and [Propagate] in turn and stepping over every field of another
    name; a field that the message leaves out keeps the value the receiver
    had, of a repeated field the last value stays, and the bytes after the
    map are returned.  What [MarshalMsg] appends is the message of the two
    fields, [Paths] first. *)
Theorem GraphiteTagDelSeries_decodes :
  (forall (x : GraphiteTagDelSeries.t) (b : bytes),
     GraphiteTagDelSeries.MarshalMsg x b
     = b ++ GraphiteTagDelSeries.message
              [GraphiteTagDelSeries.EPaths (GraphiteTagDelSeries.Paths x);
               GraphiteTagDelSeries.EPropagate
                 (GraphiteTagDelSeries.Propagate x)])
  /\ (forall (es : list GraphiteTagDelSeries.entry)
        (z : GraphiteTagDelSeries.t) (rest : bytes),
        valid_length es -> Forall GraphiteTagDelSeries.well_formed es ->
        GraphiteTagDelSeries.UnmarshalMsg z
          (GraphiteTagDelSeries.message es ++ rest)
        = Ok (foldl GraphiteTagDelSeries.assign z es, rest)).
Proof.
  split.
  - intros x b. rewrite TagDel_MarshalMsg_eq.
    unfold GraphiteTagDelSeries.message.
    cbn [fmap list_fmap concat GraphiteTagDelSeries.encode].
    rewrite (foldl_append AppendString (GraphiteTagDelSeries.Paths x)
               AppendString_app (AppendArrayHeader [] _)).
    rewrite app_nil_r, <- !app_assoc. reflexivity.
  - intros es z rest. apply TagDel_decodes.
Qed.

Lemma GraphiteTagDelSeries_decodes_witness :
  GraphiteTagDelSeries.UnmarshalMsg
    {| GraphiteTagDelSeries.Paths := ["old"];
       GraphiteTagDelSeries.Propagate := false |}
    (GraphiteTagDelSeries.message
       [GraphiteTagDelSeries.EOther "Extra" (AppendBool [] true);
        GraphiteTagDelSeries.EPropagate true] ++ [1; 2])
  = Ok ({| GraphiteTagDelSeries.Paths := ["old"];
           GraphiteTagDelSeries.Propagate := true |}, [1; 2]).
Proof.
  destruct GraphiteTagDelSeries_decodes as [_ H].
  apply (H [GraphiteTagDelSeries.EOther "Extra" (AppendBool [] true);
            GraphiteTagDelSeries.EPropagate true]).
  - by vm_compute.
  - repeat constructor; try done; intros rest; apply Skip_AppendBool.
Defined.

(** X13: what [GraphiteTagDelSeriesResp.UnmarshalMsg] accepts: a map of any
    number of fields in any order; [Count] is assigned, [Peers] is replaced
    by the entries of its map put into an empty map one after the other (of
    two entries with one key the later stays), fields of other names are
    stepped over, fields left out keep the receiver's value, and the bytes
    after the map are returned.  What [MarshalMsg] appends is the message of
    [Count] and [Peers], the entries in the order of its loop over the
    map. *)
Theorem GraphiteTagDelSeriesResp_decodes :
  (forall (x : GraphiteTagDelSeriesResp.t) (b : bytes)
     (range : list (string * Z)),
     range ≡ₚ map_to_list (GraphiteTagDelSeriesResp.Peers x) ->
     GraphiteTagDelSeriesResp.MarshalMsg range x b
     = b ++ GraphiteTagDelSeriesResp.message
              [GraphiteTagDelSeriesResp.ECount
                 (GraphiteTagDelSeriesResp.Count x);
               GraphiteTagDelSeriesResp.EPeers range])
  /\ (forall (es : list GraphiteTagDelSeriesResp.entry)
        (z : GraphiteTagDelSeriesResp.t) (rest : bytes),
        valid_length es -> Forall GraphiteTagDelSeriesResp.well_formed es ->
        GraphiteTagDelSeriesResp.UnmarshalMsg z
          (GraphiteTagDelSeriesResp.message es ++ rest)
        = Ok (foldl GraphiteTagDelSeriesResp.assign z es, rest)).
Proof.
  split.
  - intros x b range Hr. rewrite Resp_MarshalMsg_eq.
    unfold GraphiteTagDelSeriesResp.message.
    cbn [fmap list_fmap concat GraphiteTagDelSeriesResp.encode].
    rewrite (foldl_append GraphiteTagDelSeriesResp.peer range peer_app
               (AppendMapHeader [] _)).
    assert (length range = size (GraphiteTagDelSeriesResp.Peers x)) as ->
      by (by rewrite Hr, length_map_to_list).
    rewrite app_nil_r, <- !app_assoc. reflexivity.
  - intros es z rest. apply Resp_decodes.
Qed.

Lemma GraphiteTagDelSeriesResp_decodes_witness :
  GraphiteTagDelSeriesResp.UnmarshalMsg
    {| GraphiteTagDelSeriesResp.Count := 7;
       GraphiteTagDelSeriesResp.Peers := {[ "old" := 1 ]} |}
    (GraphiteTagDelSeriesResp.message
       [GraphiteTagDelSeriesResp.EPeers [("a", 1); ("a", 2)]] ++ [])
  = Ok ({| GraphiteTagDelSeriesResp.Count := 7;
           GraphiteTagDelSeriesResp.Peers :=
             <["a" := 2]> (<["a" := 1]> ∅) |}, []).
Proof.
  destruct GraphiteTagDelSeriesResp_decodes as [_ H].
  apply (H [GraphiteTagDelSeriesResp.EPeers [("a", 1); ("a", 2)]]).
  - by vm_compute.
  - repeat constructor; by vm_compute.
Defined.

Lemma Item_MarshalMsg_message (x : SeriesPickleItem.t) (b : bytes) :
  SeriesPickleItem.MarshalMsg x b
  = b ++ SeriesPickleItem.message
           [SeriesPickleItem.EPath (SeriesPickleItem.Path x);
            SeriesPickleItem.EIsLeaf (SeriesPickleItem.IsLeaf x);
            SeriesPickleItem.EIntervals (SeriesPickleItem.Intervals x)].
Proof.
  rewrite Item_MarshalMsg_eq.
  unfold SeriesPickleItem.message.
  cbn [fmap list_fmap concat SeriesPickleItem.encode].
  rewrite (foldl_append SeriesPickleItem.interval
             (SeriesPickleItem.Intervals x) interval_app
             (AppendArrayHeader [] _)).
  rewrite app_nil_r, <- !app_assoc. reflexivity.
Qed.

(** X14: what [SeriesPickleItem.UnmarshalMsg] accepts: a map of any number
    of fields in any order; [path], [isLeaf] and [intervals] are assigned in
    turn, fields of other names are stepped over, fields left out keep the
    receiver's value, and the bytes after the map are returned.  What
    [MarshalMsg] appends is the message of the three fields. *)
Theorem SeriesPickleItem_decodes :
  (forall (x : SeriesPickleItem.t) (b : bytes),
     SeriesPickleItem.MarshalMsg x b
     = b ++ SeriesPickleItem.message
              [SeriesPickleItem.EPath (SeriesPickleItem.Path x);
               SeriesPickleItem.EIsLeaf (SeriesPickleItem.IsLeaf x);
               SeriesPickleItem.EIntervals (SeriesPickleItem.Intervals x)])
  /\ (forall (es : list SeriesPickleItem.entry) (z : SeriesPickleItem.t)
        (rest : bytes),
        valid_length es -> Forall SeriesPickleItem.well_formed es ->
        SeriesPickleItem.UnmarshalMsg z (SeriesPickleItem.message es ++ rest)
        = Ok (foldl SeriesPickleItem.assign z es, rest)).
Proof.
  split.
  - apply Item_MarshalMsg_message.
  - intros es z rest. apply Item_decodes.
Qed.

Lemma SeriesPickleItem_decodes_witness :
  SeriesPickleItem.UnmarshalMsg
    {| SeriesPickleItem.Path := "old"; SeriesPickleItem.IsLeaf := true;
       SeriesPickleItem.Intervals := [[1; 2]] |}
    (SeriesPickleItem.message
       [SeriesPickleItem.EIntervals [];
        SeriesPickleItem.EPath "new"] ++ [])
  = Ok ({| SeriesPickleItem.Path := "new"; SeriesPickleItem.IsLeaf := true;
           SeriesPickleItem.Intervals := [] |}, []).
Proof.
  destruct SeriesPickleItem_decodes as [_ H].
  apply (H [SeriesPickleItem.EIntervals []; SeriesPickleItem.EPath "new"]).
  - by vm_compute.
  - repeat constructor; by vm_compute.
Defined.

(** X15: [SeriesPickle.UnmarshalMsg] decodes the items in place.  When the
    receiver's backing array has room for the announced number of items, item
    [i] is decoded over what the array holds at [i], so a field that the
    message of the item leaves out keeps the value of the array's old item;
    otherwise the items are decoded over zero values.  What [MarshalMsg]
    appends is the message of the items with all their fields. *)
Theorem SeriesPickle_decodes_in_place :
  (forall (x : SeriesPickle.t) (b : bytes),
     SeriesPickle.MarshalMsg x b
     = b ++ SeriesPickle.message
              ((fun item =>
                  [SeriesPickleItem.EPath (SeriesPickleItem.Path item);
                   SeriesPickleItem.EIsLeaf (SeriesPickleItem.IsLeaf item);
                   SeriesPickleItem.EIntervals
                     (SeriesPickleItem.Intervals item)]) <$> x))
  /\ (forall (ess : list (list SeriesPickleItem.entry))
        (backing : list SeriesPickleItem.t) (rest : bytes),
        valid_length ess ->
        Forall (fun es => valid_length es
                          /\ Forall SeriesPickleItem.well_formed es) ess ->
        SeriesPickle.UnmarshalMsg backing (SeriesPickle.message ess ++ rest)
        = Ok (zip_with (foldl SeriesPickleItem.assign)
                (if (length ess <=? length backing)%nat then backing
                 else replicate (length ess) SeriesPickleItem.zero)
                ess, rest)).
Proof.
  split.
  - intros x b. unfold SeriesPickle.MarshalMsg, SeriesPickle.message.
    cbv zeta. rewrite AppendArrayHeader_app, length_fmap.
    rewrite (foldl_append SeriesPickle.item x
               (fun o z => Item_MarshalMsg_app z o) (b ++ _)).
    rewrite <- app_assoc. do 2 f_equal.
    induction x as [|item x IH]; [done|].
    rewrite foldl_append_cons by (intros o z; apply Item_MarshalMsg_app).
    cbn [fmap list_fmap concat]. rewrite IH. f_equal.
    unfold SeriesPickle.item. by rewrite Item_MarshalMsg_message.
  - intros ess backing rest. apply Pickle_decodes.
Qed.

Lemma SeriesPickle_decodes_in_place_witness :
  SeriesPickle.UnmarshalMsg
    [{| SeriesPickleItem.Path := "stale"; SeriesPickleItem.IsLeaf := true;
        SeriesPickleItem.Intervals := [[1; 2]] |}]
    (SeriesPickle.message [[SeriesPickleItem.EPath "new"]] ++ [])
  = Ok ([{| SeriesPickleItem.Path := "new"; SeriesPickleItem.IsLeaf := true;
            SeriesPickleItem.Intervals := [[1; 2]] |}], []).
Proof.
  destruct SeriesPickle_decodes_in_place as [_ H].
  apply (H [[SeriesPickleItem.EPath "new"]]).
  - by vm_compute.
  - repeat constructor; by vm_compute.
Defined.

End message_properties.

(** ** The trace of the writer *)

Section writer_trace_facts.
Import go cassandra.
Variables (cwr : ChunkWriteRequest) (buf : list Z).

Lemma insertLoop_trace (fails : list error) (rest : list (option error)) :
  forall a : nat,
  Z.of_nat (a + length fails) < 2 ^ 63 ->
  insertLoop cwr buf ((Some <$> fails) ++ None :: rest) (Z.of_nat a)
  = (concat (imap (fun i err => failed cwr buf (a + i) err) fails) ++ saved cwr buf, true).
Proof.
  induction fails as [|err fails IH]; intros a Ha; [done|].
  cbn [fmap list_fmap app insertLoop imap concat].
  rewrite (int_small (Z.of_nat a + 1)) by (unfold is_int; cbn in Ha; lia).
  replace (Z.of_nat a + 1) with (Z.of_nat (S a)) by lia.
  rewrite IH by (cbn in Ha; lia). unfold failed at 2.
  rewrite Nat.add_0_r.
  assert ((Z.rem (Z.of_nat a) 20 =? 0) = (a mod 20 =? 0)%nat) as ->.
  { rewrite Z.rem_mod_nonneg by lia.
    change 20 with (Z.of_nat 20). rewrite <- Nat2Z.inj_mod.
    destruct (Nat.eqb_spec (a mod 20) 0) as [->|Hne]; [done|].
    apply Z.eqb_neq. lia. }
  replace (Z.of_nat (S a)) with (Z.of_nat a + 1) by lia.
  f_equal. cbn [app]. do 2 f_equal. rewrite <- !app_assoc. cbn [app].
  do 3 f_equal.
  apply (f_equal (fun l => concat l ++ saved cwr buf)).
  apply imap_ext. intros i e _. cbn. f_equal. lia.
Qed.


Lemma failed_readings (fails : list error) : forall a : nat,
  let tr := concat (imap (fun i err => failed cwr buf (a + i) err) fails) in
  errMetrics tr = fails
  /\ warnings tr
     = (fun i : nat => Z.of_nat i + 1)
       <$> filter (fun i => i mod 20 = 0)%nat (seq a (length fails))
  /\ syncs tr = []
  /\ insertsOk tr = [].
Proof.
  induction fails as [|err fails IH]; intros a; [done|].
  cbn [imap concat length seq]. rewrite Nat.add_0_r.
  specialize (IH (S a)).
  rewrite (imap_ext _ (fun i err => failed cwr buf (S a + i) err) fails)
    by (intros; cbn; f_equal; lia).
  cbv zeta in IH. destruct IH as (IH1 & IH2 & IH3 & IH4).
  unfold errMetrics, warnings, syncs, insertsOk in *.
  rewrite !omap_app, IH1, IH2, IH3, IH4. unfold failed.
  rewrite filter_cons.
  destruct (Nat.eqb_spec (a mod 20) 0) as [Hm|Hm].
  - rewrite decide_True by done. done.
  - rewrite decide_False by done. done.
Qed.

(** X16: the events of a save that meets [n < 2^63] failures and then a
    success: for each failure, in order, the failed insert, the count of its
    error in [errmetrics], a warning if the number of failures before it is a
    multiple of 20 (so on the 1st, 21st, 41st, ... failed attempt, logged
    with that number), [chunkSaveFail] and the sleep; then the successful
    insert, [SyncChunkSaveState], the persist message and [chunkSaveOk], in
    this order and as the last events. *)
Theorem processWriteQueue_trace (fails : list error) (rest : list (option error)) :
  Z.of_nat (length fails) < 2 ^ 63 ->
  let run := insertLoop cwr buf ((Some <$> fails) ++ None :: rest) 0 in
  run = (concat (imap (failed cwr buf) fails) ++ saved cwr buf, true)
  /\ errMetrics run.1 = fails
  /\ warnings run.1
     = (fun i : nat => Z.of_nat i + 1)
       <$> filter (fun i => i mod 20 = 0)%nat (seq 0 (length fails)).
Proof.
  intros Hn run.
  pose proof (insertLoop_trace fails rest 0 Hn) as Hrun.
  change (Z.of_nat 0) with 0 in Hrun. fold run in Hrun.
  rewrite (imap_ext _ (failed cwr buf) fails) in Hrun by done.
  split; [exact Hrun|]. rewrite Hrun. cbn [fst].
  destruct (failed_readings fails 0) as (H1 & H2 & _).
  rewrite (imap_ext _ (failed cwr buf) fails) in H1, H2 by done.
  unfold errMetrics, warnings in *. rewrite !omap_app, H1, H2.
  cbn. by rewrite !app_nil_r.
Qed.

End writer_trace_facts.

Lemma processWriteQueue_trace_witness :
  cassandra.warnings
    (cassandra.insertLoop scenario.request [1; 3; 7]
       ((Some <$> replicate 21 cassandra.errReadTooOld) ++ [None]) 0).1
  = [1; 21].
Proof.
  destruct (processWriteQueue_trace scenario.request [1; 3; 7]
              (replicate 21 cassandra.errReadTooOld) [])
    as (_ & _ & H); [by vm_compute|].
  exact H.
Defined.


(** ** The buckets of the router *)

Section router_buckets.
Import go fmt cassandra.

Lemma Table_name_inj (n m : Z) :
  Sprintf Table_name_format [ArgUint32 n]
  = Sprintf Table_name_format [ArgUint32 m] -> n = m.
Proof.
  cbn. rewrite !append_empty_r. intros H. simplify_eq. by apply decimal_inj.
Qed.

(** The pre-factor window of a 32-bit TTL: 0 below one hour, otherwise the
    power of two of the bucket of hours. *)
Lemma preFactorWindow_cases (ttl : Z) :
  is_uint32 ttl ->
  (ttl < 3600 /\ preFactorWindow ttl = 0)
  \/ exists k, 0 <= k <= 20 /\ preFactorWindow ttl = 2 ^ k
       /\ 2 ^ k * 3600 <= ttl < 2 ^ (k + 1) * 3600.
Proof.
  intros Hu. unfold is_uint32 in Hu.
  destruct (Z.lt_ge_cases ttl 3600) as [Hlt|Hge].
  - left. split; [done|]. destruct (Z.eq_dec ttl 0) as [->|Hne].
    + apply preFactorWindow_0.
    + apply preFactorWindow_lt_hour. lia.
  - right. set (k := Z.log2 (ttl / 3600)).
    assert (1 <= ttl / 3600) as Hq by (apply Z.div_le_lower_bound; lia).
    assert (ttl / 3600 < 2 ^ 21) as Hq'
      by (apply Z.div_lt_upper_bound; [lia|]; cbn; lia).
    destruct (Z.log2_spec (ttl / 3600)) as [Hlo Hhi]; [lia|]. fold k in Hlo, Hhi.
    assert (0 <= k) as Hk0 by apply Z.log2_nonneg.
    assert (k < 21) as Hk by (apply Z.log2_lt_pow2; lia).
    pose proof (Z.mul_div_le ttl 3600 ltac:(lia)) as Hd.
    pose proof (Z.mul_succ_div_gt ttl 3600 ltac:(lia)) as Hd'.
    assert (2 ^ k * 3600 <= ttl < 2 ^ (k + 1) * 3600) as Hb.
    { rewrite <- Z.add_1_r in Hhi. nia. }
    exists k. split; [lia|]. split; [|done].
    by apply preFactorWindow_bucket.
Qed.

Lemma preFactorWindow_mono (ttl1 ttl2 : Z) :
  is_uint32 ttl1 -> is_uint32 ttl2 -> ttl1 <= ttl2 ->
  preFactorWindow ttl1 <= preFactorWindow ttl2.
Proof.
  intros H1 H2 Hle.
  destruct (preFactorWindow_cases ttl1 H1) as [[_ ->]|(k1 & Hk1 & -> & Hb1)];
    destruct (preFactorWindow_cases ttl2 H2) as [[Hlt ->]|(k2 & Hk2 & -> & Hb2)].
  - done.
  - apply Z.pow_nonneg. lia.
  - assert (0 < 2 ^ k1) by (apply Z.pow_pos_nonneg; lia). nia.
  - apply Z.pow_le_mono_r; [lia|].
    destruct (Z.le_gt_cases k1 k2) as [|Hgt]; [done|exfalso].
    assert (2 ^ (k2 + 1) <= 2 ^ k1) by (apply Z.pow_le_mono_r; lia). nia.
Qed.

(** X17: the buckets of the router under the default name format.  For
    32-bit TTLs and a window factor that does not convert to 0, two TTLs get
    the same table exactly when they have the same pre-factor window (0 below
    one hour, else the largest power of two of hours within the TTL, at most
    [2^20]); TTLs with the same table get the same window size; the window
    size is [preFactorWindow / windowFactor + 1], between 1 and [2^20 + 1];
    and the pre-factor window and the window size grow with the TTL. *)
Theorem GetTTLTable_buckets (ttl1 ttl2 windowFactor : Z) :
  is_uint32 ttl1 -> is_uint32 ttl2 -> uint32 windowFactor <> 0 ->
  exists t1 t2 : ttlTable,
    GetTTLTable ttl1 windowFactor Table_name_format = Some t1
    /\ GetTTLTable ttl2 windowFactor Table_name_format = Some t2
    /\ (Table t1 = Table t2 <-> preFactorWindow ttl1 = preFactorWindow ttl2)
    /\ (Table t1 = Table t2 -> WindowSize t1 = WindowSize t2)
    /\ WindowSize t1 = preFactorWindow ttl1 / uint32 windowFactor + 1
    /\ 1 <= WindowSize t1 <= 2 ^ 20 + 1
    /\ (ttl1 <= ttl2 -> preFactorWindow ttl1 <= preFactorWindow ttl2
                        /\ WindowSize t1 <= WindowSize t2).
Proof.
  intros H1 H2 Hwf.
  rewrite !GetTTLTable_Some by done. eexists _, _.
  split; [done|]. split; [done|]. cbn [Table WindowSize].
  assert (0 < uint32 windowFactor) as Hpos.
  { unfold uint32 in *.
    pose proof (Z.mod_pos_bound windowFactor (2 ^ 32) ltac:(done)). lia. }
  assert (forall ttl, is_uint32 ttl ->
            0 <= preFactorWindow ttl <= 2 ^ 20) as Hrange.
  { intros ttl Hu.
    destruct (preFactorWindow_cases ttl Hu) as [[_ ->]|(k & Hk & -> & _)];
      [done|].
    split; [apply Z.pow_nonneg; lia|apply Z.pow_le_mono_r; lia]. }
  assert (forall ttl, is_uint32 ttl ->
            uint32 (preFactorWindow ttl / uint32 windowFactor + 1)
            = preFactorWindow ttl / uint32 windowFactor + 1
            /\ 0 <= preFactorWindow ttl / uint32 windowFactor <= 2 ^ 20) as Hws.
  { intros ttl Hu. destruct (Hrange ttl Hu) as [Hlo Hhi].
    assert (0 <= preFactorWindow ttl / uint32 windowFactor <= 2 ^ 20) as Hq.
    { split; [apply Z.div_pos; lia|].
      etrans; [apply Z.div_le_upper_bound; [lia|]|exact Hhi]. nia. }
    split; [|done]. apply uint32_small. cbn in *. lia. }
  destruct (Hws ttl1 H1) as [-> Hq1]. destruct (Hws ttl2 H2) as [-> Hq2].
  split; [split; [apply Table_name_inj|by intros ->]|].
  split; [by intros ->%Table_name_inj|].
  split; [done|]. split; [lia|].
  intros Hle. pose proof (preFactorWindow_mono ttl1 ttl2 H1 H2 Hle) as Hm.
  split; [done|].
  apply Z.add_le_mono_r, Z.div_le_mono; lia.
Qed.

Lemma GetTTLTable_buckets_witness :
  exists t1 t2 : ttlTable,
    GetTTLTable 3600 20 Table_name_format = Some t1
    /\ GetTTLTable 7200 20 Table_name_format = Some t2
    /\ (Table t1 = Table t2 <-> preFactorWindow 3600 = preFactorWindow 7200).
Proof.
  destruct (GetTTLTable_buckets 3600 7200 20)
    as (t1 & t2 & H1 & H2 & H3 & _); [by vm_compute..|].
  by exists t1, t2.
Defined.

End router_buckets.

(** ** The first store: [InsertChunk] and [searchCassandra] *)

Section legacy_store.
Import go fmt cassandra metric_tank.

Lemma stored_cell (db : database) :
  stored db ->
  forall (tbl rk : string) (ts : Z) (data : list Z),
  db !! (tbl, rk, ts) = Some data ->
  tbl = table /\ is_uint32 ts /\ exists k, rk = row_key k ts.
Proof.
  induction 1 as [|session db key t0 data e Hdb IH Ht0]; intros tbl rk ts d.
  - by rewrite lookup_empty.
  - unfold InsertChunk.
    destruct session; cbn [negb]; [|apply IH].
    destruct e as [|err [|]]; cbn [fst]; try apply IH;
      (intros [[[= <- <- <-] _]|[_ H]]%lookup_insert_Some;
       [split; [done|split; [done|by exists key]] | by eapply IH]).
Qed.

#[local] Instance by_ts_total : Total by_ts.
Proof. intros a b. unfold by_ts. lia. Qed.
#[local] Instance by_ts_trans : Transitive by_ts.
Proof. intros a b c. unfold by_ts. lia. Qed.

Lemma partition_elem (db : database) (rk : string) (ts : Z) (d : list Z) :
  (ts, d) ∈ partition db rk <-> db !! (table, rk, ts) = Some d.
Proof.
  unfold partition. rewrite merge_sort_Permutation, list_elem_of_omap. split.
  - intros ([[[tbl rk'] ts'] d'] & Hin & Hsel).
    case_bool_decide as Hb; [|done]. destruct Hb as [-> ->].
    injection Hsel as -> ->. by apply elem_of_map_to_list.
  - intros H. exists ((table, rk, ts), d). split.
    + by apply elem_of_map_to_list.
    + by rewrite bool_decide_eq_true_2.
Qed.

Lemma partition_sorted (db : database) (rk : string) :
  StronglySorted Z.lt (partition db rk).*1.
Proof.
  apply StronglySorted_le_lt.
  - assert (StronglySorted by_ts (partition db rk)) as Hs.
    { apply Sorted_StronglySorted; [apply _|]. apply Sorted_merge_sort; apply _. }
    induction Hs as [|r l _ IH Hall]; cbn; constructor; [done|].
    apply Forall_fmap. by eapply Forall_impl.
  - unfold partition. rewrite merge_sort_Permutation.
    apply NoDup_omap_fst; [apply NoDup_map_to_list|].
    intros [[[t1 k1] s1] d1] [[[t2 k2] s2] d2] ts d d' H1 H2 E1 E2.
    case_bool_decide as Hb1; [|done]. case_bool_decide as Hb2; [|done].
    destruct Hb1 as [-> ->], Hb2 as [-> ->].
    injection E1 as -> ->. injection E2 as -> ->.
    apply elem_of_map_to_list in H1, H2. rewrite H1 in H2. by injection H2 as ->.
Qed.

End legacy_store.

Section legacy_plan.
Import go fmt cassandra metric_tank.

Lemma plan_loop_mono (fuel : nat) : forall (key : string)
    (start end_ sm em month : Z) (acc l : list planned) (k : nat),
  plan_loop fuel key start end_ sm em month acc = Some l ->
  plan_loop (fuel + k) key start end_ sm em month acc = Some l.
Proof.
  induction fuel as [|fuel IH]; intros key start end_ sm em month acc l k;
    cbn; [done|].
  destruct (month <=? em); [apply IH|done].
Qed.

Lemma plan_loop_run (k : nat) : forall (fuel : nat) (key : string)
    (start end_ sm em month : Z) (acc : list planned),
  (k < fuel)%nat -> 0 <= month -> em + month_sec < 2 ^ 32 ->
  em < month + Z.of_nat k * month_sec <= em + month_sec ->
  plan_loop fuel key start end_ sm em month acc
  = Some (acc ++ ((fun i : nat =>
                     turn key start end_ sm em (month + Z.of_nat i * month_sec))
                    <$> seq 0 k)).
Proof.
  assert (0 < month_sec) as HM by done.
  induction k as [|k IH]; intros fuel key start end_ sm em month acc Hf Hm Hem Hk;
    (destruct fuel as [|fuel]; [lia|]); cbn [plan_loop].
  - destruct (Z.leb_spec month em); [lia|]. by rewrite app_nil_r.
  - destruct (Z.leb_spec month em); [|lia].
    assert (uint32 (month + month_sec) = month + month_sec) as ->
      by (unfold uint32; apply Z.mod_small; lia).
    rewrite IH by lia.
    rewrite <- app_assoc. cbn [seq fmap list_fmap app].
    rewrite Z.mul_0_l, Z.add_0_r.
    rewrite <- fmap_S_seq, <- list_fmap_compose.
    apply (f_equal Some), (f_equal (app acc)), (f_equal (cons _)).
    apply list_fmap_ext. intros _ i _. simpl. f_equal. lia.
Qed.

Variables (key : string) (start end_ : Z).
Hypothesis Hstart : 0 <= start <= end_.
Hypothesis Hend1 : 1 <= end_.
Hypothesis Hend : end_ - 1 < 1775 * month_sec.

Local Abbreviation sm := (month_sec * (start / month_sec)).
Local Abbreviation em := (month_sec * ((end_ - 1) / month_sec)).
Local Abbreviation n := (Z.to_nat ((end_ - 1) / month_sec - start / month_sec + 1)).

(** The months of the loop. *)
Local Abbreviation months :=
  ((fun i : nat => sm + Z.of_nat i * month_sec) <$> seq 0 n).

Lemma month_bounds :
  0 <= start / month_sec /\ (end_ - 1) / month_sec < 1775
  /\ start / month_sec <= (end_ - 1) / month_sec + 1
  /\ uint32 (start - start mod month_sec) = sm
  /\ uint32 (uint32 (end_ - 1) - uint32 (end_ - 1) mod month_sec) = em
  /\ sm <= start < sm + month_sec
  /\ em <= end_ - 1 < em + month_sec
  /\ 0 <= sm /\ sm + 1 < 2 ^ 32 /\ 0 <= em /\ em + month_sec < 2 ^ 32.
Proof.
  assert (0 < month_sec) as HM by done.
  pose proof (Z.mod_pos_bound start month_sec HM) as Hrs.
  pose proof (Z.mod_pos_bound (end_ - 1) month_sec HM) as Hre.
  assert (1775 * month_sec < 2 ^ 32) as Hmax by reflexivity.
  assert (start - start mod month_sec = sm) as Esm
    by (rewrite Z.mod_eq; lia).
  assert (end_ - 1 - (end_ - 1) mod month_sec = em) as Eem
    by (rewrite Z.mod_eq; lia).
  assert (0 <= start / month_sec) by (apply Z.div_pos; lia).
  assert ((end_ - 1) / month_sec < 1775)
    by (apply Z.div_lt_upper_bound; lia).
  assert (0 <= (end_ - 1) / month_sec) by (apply Z.div_pos; lia).
  assert (start / month_sec <= (end_ - 1) / month_sec + 1).
  { destruct (Z.eq_dec start end_) as [->|Hne].
    - replace end_ with ((end_ - 1) + 1) at 1 by lia.
      pose proof (Z.div_le_mono (end_ - 1 + 1) (end_ - 1 + 1 * month_sec)
                    month_sec HM ltac:(lia)) as Hd.
      rewrite Z.div_add in Hd by lia. lia.
    - pose proof (Z.div_le_mono start (end_ - 1) month_sec HM ltac:(lia)). lia. }
  assert (0 <= sm <= 1775 * month_sec) as Hsm by nia.
  assert (0 <= em <= 1774 * month_sec) as Hem by nia.
  assert (1775 * month_sec + 1 < 2 ^ 32) as Hmax1 by reflexivity.
  assert (1774 * month_sec + month_sec = 1775 * month_sec) as Hmax2
    by reflexivity.
  repeat split; try lia.
  - unfold uint32. rewrite Esm. apply Z.mod_small. lia.
  - unfold uint32. rewrite (Z.mod_small (end_ - 1)) by lia.
    rewrite Eem. apply Z.mod_small. lia.
Qed.

(** The queries of the search, in the order of the calls. *)
Lemma plan_explicit (fuel : nat) (pl : list planned) :
  plan fuel key start end_ = Some pl ->
  pl = {| month := sm; sortKey := sm; q := AtOrBefore (row_key key sm) start |}
       :: (if sm =? em
           then [{| month := sm; sortKey := sm + 1;
                    q := Between (row_key key sm) start end_ |}]
           else turn key start end_ sm em <$> months).
Proof.
  destruct month_bounds
    as (Hq0 & Hq1 & Hq & Esm & Eem & Hs & He & Hsm0 & Hsm1 & Hem0 & Hem1).
  assert (0 < month_sec) as HM by done.
  unfold plan. cbv zeta. rewrite Esm, Eem.
  destruct (Z.eqb_spec sm em) as [Heq|Hne].
  - intros [= <-]. do 3 f_equal. unfold uint32. apply Z.mod_small. lia.
  - intros Hpl. apply (plan_loop_mono _ _ _ _ _ _ _ _ _ (S n)) in Hpl.
    rewrite (plan_loop_run n) in Hpl by nia.
    injection Hpl as <-. cbn [app].
    rewrite <- list_fmap_compose. reflexivity.
Qed.

End legacy_plan.

Section list_facts.
Context {A : Type}.

Lemma filter_ext_elem (P Q : A -> Prop) `{!forall x, Decision (P x)}
    `{!forall x, Decision (Q x)} (l : list A) :
  (forall x, x ∈ l -> P x <-> Q x) -> filter P l = filter Q l.
Proof.
  induction l as [|x l IH]; intros Hext; [done|].
  rewrite !filter_cons.
  rewrite IH by (intros y Hy; apply Hext; by right).
  pose proof (Hext x ltac:(by left)) as Hx.
  destruct (decide (P x)) as [HP|HP], (decide (Q x)) as [HQ|HQ];
    try done; exfalso; tauto.
Qed.

Lemma filter_all (P : A -> Prop) `{!forall x, Decision (P x)} (l : list A) :
  (forall x, x ∈ l -> P x) -> filter P l = l.
Proof.
  induction l as [|x l IH]; intros Hall; [done|].
  rewrite filter_cons, decide_True by (apply Hall; by left).
  rewrite IH; [done|]. intros y Hy. apply Hall. by right.
Qed.

Lemma StronglySorted_filter (R : relation A) (P : A -> Prop)
    `{!forall x, Decision (P x)} (l : list A) :
  StronglySorted R l -> StronglySorted R (filter P l).
Proof.
  induction 1 as [|x l Hl IH Hx]; [constructor|].
  rewrite filter_cons. destruct (decide (P x)); [|done].
  constructor; [done|].
  rewrite Forall_forall in *. intros y Hy%list_elem_of_filter. apply Hx, Hy.
Qed.

(** The last element of a sorted list is above all the others. *)
Lemma StronglySorted_last (R : relation A) (l : list A) (x : A) :
  StronglySorted R l -> last l = Some x ->
  forall y, y ∈ l -> y = x \/ R y x.
Proof.
  intros Hs Hl. apply last_Some in Hl as [l' ->].
  intros y [Hy|Hy]%elem_of_app.
  - right. eapply StronglySorted_app_1_elem_of; [done..|by left].
  - left. by apply list_elem_of_singleton in Hy.
Qed.

End list_facts.

Section legacy_rows.
Import go fmt cassandra metric_tank.
Variable db : database.
Hypothesis Hdb : stored db.

Lemma partition_lt_ts (rk : string) : StronglySorted lt_ts (partition db rk).
Proof.
  pose proof (partition_sorted db rk) as H.
  induction (partition db rk) as [|r l IH]; [constructor|].
  cbn in H. apply StronglySorted_inv in H as [Hs Hr].
  constructor; [by apply IH|].
  rewrite Forall_fmap in Hr. by eapply Forall_impl.
Qed.

(** The rows of the partition of a month of a key are in that month. *)
Lemma partition_month (key : string) (m ts : Z) (d : list Z) :
  (ts, d) ∈ partition db (row_key key m) ->
  db !! (table, row_key key ts, ts) = Some d
  /\ ts / month_sec = m / month_sec /\ is_uint32 ts.
Proof.
  intros Hin%partition_elem.
  destruct (stored_cell db Hdb _ _ _ _ Hin) as (_ & Hu & k & Hk).
  apply row_key_inj_key in Hk as Hk'. destruct Hk' as [-> Hm].
  by rewrite <- Hk.
Qed.

End legacy_rows.

Section seq_facts.
Context {A : Type}.

Lemma elem_of_concat (x : A) (ls : list (list A)) :
  x ∈ concat ls <-> exists l, x ∈ l /\ l ∈ ls.
Proof.
  induction ls as [|l ls IH]; cbn.
  - split; [by intros ?%elem_of_nil|]. by intros (? & _ & ?%elem_of_nil).
  - rewrite elem_of_app, IH. split.
    + intros [Hx|(l' & Hx & Hl)]; [exists l; split; [done|by left]|].
      exists l'. split; [done|by right].
    + intros (l' & Hx & [->|Hl]%elem_of_cons); [by left|right; eauto].
Qed.

Lemma StronglySorted_fmap_seq (R : relation A) (f : nat -> A) (k : nat) :
  forall i0 : nat,
  (forall i j : nat, (i < j)%nat -> R (f i) (f j)) ->
  StronglySorted R (f <$> seq i0 k).
Proof.
  induction k as [|k IH]; intros i0 Hf; cbn; constructor; [by apply IH|].
  apply Forall_fmap, Forall_forall. intros j Hj%elem_of_seq. apply Hf. lia.
Qed.

Lemma StronglySorted_concat_seq (R : relation A) (B : nat -> list A) (k : nat) :
  forall i0 : nat,
  (forall i, StronglySorted R (B i)) ->
  (forall i j x y, (i < j)%nat -> x ∈ B i -> y ∈ B j -> R x y) ->
  StronglySorted R (concat (B <$> seq i0 k)).
Proof.
  induction k as [|k IH]; intros i0 Hs Hlt; cbn; [constructor|].
  apply StronglySorted_app_2; [|done|by apply IH].
  intros x y Hx Hy. apply elem_of_concat in Hy as (l & Hy & Hl).
  apply list_elem_of_fmap in Hl as (j & -> & Hj%elem_of_seq).
  apply (Hlt i0 j); [lia|done..].
Qed.

End seq_facts.

Section legacy_search.
Import go fmt cassandra metric_tank.
Variable db : database.
Hypothesis Hdb : stored db.
Variables (key : string) (start end_ : Z).
Hypothesis Hstart : 0 <= start <= end_.
Hypothesis Hend1 : 1 <= end_.
Hypothesis Hend : end_ - 1 < 1775 * month_sec.

Local Abbreviation sm := (month_sec * (start / month_sec)).
Local Abbreviation em := (month_sec * ((end_ - 1) / month_sec)).
Local Abbreviation n :=
  (Z.to_nat ((end_ - 1) / month_sec - start / month_sec + 1)).
Local Abbreviation month_of := (fun i : nat => sm + Z.of_nat i * month_sec).
Local Abbreviation in_range := (fun r : Z * list Z => start < r.1 /\ r.1 < end_).

(** The rows after [start]: those of the months of the range. *)
Local Abbreviation block :=
  (fun i : nat => filter in_range (partition db (row_key key (month_of i)))).

Lemma month_of_div (i : nat) :
  month_of i / month_sec = start / month_sec + Z.of_nat i.
Proof.
  cbv beta. rewrite Z.div_add by done. by rewrite Z.mul_comm, Z.div_mul.
Qed.

Lemma block_elem (i : nat) (r : Z * list Z) :
  r ∈ block i ->
  db !! (table, row_key key r.1, r.1) = Some r.2
  /\ r.1 / month_sec = start / month_sec + Z.of_nat i
  /\ start < r.1 < end_.
Proof.
  destruct r as [ts d]. intros [Hr Hin]%list_elem_of_filter.
  destruct (partition_month db Hdb key _ _ _ Hin) as (Hc & Hm & _).
  split; [done|]. split; [|done]. cbn [fst].
  by rewrite Hm, month_of_div.
Qed.

Lemma select_turn (i : nat) :
  (i < n)%nat -> sm <> em ->
  select db (q (turn key start end_ sm em (month_of i))) = block i.
Proof.
  intros Hi Hne.
  destruct (month_bounds start end_ Hstart Hend1 Hend)
    as (Hq0 & Hq1 & Hq & _ & _ & Hs & He & _).
  assert (0 < month_sec) as HM by done.
  assert (forall r, r ∈ partition db (row_key key (month_of i)) ->
            month_of i <= r.1 < month_of i + month_sec) as Hrow.
  { intros [ts d] Hin.
    destruct (partition_month db Hdb key _ _ _ Hin) as (_ & Hm & _).
    cbn [fst].
    rewrite month_of_div in Hm.
    pose proof (Z.mul_div_le ts month_sec HM).
    pose proof (Z.mul_succ_div_gt ts month_sec HM). nia. }
  assert (forall r, r ∈ partition db (row_key key (month_of i)) ->
            (month_of i <> em -> r.1 < end_)
            /\ (month_of i <> sm -> start < r.1)) as Hside.
  { intros r Hr%Hrow. clear Hrow. unfold month_sec in *. split; intros Hm; lia. }
  unfold turn. cbv zeta.
  change (Sprintf "%s_%d" [ArgString key; ArgUint32 (month_of i / month_sec)])
    with (row_key key (month_of i)).
  destruct (Z.eqb_spec (month_of i) sm) as [E1|E1];
    [|destruct (Z.eqb_spec (month_of i) em) as [E2|E2]]; cbn [q select].
  - apply filter_ext_elem. intros r [Hr _]%Hside.
    assert (month_of i <> em) as Hr' by lia. apply Hr in Hr'. tauto.
  - apply filter_ext_elem. intros r [_ Hr]%Hside. tauto.
  - symmetry. apply filter_all. intros r [Hr Hr']%Hside. tauto.
Qed.

(** The rows of the queries of a search, in the order of the calls. *)
Lemma plan_rows (fuel : nat) (pl : list planned) :
  plan fuel key start end_ = Some pl ->
  concat ((fun p => select db (q p)) <$> pl)
  = select db (AtOrBefore (row_key key sm) start)
    ++ concat (block <$> seq 0 n).
Proof.
  intros Hpl.
  rewrite (plan_explicit key start end_ Hstart Hend1 Hend fuel pl Hpl).
  cbn [fmap list_fmap concat q]. f_equal.
  destruct (Z.eqb_spec sm em) as [Heq|Hne].
  - assert (n = 1%nat) as -> by nia.
    cbn [fmap list_fmap concat seq select q].
    by rewrite Z.mul_0_l, Z.add_0_r.
  - rewrite <- !list_fmap_compose. f_equal.
    apply list_fmap_ext. intros j i Hi. cbn.
    apply lookup_seq in Hi as [-> Hi]. by apply select_turn.
Qed.

(** The month a query is tagged with is the month of its rows. *)
Lemma plan_month (fuel : nat) (pl : list planned) (p : planned)
    (r : Z * list Z) :
  plan fuel key start end_ = Some pl ->
  p ∈ pl -> r ∈ select db (q p) ->
  month p = month_sec * (r.1 / month_sec).
Proof.
  intros Hpl Hp Hr.
  destruct (month_bounds start end_ Hstart Hend1 Hend)
    as (Hq0 & Hq1 & Hq & _ & _ & Hs & He & _).
  assert (0 < month_sec) as HM by done.
  assert (forall m, r ∈ partition db (row_key key (month_sec * m)) ->
            month_sec * m = month_sec * (r.1 / month_sec)) as Hpart.
  { intros m Hin. destruct r as [ts d].
    destruct (partition_month db Hdb key _ _ _ Hin) as (_ & Hm & _).
    cbn [fst]. rewrite Hm, Z.mul_comm, Z.div_mul by lia. lia. }
  rewrite (plan_explicit key start end_ Hstart Hend1 Hend fuel pl Hpl) in Hp.
  apply elem_of_cons in Hp as [->|Hp].
  - cbn [q select month] in *. apply Hpart.
    destruct (last _) as [r'|] eqn:El; cbn in Hr; [|by apply elem_of_nil in Hr].
    apply list_elem_of_singleton in Hr as ->.
    apply last_Some_elem_of in El. by apply list_elem_of_filter in El as [_ ?].
  - destruct (Z.eqb_spec sm em) as [Heq|Hne].
    + apply list_elem_of_singleton in Hp as ->. cbn [q select month] in *.
      apply Hpart. by apply list_elem_of_filter in Hr as [_ ?].
    + apply list_elem_of_fmap in Hp as (m & -> & Hm).
      apply list_elem_of_fmap in Hm as (i & -> & Hi%elem_of_seq).
      rewrite select_turn in Hr by (done || lia).
      apply list_elem_of_filter in Hr as [_ Hr].
      replace (month (turn key start end_ sm em (month_of i)))
        with (month_of i) by (unfold turn; cbv zeta; by repeat case_match).
      replace (month_of i) with (month_sec * (start / month_sec + Z.of_nat i))
        in * by lia.
      by apply Hpart.
Qed.

(** The sort keys of the queries grow with the calls. *)
Lemma plan_sortKeys (fuel : nat) (pl : list planned) :
  plan fuel key start end_ = Some pl ->
  StronglySorted Z.lt (sortKey <$> pl).
Proof.
  intros Hpl.
  destruct (month_bounds start end_ Hstart Hend1 Hend)
    as (Hq0 & Hq1 & Hq & _ & _ & Hs & He & Hsm0 & Hsm1 & _).
  assert (1 < month_sec) as HM by done.
  rewrite (plan_explicit key start end_ Hstart Hend1 Hend fuel pl Hpl).
  cbn [fmap list_fmap sortKey].
  destruct (Z.eqb_spec sm em) as [Heq|Hne].
  - repeat constructor. cbn. lia.
  - assert (forall i : nat,
              month_of i + (if (i =? 0)%nat then 1 else 0)
              = sortKey (turn key start end_ sm em (month_of i))) as Hkey.
    { intros i. unfold turn. cbv zeta.
      destruct (Z.eqb_spec (month_of i) sm) as [E1|E1].
      - cbn [sortKey]. rewrite E1. rewrite uint32_small by (unfold is_uint32; lia).
        destruct (Nat.eqb_spec i 0); [done|nia].
      - destruct (Nat.eqb_spec i 0) as [->|_]; [lia|].
        by destruct (month_of i =? em); cbn [sortKey]; lia. }
    constructor.
    + rewrite <- !list_fmap_compose.
      apply StronglySorted_fmap_seq. intros i j Hij. cbn.
      rewrite <- !Hkey. destruct (Nat.eqb_spec i 0), (Nat.eqb_spec j 0); nia.
    + rewrite <- !list_fmap_compose. apply Forall_fmap, Forall_forall.
      intros i _. cbn. rewrite <- Hkey. destruct (Nat.eqb_spec i 0); nia.
Qed.

(** The rows of a search are in the order of [ts]. *)
Lemma plan_rows_sorted :
  StronglySorted lt_ts
    (select db (AtOrBefore (row_key key sm) start)
     ++ concat (block <$> seq 0 n)).
Proof.
  assert (0 < month_sec) as HM by done.
  apply StronglySorted_app_2.
  - intros x y Hx Hy. cbn [select] in Hx.
    destruct (last _) as [r'|] eqn:El; cbn in Hx; [|by apply elem_of_nil in Hx].
    apply list_elem_of_singleton in Hx as ->.
    apply last_Some_elem_of, list_elem_of_filter in El as [Hle _].
    apply elem_of_concat in Hy as (l & Hy & Hl).
    apply list_elem_of_fmap in Hl as (i & -> & _).
    apply list_elem_of_filter in Hy as [[Hlo _] _]. unfold lt_ts. lia.
  - cbn [select]. destruct (last _); repeat constructor.
  - apply StronglySorted_concat_seq.
    + intros i. apply StronglySorted_filter, partition_lt_ts.
    + intros i j x y Hij (_ & Hx & _)%block_elem (_ & Hy & _)%block_elem.
      unfold lt_ts.
      pose proof (Z.mul_div_le y.1 month_sec HM).
      pose proof (Z.mul_succ_div_gt x.1 month_sec HM). nia.
Qed.

End legacy_search.

Section legacy_scan.
Import go fmt cassandra metric_tank.
Variables (FormatStandardGoTsz : Z) (tszIter : Type)
  (NewIterator : list Z -> tszIter + error).

Local Abbreviation scanOutcome :=
  (metric_tank.scanOutcome FormatStandardGoTsz tszIter NewIterator).
Local Abbreviation scanOutcomes :=
  (metric_tank.scanOutcomes FormatStandardGoTsz tszIter NewIterator).

Local Abbreviation decoded :=
  (metric_tank.decoded FormatStandardGoTsz tszIter NewIterator).

Lemma scanOutcome_ok (m : Z) (rows : list (Z * list Z)) :
  forall acc iters : list (found tszIter),
  scanOutcome m rows acc = (iters, None) ->
  exists fs, iters = acc ++ fs /\ Forall2 (decoded m) rows fs.
Proof.
  induction rows as [|[ts b] rows IH]; intros acc iters; cbn [metric_tank.scanOutcome].
  - intros [= <-]. exists []. by rewrite app_nil_r.
  - destruct b as [|format payload]; [intros ?; simplify_eq|].
    destruct (length (format :: payload) <? 2)%nat; [intros ?; simplify_eq|].
    destruct (Z.eqb_spec format FormatStandardGoTsz) as [->|];
      cbn [negb]; [|intros ?; simplify_eq].
    destruct (NewIterator payload) as [iter|e] eqn:E; [|intros ?; simplify_eq].
    intros H. apply IH in H as (fs & -> & HF).
    exists (NewIter _ iter m ts :: fs). split; [by rewrite <- app_assoc|].
    constructor; [|done]. repeat split. by exists payload.
Qed.

Lemma scanOutcomes_ok (outs : list outcome) :
  forall acc iters : list (found tszIter),
  scanOutcomes outs acc = (iters, None) ->
  exists fs, iters = acc ++ fs
    /\ Forall2 (fun mr f => decoded mr.1 mr.2 f)
         (concat ((fun o => (fun r => (o_month o, r)) <$> rows (o_i o)) <$> outs))
         fs.
Proof.
  induction outs as [|o outs IH]; intros acc iters; cbn [metric_tank.scanOutcomes].
  - intros [= <-]. exists []. by rewrite app_nil_r.
  - destruct (scanOutcome (o_month o) (rows (o_i o)) acc) as [its [e|]] eqn:E;
      [intros ?; simplify_eq|].
    apply scanOutcome_ok in E as (fs1 & -> & H1).
    intros H. apply IH in H as (fs2 & -> & H2).
    exists (fs1 ++ fs2). split; [by rewrite <- app_assoc|].
    cbn [fmap list_fmap concat]. apply Forall2_app; [|done].
    by apply Forall2_fmap_l.
Qed.

End legacy_scan.

Section legacy_sort.
Import go fmt cassandra metric_tank.

#[local] Instance asc_total : Total asc.
Proof. intros a b. unfold asc. lia. Qed.
#[local] Instance asc_trans : Transitive asc.
Proof. intros a b c. unfold asc. lia. Qed.

Lemma NoDup_fmap_inj_elem {A B : Type} (f : A -> B) (l : list A) (x y : A) :
  NoDup (f <$> l) -> x ∈ l -> y ∈ l -> f x = f y -> x = y.
Proof.
  intros Hnd [i Hi]%list_elem_of_lookup [j Hj]%list_elem_of_lookup Hf.
  assert (i = j) as ->; [|congruence].
  eapply NoDup_lookup; [exact Hnd| |].
  - by rewrite list_lookup_fmap, Hi.
  - by rewrite list_lookup_fmap, Hj, Hf.
Qed.

Lemma StronglySorted_lt_NoDup (l : list Z) : StronglySorted Z.lt l -> NoDup l.
Proof.
  induction 1 as [|x l _ IH Hx]; constructor; [|done].
  intros Hin. rewrite Forall_forall in Hx. specialize (Hx x Hin). lia.
Qed.

(** Outcomes with growing sort keys are sorted back into their order,
    in whatever order they arrive. *)
Lemma sortAsc_arrival (outs arrival : list outcome) :
  StronglySorted Z.lt (o_sortKey <$> outs) -> arrival ≡ₚ outs ->
  sortAsc arrival = outs.
Proof.
  intros Hs Hp. apply (StronglySorted_unique_strong asc).
  - intros x1 x2 H1 H2 H12 H21. unfold sortAsc in H1.
    rewrite merge_sort_Permutation, Hp in H1.
    eapply (NoDup_fmap_inj_elem o_sortKey outs); [|done..|unfold asc in *; lia].
    by apply StronglySorted_lt_NoDup.
  - apply StronglySorted_merge_sort; apply _.
  - clear Hp. induction outs as [|o outs IH]; [constructor|].
    cbn in Hs. apply StronglySorted_inv in Hs as [Hs Ho].
    constructor; [by apply IH|].
    rewrite Forall_fmap in Ho. eapply Forall_impl; [exact Ho|].
    intros o' Hlt. unfold asc. cbn in Hlt. lia.
  - unfold sortAsc. by rewrite merge_sort_Permutation.
Qed.

End legacy_sort.

Section legacy_content.
Import go fmt cassandra metric_tank.
Variables (FormatStandardGoTsz : Z) (tszIter : Type)
  (NewIterator : list Z -> tszIter + error).
Variable db : database.
Hypothesis Hdb : stored db.
Variables (key : string) (start end_ : Z).
Hypothesis Hstart : 0 <= start <= end_.
Hypothesis Hend1 : 1 <= end_.
Hypothesis Hend : end_ - 1 < 1775 * month_sec.

Local Abbreviation sm := (month_sec * (start / month_sec)).
Local Abbreviation n :=
  (Z.to_nat ((end_ - 1) / month_sec - start / month_sec + 1)).
Local Abbreviation month_of := (fun i : nat => sm + Z.of_nat i * month_sec).
Local Abbreviation in_range := (fun r : Z * list Z => start < r.1 /\ r.1 < end_).
Local Abbreviation block :=
  (fun i : nat => filter in_range (partition db (row_key key (month_of i)))).
Local Abbreviation rows_all :=
  (select db (AtOrBefore (row_key key sm) start) ++ concat (block <$> seq 0 n)).

Local Abbreviation last_before := (metric_tank.last_before db key start).

Lemma row_key_sm (ts : Z) :
  ts / month_sec = start / month_sec -> row_key key ts = row_key key sm.
Proof.
  intros H. apply row_key_inj. change Month_sec with month_sec.
  by rewrite H, Z.mul_comm, Z.div_mul.
Qed.

Lemma rows_all_elem (ts : Z) (d : list Z) :
  (ts, d) ∈ rows_all
  <-> db !! (table, row_key key ts, ts) = Some d
      /\ (start < ts < end_ \/ last_before ts).
Proof.
  assert (0 < month_sec) as HM by done.
  destruct (month_bounds start end_ Hstart Hend1 Hend)
    as (Hq0 & Hq1 & Hq & _ & _ & Hs & He & _).
  pose proof (partition_lt_ts db (row_key key sm)) as Hsorted.
  rewrite elem_of_app. split.
  - intros [Hh|Hb].
    + cbn [select] in Hh.
      destruct (last _) as [r|] eqn:El; cbn in Hh; [|by apply elem_of_nil in Hh].
      apply list_elem_of_singleton in Hh as <-.
      pose proof (last_Some_elem_of _ _ El) as Hin.
      apply list_elem_of_filter in Hin as [Hle Hin]. cbn in Hle.
      destruct (partition_month db Hdb key _ _ _ Hin) as (Hc & Hm & _).
      rewrite Z.mul_comm, Z.div_mul in Hm by lia.
      split; [done|]. right. split; [done|]. split; [done|].
      intros ts' d' Hc' Hle' Hm'.
      assert ((ts', d') ∈ filter (fun r => r.1 <= start)
                            (partition db (row_key key sm))) as Hin'.
      { apply list_elem_of_filter. split; [done|].
        apply partition_elem. by rewrite <- (row_key_sm ts'). }
      destruct (StronglySorted_last lt_ts _ _
                  (StronglySorted_filter _ _ _ Hsorted) El _ Hin')
        as [[= -> _]|Hlt]; [lia|]. unfold lt_ts in Hlt. cbn in Hlt. lia.
    + apply elem_of_concat in Hb as (l & Hb & Hl).
      apply list_elem_of_fmap in Hl as (i & -> & _).
      apply (block_elem db Hdb) in Hb as (Hc & _ & Hr). split; [done|by left].
  - intros [Hc [Hr|(Hle & Hm & Hmax)]].
    + right. apply elem_of_concat.
      set (i := Z.to_nat (ts / month_sec - start / month_sec)).
      assert (start / month_sec <= ts / month_sec <= (end_ - 1) / month_sec)
        as Hq'.
      { split; apply Z.div_le_mono; lia. }
      assert (row_key key ts = row_key key (month_of i)) as Hrk.
      { apply row_key_inj. change Month_sec with month_sec.
        rewrite (month_of_div start i). lia. }
      exists (block i). split.
      * apply list_elem_of_filter. split; [done|].
        apply partition_elem. by rewrite <- Hrk.
      * apply list_elem_of_fmap. exists i. split; [done|].
        apply elem_of_seq. lia.
    + left. cbn [select].
      assert ((ts, d) ∈ filter (fun r => r.1 <= start)
                          (partition db (row_key key sm))) as Hin.
      { apply list_elem_of_filter. split; [done|].
        apply partition_elem. by rewrite <- (row_key_sm ts). }
      destruct (last _) as [[ts' d']|] eqn:El.
      2: { apply last_None in El. rewrite El in Hin.
           by apply elem_of_nil in Hin. }
      pose proof (last_Some_elem_of _ _ El) as Hin'.
      apply list_elem_of_filter in Hin' as [Hle' Hin']. cbn in Hle'.
      destruct (partition_month db Hdb key _ _ _ Hin') as (Hc' & Hm' & _).
      rewrite Z.mul_comm, Z.div_mul in Hm' by lia.
      destruct (StronglySorted_last lt_ts _ _
                  (StronglySorted_filter _ _ _ Hsorted) El _ Hin)
        as [->|Hlt]; [cbn; by left|].
      unfold lt_ts in Hlt. cbn in Hlt.
      specialize (Hmax ts' d' Hc' Hle' Hm'). lia.
Qed.

(** X18: what the first store's [searchCassandra] returns.  On a database
    that [InsertChunk] filled, for [0 <= start <= end], [1 <= end] and a
    range without wrap-around, when every query ran to its end and every row
    decodes, the iterators returned are, in whatever order the results of the
    queries arrived, in strictly increasing order of [t0]; they are those of
    the chunks of the key with [start < t0 < end] and of the last chunk of
    the month of [start] with [t0 <= start], and no other; and each is
    [tsz.NewIterator] of the stored payload, tagged with the month of its
    chunk. *)
Theorem searchCassandra_content (fuel : nat) (pl : list planned)
    (outs arrival : list outcome) (iters : list (found tszIter)) :
  plan fuel key start end_ = Some pl ->
  Forall2 (ran db) pl outs ->
  Forall (fun o => closeErr (o_i o) = None) outs ->
  arrival ≡ₚ outs ->
  searchCassandra FormatStandardGoTsz tszIter NewIterator start end_ arrival
  = (iters, None) ->
  StronglySorted Z.lt (f_t0 _ <$> iters)
  /\ (forall ts : Z,
        ts ∈ f_t0 _ <$> iters
        <-> exists data, db !! (table, row_key key ts, ts) = Some data
              /\ (start < ts < end_ \/ last_before ts))
  /\ (forall f : found tszIter,
        f ∈ iters ->
        f_month _ f = month_sec * (f_t0 _ f / month_sec)
        /\ exists payload,
             db !! (table, row_key key (f_t0 _ f), f_t0 _ f)
             = Some (FormatStandardGoTsz :: payload)
             /\ NewIterator payload = inl (it _ f)).
Proof.
  intros Hpl Hran Hclose Hperm Hsearch.
  unfold searchCassandra in Hsearch.
  destruct (Z.ltb_spec end_ start); [lia|].
  rewrite (sortAsc_arrival outs arrival) in Hsearch; [|
    |done].
  2: { replace (o_sortKey <$> outs) with (sortKey <$> pl).
       - by eapply plan_sortKeys.
       - clear -Hran. induction Hran as [|p o pl outs (_ & Hk & _) _ IH];
           [done|]. cbn. by rewrite Hk, IH. }
  apply scanOutcomes_ok in Hsearch as (fs & -> & HF). cbn [app] in *.
  (* the tagged rows of the outcomes are those of the plan *)
  assert (concat ((fun o => (fun r => (o_month o, r)) <$> rows (o_i o)) <$> outs)
          = concat ((fun p => (fun r => (month p, r)) <$> select db (q p)) <$> pl))
    as Htag.
  { clear -Hran Hclose. induction Hran as [|p o pl outs (Hm & _ & Hr) _ IH];
      [done|]. apply Forall_cons in Hclose as [Hc Hclose].
    cbn. by rewrite Hm, (Hr Hc), IH. }
  rewrite Htag in HF. clear Htag.
  set (tagged := concat ((fun p => (fun r => (month p, r)) <$> select db (q p))
                           <$> pl)) in *.
  assert (tagged.*2 = rows_all) as Hrows.
  { rewrite <- (plan_rows db Hdb key start end_ Hstart Hend1 Hend fuel pl Hpl).
    unfold tagged. clear. induction pl as [|p pl IH]; [done|].
    cbn. rewrite fmap_app, IH. f_equal.
    rewrite <- list_fmap_compose. by rewrite list_fmap_id. }
  assert (forall mr, mr ∈ tagged -> mr.1 = month_sec * (mr.2.1 / month_sec))
    as Hmonth.
  { intros [m r] Hin. unfold tagged in Hin.
    apply elem_of_concat in Hin as (l & Hin & Hl).
    apply list_elem_of_fmap in Hl as (p & -> & Hp).
    apply list_elem_of_fmap in Hin as (r' & [= -> ->] & Hr).
    by eapply (plan_month db Hdb key start end_ Hstart Hend1 Hend). }
  assert (f_t0 _ <$> fs = rows_all.*1) as Hts.
  { rewrite <- Hrows. clear -HF.
    induction HF as [|mr f l fs (_ & Ht & _) _ IH]; [done|].
    cbn. by rewrite Ht, IH. }
  split; [|split].
  - rewrite Hts.
    apply (StronglySorted_fmap _ lt_ts); [by intros a b|].
    by apply plan_rows_sorted.
  - intros ts. rewrite Hts, list_elem_of_fmap. split.
    + intros ([ts' d] & -> & Hin). exists d. by apply rows_all_elem.
    + intros (d & Hc). exists (ts, d). split; [done|]. by apply rows_all_elem.
  - intros f Hin. apply list_elem_of_lookup in Hin as [j Hj].
    destruct (Forall2_lookup_r _ _ _ _ _ HF Hj)
      as ([m [ts d]] & Hmr & Hm & Ht & payload & Hd & HN).
    cbn in Hm, Ht, Hd. subst d.
    assert ((m, (ts, FormatStandardGoTsz :: payload)) ∈ tagged) as Hin
      by (by eapply list_elem_of_lookup_2).
    pose proof (Hmonth _ Hin) as Hm'. cbn in Hm'.
    rewrite Hm, Ht. split; [done|]. exists payload. split; [|done].
    assert ((ts, FormatStandardGoTsz :: payload) ∈ rows_all) as Hr.
    { rewrite <- Hrows. apply list_elem_of_fmap. by exists (m, (ts, FormatStandardGoTsz :: payload)). }
    by apply rows_all_elem in Hr as [? _].
Qed.

End legacy_content.

Section legacy_errors.
Import go fmt cassandra metric_tank.
Variables (FormatStandardGoTsz : Z) (tszIter : Type)
  (NewIterator : list Z -> tszIter + error).

Local Abbreviation scanOutcome :=
  (metric_tank.scanOutcome FormatStandardGoTsz tszIter NewIterator).
Local Abbreviation scanOutcomes :=
  (metric_tank.scanOutcomes FormatStandardGoTsz tszIter NewIterator).

(** The error that the row [r] ends the scan with. *)
Local Abbreviation undecodable := (fun (r : Z * list Z) (e : error) =>
  ((length r.2 < 2)%nat /\ e = errSmallChunk)
  \/ (exists format payload, r.2 = format :: payload
        /\ ((format <> FormatStandardGoTsz /\ e = errFormat)
            \/ NewIterator payload = inr e))).

Lemma scanOutcome_error (m : Z) (rows : list (Z * list Z)) :
  forall (acc iters : list (found tszIter)) (e : error),
  scanOutcome m rows acc = (iters, Some e) ->
  exists r, r ∈ rows /\ undecodable r e.
Proof.
  induction rows as [|[ts b] rows IH]; intros acc iters e;
    cbn [metric_tank.scanOutcome]; [done|].
  destruct b as [|format payload].
  { intros [= _ <-]. exists (ts, []). split; [by left|]. left. cbn. split; [lia|done]. }
  destruct (Nat.ltb_spec (length (format :: payload)) 2).
  { intros [= _ <-]. exists (ts, format :: payload). split; [by left|]. by left. }
  destruct (Z.eqb_spec format FormatStandardGoTsz) as [->|Hne]; cbn [negb].
  2: { intros [= _ <-]. exists (ts, format :: payload). split; [by left|].
       right. exists format, payload. split; [done|]. by left. }
  destruct (NewIterator payload) as [iter|e'] eqn:E.
  - intros (r & Hr & Hu)%IH. exists r. split; [by right|done].
  - intros [= _ <-]. exists (ts, FormatStandardGoTsz :: payload).
    split; [by left|]. right. exists FormatStandardGoTsz, payload.
    split; [done|]. by right.
Qed.

Lemma scanOutcomes_error (outs : list outcome) :
  forall (acc iters : list (found tszIter)) (e : error),
  scanOutcomes outs acc = (iters, Some e) ->
  exists o r, o ∈ outs /\ r ∈ rows (o_i o) /\ undecodable r e.
Proof.
  induction outs as [|o outs IH]; intros acc iters e;
    cbn [metric_tank.scanOutcomes]; [done|].
  destruct (scanOutcome (o_month o) (rows (o_i o)) acc) as [its [e'|]] eqn:E.
  - intros [= _ <-]. apply scanOutcome_error in E as (r & Hr & Hu).
    exists o, r. split; [by left|done].
  - intros (o' & r & Ho & Hr)%IH. exists o', r. split; [by right|done].
Qed.

(** X19: the errors of [searchCassandra].  It returns an error only when
    [start > end] (with no iterators) or when a row that a query delivered
    does not decode: it is shorter than 2 bytes, its format is not
    [FormatStandardGoTsz], or [tsz.NewIterator] rejects the payload.  An error
    of a query ([Close]) is never returned: it is logged, and the search goes
    on with the rows it got. *)
Theorem searchCassandra_errors (start end_ : Z) (arrival : list outcome)
    (iters : list (found tszIter)) (e : error) :
  searchCassandra FormatStandardGoTsz tszIter NewIterator start end_ arrival
  = (iters, Some e) ->
  (end_ < start /\ e = errStartAfterEnd /\ iters = [])
  \/ (start <= end_
      /\ exists o r, o ∈ arrival /\ r ∈ rows (o_i o)
           /\ (((length r.2 < 2)%nat /\ e = errSmallChunk)
               \/ exists format payload, r.2 = format :: payload
                    /\ ((format <> FormatStandardGoTsz /\ e = errFormat)
                        \/ NewIterator payload = inr e))).
Proof.
  unfold searchCassandra. destruct (Z.ltb_spec end_ start).
  - intros [= <- <-]. by left.
  - intros (o & r & Ho & Hr)%scanOutcomes_error. right. split; [done|].
    exists o, r. split; [|done].
    unfold sortAsc in Ho. by rewrite merge_sort_Permutation in Ho.
Qed.

End legacy_errors.

Section legacy_examples.
Import go fmt cassandra metric_tank.

Lemma searchCassandra_content_witness :
  let iters := [NewIter (list Z) [9] 0 600; NewIter (list Z) [7] 0 1200] in
  StronglySorted Z.lt (f_t0 _ <$> iters)
  /\ (forall ts : Z,
        ts ∈ f_t0 _ <$> iters
        <-> exists data,
              scenario.legacy_db !! (table, row_key "foo" ts, ts) = Some data
              /\ (700 < ts < 1800
                  \/ last_before scenario.legacy_db "foo" 700 ts)).
Proof.
  intros iters.
  destruct (searchCassandra_content 0 (list Z) inl scenario.legacy_db
              ltac:(unfold scenario.legacy_db; repeat apply stored_insert;
                    try apply stored_empty; unfold is_uint32; lia)
              "foo" 700 1800 ltac:(lia) ltac:(lia)
              ltac:(vm_compute; reflexivity) 2
              [{| month := 0; sortKey := 0; q := AtOrBefore "foo_0" 700 |};
               {| month := 0; sortKey := 1; q := Between "foo_0" 700 1800 |}]
              [{| o_month := 0; o_sortKey := 0;
                  o_i := scenario.at_or_before |};
               {| o_month := 0; o_sortKey := 1; o_i := scenario.between |}]
              [{| o_month := 0; o_sortKey := 1; o_i := scenario.between |};
               {| o_month := 0; o_sortKey := 0;
                  o_i := scenario.at_or_before |}]
              iters) as (H1 & H2 & _).
  - reflexivity.
  - repeat constructor.
  - repeat constructor.
  - apply perm_swap.
  - reflexivity.
  - split; [exact H1|exact H2].
Defined.

Lemma searchCassandra_errors_witness :
  (3 < 5 /\ errStartAfterEnd = errStartAfterEnd
   /\ @nil (found (list Z)) = [])
  \/ (5 <= 3
      /\ exists o r, o ∈ @nil outcome /\ r ∈ rows (o_i o)
           /\ (((length r.2 < 2)%nat /\ errStartAfterEnd = errSmallChunk)
               \/ exists format payload, r.2 = format :: payload
                    /\ ((format <> 0 /\ errStartAfterEnd = errFormat)
                        \/ @inl (list Z) error payload
                           = inr errStartAfterEnd))).
Proof.
  exact (searchCassandra_errors 0 (list Z) inl 5 3 [] [] errStartAfterEnd
           eq_refl).
Defined.

End legacy_examples.

(** ** Reading back what was written *)
Section search_round_trip.
Import go fmt cassandra.
Variables (RevChunkSpans ChunkSpans : Z -> option Z) (c : CassandraStore)
  (db : database) (cwr : ChunkWriteRequest).

End search_round_trip.

(** ** Setting up a store *)
Section attempt_loop.
Import go fmt cassandra.
Variables (keyspace : string) (g : gocql).

Lemma notFound_None (tables : gset string) (range : list (Z * ttlTable)) :
  notFound tables range = None
  <-> forall e, e ∈ range -> Table e.2 ∈ tables.
Proof.
  induction range as [|[ttl t] range IH]; cbn.
  - split; [|done]. intros _ e He. by apply elem_of_nil in He.
  - destruct (decide (Table t ∈ tables)) as [Hin|Hout].
    + rewrite IH. split.
      * intros H e [->|He]%elem_of_cons; [done|by apply H].
      * intros H e He. apply H. by right.
    + split; [done|]. intros H. destruct Hout. apply (H (ttl, t)). by left.
Qed.

Lemma notFound_Some (tables : gset string) (range : list (Z * ttlTable))
    (table : string) :
  notFound tables range = Some table ->
  (table ∉ tables) /\ exists e, e ∈ range /\ Table e.2 = table.
Proof.
  induction range as [|[ttl t] range IH]; cbn; [done|].
  destruct (decide (Table t ∈ tables)) as [Hin|Hout].
  - intros H. destruct (IH H) as (? & e & ? & ?). split; [done|].
    exists e. split; [by right|done].
  - intros [= <-]. split; [done|]. exists (ttl, t). split; [by left|done].
Qed.

Lemma passes_verified (ttlTables : gmap Z ttlTable) (a : Z) :
  ranges g a ≡ₚ map_to_list ttlTables ->
  passes g a <-> verified g ttlTables a.
Proof.
  intros Hr. unfold passes, verified.
  split; intros (tables & Hk & H); exists tables; (split; [done|]).
  - intros ttl t Ht. rewrite notFound_None in H.
    apply (H (ttl, t)). rewrite Hr. by apply elem_of_map_to_list.
  - apply notFound_None. intros [ttl t] He. apply (H ttl).
    apply elem_of_map_to_list. by rewrite <- Hr.
Qed.

Lemma passes_found (a : Z) (tables : gset string) :
  KeyspaceMetadata g a = inl tables ->
  notFound tables (ranges g a) = None <-> passes g a.
Proof.
  intros Hk. unfold passes. split; [by exists tables|].
  intros (tables' & Hk' & H). congruence.
Qed.

Lemma not_passes_error (a : Z) (err : error) :
  KeyspaceMetadata g a = inr err -> ~ passes g a.
Proof. intros Hk (tables & Hk' & _). congruence. Qed.

(** The loop from attempt [5 - k] on. *)
Lemma AttemptLoop_from (k : nat) : forall fuel : nat,
  (k <= 4)%nat -> (k < fuel)%nat ->
  let a := 5 - Z.of_nat k in
  exists (calls : list call) (r : option (option error)) (n : nat),
    AttemptLoop fuel keyspace g a = Some (calls, r)
    /\ (1 <= n)%nat /\ a + Z.of_nat n <= 6
    /\ metadataCalls calls = replicate n keyspace
    /\ pauses calls = replicate (n - 1) (5 * Second)
    /\ (forall b, a <= b < a + Z.of_nat n - 1 -> ~ passes g b)
    /\ match r with
       | None => passes g (a + Z.of_nat n - 1)
       | Some err =>
           a + Z.of_nat n = 6 /\ ~ passes g 5
           /\ err = match KeyspaceMetadata g 5 with
                    | inr e => Some e
                    | inl _ => None
                    end
       end.
Proof.
  induction k as [|k IH]; intros fuel Hk Hf a; subst a.
  - destruct fuel as [|fuel]; [lia|]. cbn [AttemptLoop].
    change (5 - Z.of_nat 0) with 5. change (0 <? 5) with true.
    change (5 <=? 5) with true. cbv iota.
    destruct (KeyspaceMetadata g 5) as [tables|err] eqn:Hm.
    + destruct (notFound tables (ranges g 5)) as [table|] eqn:Hn.
      * eexists _, _, 1%nat. split; [done|]. repeat split; try done; try lia.
        rewrite <- (passes_found 5 tables Hm). congruence.
      * eexists _, _, 1%nat. split; [done|]. repeat split; try done; try lia.
        by apply (passes_found 5 tables Hm).
    + eexists _, _, 1%nat. split; [done|]. repeat split; try done; try lia.
      by eapply not_passes_error.
  - destruct fuel as [|fuel]; [lia|]. cbn [AttemptLoop].
    set (a := 5 - Z.of_nat (S k)).
    assert (1 <= a <= 4) as Ha by lia.
    assert (int (a + 1) = 5 - Z.of_nat k) as Hnext.
    { unfold int. rewrite Z.mod_small; lia. }
    destruct (0 <? a) eqn:H0; [|lia].
    destruct (5 <=? a) eqn:H5; [lia|].
    rewrite Hnext.
    destruct (IH fuel ltac:(lia) ltac:(lia))
      as (calls & r & n & -> & Hn1 & Hn6 & Hmc & Hpauses & Hnot & Hr).
    assert (forall calls0 : list call,
              metadataCalls calls0 = [keyspace] ->
              pauses calls0 = [5 * Second] ->
              ~ passes g a ->
              exists (calls' : list call) (r' : option (option error))
                     (n' : nat),
                Some (calls0 ++ calls, r) = Some (calls', r')
                /\ (1 <= n')%nat /\ a + Z.of_nat n' <= 6
                /\ metadataCalls calls' = replicate n' keyspace
                /\ pauses calls' = replicate (n' - 1) (5 * Second)
                /\ (forall b, a <= b < a + Z.of_nat n' - 1 ->
                      ~ passes g b)
                /\ match r' with
                   | None => passes g (a + Z.of_nat n' - 1)
                   | Some err =>
                       a + Z.of_nat n' = 6 /\ ~ passes g 5
                       /\ err = match KeyspaceMetadata g 5 with
                                | inr e => Some e
                                | inl _ => None
                                end
                   end) as Hagain.
    { intros calls0 Hm0 Hn0 Hnv. exists (calls0 ++ calls), r, (S n).
      split; [done|]. split; [lia|]. split; [lia|].
      unfold metadataCalls, pauses in *. rewrite !omap_app, Hm0, Hn0, Hmc, Hpauses.
      split; [done|]. split.
      { destruct n; [lia|]. cbn. by rewrite Nat.sub_0_r. }
      split.
      - intros b Hb. destruct (decide (b = a)) as [->|]; [done|].
        apply Hnot. lia.
      - replace (a + Z.of_nat (S n) - 1)
          with (5 - Z.of_nat k + Z.of_nat n - 1) by lia.
        destruct r; [|done]. split; [lia|]. apply Hr. }
    destruct (KeyspaceMetadata g a) as [tables|err] eqn:Hm.
    + destruct (notFound tables (ranges g a)) as [table|] eqn:Hnf.
      * apply Hagain; [done..|].
        rewrite <- (passes_found a tables Hm). congruence.
      * eexists _, _, 1%nat. split; [done|].
        repeat split; try done; try lia.
        replace (a + Z.of_nat 1 - 1) with a by lia.
        by apply (passes_found a tables Hm).
    + apply Hagain; [done..|]. by eapply not_passes_error.
Qed.

End attempt_loop.

Section attempt_loop2.
Import go fmt cassandra.
Variables (keyspace : string) (g : gocql).

Lemma AttemptLoop_mono (fuel : nat) : forall (fuel' : nat) (a : Z) x,
  (fuel <= fuel')%nat ->
  AttemptLoop fuel keyspace g a = Some x ->
  AttemptLoop fuel' keyspace g a = Some x.
Proof.
  induction fuel as [|fuel IH]; intros fuel' a x Hle; [done|].
  destruct fuel' as [|fuel']; [lia|]. cbn [AttemptLoop].
  destruct (0 <? a); [|done].
  destruct (AttemptLoop fuel keyspace g (int (a + 1))) as [y|] eqn:E.
  - by rewrite (IH fuel' _ y ltac:(lia) E).
  - destruct (KeyspaceMetadata g a) as [tables|err];
      [destruct (notFound tables (ranges g a))|]; destruct (5 <=? a); done.
Qed.

Lemma AttemptLoop_no_go (fuel : nat) : forall (a : Z) calls r,
  AttemptLoop fuel keyspace g a = Some (calls, r) ->
  writers calls = [] /\ readers calls = [].
Proof.
  induction fuel as [|fuel IH]; intros a calls r; [done|]. cbn [AttemptLoop].
  destruct (0 <? a); [|by intros [= <- <-]].
  destruct (AttemptLoop fuel keyspace g (int (a + 1))) as [[calls' r']|] eqn:E.
  - destruct (IH _ _ _ E) as [Hw Hr]. unfold writers, readers in *.
    destruct (KeyspaceMetadata g a) as [tables|err];
      [destruct (notFound tables (ranges g a))|]; destruct (5 <=? a);
      intros [= <- <-]; rewrite ?omap_app, ?Hw, ?Hr; done.
  - destruct (KeyspaceMetadata g a) as [tables|err];
      [destruct (notFound tables (ranges g a))|]; destruct (5 <=? a);
      intros ?; by simplify_eq.
Qed.

(** What the loop returns, whatever the fuel. *)
Lemma AttemptLoop_result (fuel : nat) (calls : list call)
    (r : option (option error)) :
  AttemptLoop fuel keyspace g 1 = Some (calls, r) ->
  match r with
  | None => exists a, 1 <= a <= 5 /\ passes g a
  | Some err =>
      (forall a, 1 <= a <= 5 -> ~ passes g a)
      /\ err = match KeyspaceMetadata g 5 with
               | inr e => Some e
               | inl _ => None
               end
  end.
Proof.
  intros H.
  apply (AttemptLoop_mono fuel (fuel + 5)) in H; [|lia].
  destruct (AttemptLoop_from keyspace g 4 (fuel + 5) ltac:(lia) ltac:(lia))
    as (calls' & r' & n & H' & Hn1 & Hn6 & _ & _ & Hnot & Hr).
  change (5 - Z.of_nat 4) with 1 in *. rewrite H in H'.
  injection H' as <- <-. destruct r as [err|].
  - destruct Hr as (Hn & H5 & ?). split; [|done]. intros a Ha.
    destruct (decide (a = 5)) as [->|]; [done|]. apply Hnot. lia.
  - eexists. split; [|exact Hr]. lia.
Qed.

End attempt_loop2.

Section create_tables.
Import go fmt cassandra.
Variables (keyspace : string) (exec : nat -> option error).

Lemma createTables_no_go (range : list (Z * ttlTable)) : forall n calls r,
  createTables keyspace exec n range = (calls, r) ->
  writers calls = [] /\ readers calls = [].
Proof.
  induction range as [|[ttl t] range IH]; intros n calls r; cbn.
  - by intros [= <- <-].
  - destruct (exec n) as [err|]; [by intros [= <- <-]|].
    destruct (createTables keyspace exec (S n) range) as [calls' r'] eqn:E.
    intros [= <- <-]. by apply IH in E.
Qed.

Lemma createTables_created (range : list (Z * ttlTable)) : forall n calls,
  createTables keyspace exec n range = (calls, None) ->
  forall e, e ∈ range ->
  CallExecTable keyspace (Table e.2) (WindowSize e.2)
    (uint32 (uint32 (WindowSize e.2 * 60) * 60)) None ∈ calls.
Proof.
  induction range as [|[ttl t] range IH]; intros n calls; cbn.
  - intros _ e He. by apply elem_of_nil in He.
  - destruct (exec n) as [err|] eqn:Hn; [done|].
    destruct (createTables keyspace exec (S n) range) as [calls' r'] eqn:E.
    intros [= <- ->] e [->|He]%elem_of_cons.
    + right. by left.
    + do 2 right. by eapply IH.
Qed.

Lemma createTables_error (range : list (Z * ttlTable)) : forall n calls err,
  createTables keyspace exec n range = (calls, Some err) ->
  exists m, (n <= m < n + length range)%nat /\ exec m = Some err
    /\ forall k, (n <= k < m)%nat -> exec k = None.
Proof.
  induction range as [|[ttl t] range IH]; intros n calls err; cbn; [done|].
  destruct (exec n) as [err'|] eqn:Hn.
  - intros [= <- <-]. exists n. split; [lia|]. split; [done|]. lia.
  - destruct (createTables keyspace exec (S n) range) as [calls' r'] eqn:E.
    intros [= <- ->]. destruct (IH _ _ _ E) as (m & Hm & He & Hk).
    exists m. split; [lia|]. split; [done|]. intros k Hk'.
    destruct (decide (k = n)) as [->|]; [done|]. apply Hk. lia.
Qed.

Lemma createTables_ok (range : list (Z * ttlTable)) : forall n calls,
  createTables keyspace exec n range = (calls, None) ->
  forall m, (n <= m < n + length range)%nat -> exec m = None.
Proof.
  induction range as [|[ttl t] range IH]; intros n calls; cbn; [lia|].
  destruct (exec n) as [err|] eqn:Hn; [done|].
  destruct (createTables keyspace exec (S n) range) as [calls' r'] eqn:E.
  intros [= <- ->] m Hm.
  destruct (decide (m = n)) as [->|]; [done|]. eapply IH; [done|lia].
Qed.

End create_tables.

Section window_seconds.
Import go fmt cassandra.

(** The window of a table of a 32-bit TTL, in seconds, does not wrap. *)
Lemma WindowSize_seconds (ttl windowFactor : Z) (nameFormat : string)
    (t : ttlTable) :
  is_uint32 ttl ->
  GetTTLTable ttl windowFactor nameFormat = Some t ->
  1 <= WindowSize t <= 2 ^ 20 + 1
  /\ uint32 (uint32 (WindowSize t * 60) * 60) = WindowSize t * 3600.
Proof.
  intros Hu. unfold GetTTLTable.
  destruct (uint32 windowFactor =? 0) eqn:H0; [done|]. intros [= <-]. cbn.
  apply Z.eqb_neq in H0.
  assert (0 < uint32 windowFactor) as Hwf.
  { unfold uint32 in *. pose proof (Z.mod_pos_bound windowFactor (2 ^ 32)).
    lia. }
  assert (2 ^ 20 = 1048576) as H20 by done. rewrite H20.
  assert (0 <= preFactorWindow ttl <= 1048576) as Hp.
  { destruct (preFactorWindow_cases ttl Hu) as [[_ ->]|(k & Hk & -> & _)];
      [lia|].
    split; [apply Z.pow_nonneg; lia|].
    rewrite <- H20. apply Z.pow_le_mono_r; lia. }
  assert (0 <= preFactorWindow ttl / uint32 windowFactor <= 1048576) as Hq.
  { split; [apply Z.div_pos; lia|].
    apply Z.div_le_upper_bound; [lia|]. nia. }
  assert (uint32 (preFactorWindow ttl / uint32 windowFactor + 1)
          = preFactorWindow ttl / uint32 windowFactor + 1) as ->.
  { apply uint32_small. unfold is_uint32. lia. }
  split; [lia|].
  set (w := preFactorWindow ttl / uint32 windowFactor + 1) in *.
  rewrite (uint32_small (w * 60)) by (unfold is_uint32; lia).
  rewrite uint32_small by (unfold is_uint32; lia). lia.
Qed.

End window_seconds.

Section store_setup.
Import go fmt cassandra.

(** X21: the loop that verifies the keyspace makes at most five
    attempts.  With fuel for five iterations it ends, after [n] calls of
    [KeyspaceMetadata] ([1 <= n <= 5]) and a sleep of five seconds after
    each attempt but the last; no attempt before the [n]-th found the
    keyspace with every table.  It is left when the [n]-th attempt did;
    otherwise [n = 5] and it returns [nil] and [err], which is the error of
    the fifth [KeyspaceMetadata] and is [nil] when that call succeeded and
    a table was missing. *)
Theorem AttemptLoop_attempts (keyspace : string) (g : gocql)
    (ttlTables : gmap Z ttlTable) (fuel : nat) :
  (forall a : Z, ranges g a ≡ₚ map_to_list ttlTables) ->
  (5 <= fuel)%nat ->
  exists (calls : list call) (r : option (option error)) (n : nat),
    AttemptLoop fuel keyspace g 1 = Some (calls, r)
    /\ (1 <= n <= 5)%nat
    /\ metadataCalls calls = replicate n keyspace
    /\ pauses calls = replicate (n - 1) (5 * Second)
    /\ (forall a, 1 <= a < Z.of_nat n -> ~ verified g ttlTables a)
    /\ match r with
       | None => verified g ttlTables (Z.of_nat n)
       | Some err =>
           n = 5%nat /\ ~ verified g ttlTables 5
           /\ err = match KeyspaceMetadata g 5 with
                    | inr e => Some e
                    | inl _ => None
                    end
       end.
Proof.
  intros Hranges Hfuel.
  destruct (AttemptLoop_from keyspace g 4 fuel ltac:(lia) ltac:(lia))
    as (calls & r & n & H & Hn1 & Hn6 & Hm & Hs & Hnot & Hr).
  change (5 - Z.of_nat 4) with 1 in *.
  exists calls, r, n. split; [done|]. split; [lia|]. split; [done|].
  split; [done|]. split.
  - intros a Ha. rewrite <- (passes_verified g ttlTables a (Hranges a)).
    apply Hnot. lia.
  - destruct r as [err|].
    + destruct Hr as (? & Hn & ->). split; [lia|]. split; [|done].
      by rewrite <- (passes_verified g ttlTables 5 (Hranges 5)).
    + rewrite <- (passes_verified g ttlTables _ (Hranges _)).
      by replace (Z.of_nat n) with (1 + Z.of_nat n - 1) by lia.
Qed.

Lemma seq_writers (n : nat) : forall i : nat,
  writers (GoProcessWriteQueue ∘ Z.of_nat <$> seq i n) = Z.of_nat <$> seq i n.
Proof.
  induction n as [|n IH]; intros i; [done|]. cbn. f_equal. apply IH.
Qed.

Lemma seq_readers (n i : nat) :
  readers (GoProcessWriteQueue ∘ Z.of_nat <$> seq i n) = [].
Proof. revert i. induction n as [|n IH]; intros i; [done|]. cbn. apply IH. Qed.

Lemma replicate_writers (n : nat) :
  writers (replicate n GoProcessReadQueue) = [].
Proof. induction n as [|n IH]; [done|]. cbn. apply IH. Qed.

Lemma replicate_readers (n : nat) :
  readers (replicate n GoProcessReadQueue) = replicate n tt.
Proof. induction n as [|n IH]; [done|]. cbn. f_equal. apply IH. Qed.

(** X22: what a store that [NewCassandraStore] returns stands for.  It
    has a session and the tables of [GetTTLTables] for the TTLs.  When the
    configuration asks to create the schema, a table query was executed
    without an error for every one of these tables, with the window size of
    the table and the same in seconds, [WindowSize * 3600], which does not
    wrap; otherwise one of at most five attempts found the keyspace with
    all of them.  The host selection policy is one of the six known; the
    store has [WriteConcurrency] write queues, a number that is not negative
    and can be 0, one writer was started for each, and [ReadConcurrency]
    readers. *)
Theorem NewCassandraStore_store (fuel : nat) (config : StoreConfig)
    (ttls : list Z) (g : gocql) (calls : list call) (c : CassandraStore)
    (writeQueues : Z) :
  Forall is_uint32 ttls ->
  (forall a : Z, ranges g a ≡ₚ map_to_list (ttlTables c)) ->
  NewCassandraStore fuel config ttls g
  = Some (calls, ReturnStore c writeQueues) ->
  Session c = true
  /\ GetTTLTables ttls (WindowFactor config) Table_name_format
     = Some (ttlTables c)
  /\ (if CreateKeyspace config
      then forall ttl t, ttlTables c !! ttl = Some t ->
             CallExecTable (Keyspace config) (Table t) (WindowSize t)
               (WindowSize t * 3600) None ∈ calls
      else exists a, 1 <= a <= 5 /\ verified g (ttlTables c) a)
  /\ is_Some (hostSelectionPolicy (HostSelectionPolicy config))
  /\ writeQueues = WriteConcurrency config /\ 0 <= writeQueues
  /\ writers calls = Z.of_nat <$> seq 0 (Z.to_nat writeQueues)
  /\ readers calls = replicate (Z.to_nat (ReadConcurrency config)) tt.
Proof.
  intros Hu Hranges. unfold NewCassandraStore.
  destruct (tmpSession g) as [err|]; [done|].
  destruct (GetTTLTables ttls (WindowFactor config) Table_name_format)
    as [tables|] eqn:Htables; [|done].
  match goal with
  | |- context [match ?x with Some _ => _ | None => None end] =>
      destruct x as [[calls0 [err|]]|] eqn:Hschema; [done| |done]
  end.
  destruct (hostSelectionPolicy (HostSelectionPolicy config)) as [p|] eqn:Hp;
    [|done].
  destruct (session g) as [err|]; [done|].
  destruct (_ || _) eqn:Hneg; [done|].
  intros [= <- <- <-]. cbn [Session ttlTables] in *.
  split; [done|]. split; [done|].
  assert (writers calls0 = [] /\ readers calls0 = [] /\
          if CreateKeyspace config
          then forall ttl t, tables !! ttl = Some t ->
                 CallExecTable (Keyspace config) (Table t) (WindowSize t)
                   (WindowSize t * 3600) None ∈ calls0
          else exists a, 1 <= a <= 5 /\ verified g tables a)
    as (Hw & Hr & Hs).
  { destruct (CreateKeyspace config).
    - destruct (execKeyspace g) as [err|]; [done|].
      destruct (createTables (Keyspace config) (execTable g) 0 (ranges g 0))
        as [calls1 [err|]] eqn:Hc; [done|].
      injection Hschema as <-.
      destruct (createTables_no_go _ _ _ _ _ _ Hc) as [Hw Hr].
      split; [done|]. split; [done|].
      intros ttl t Ht.
      pose proof (createTables_created _ _ _ _ _ Hc (ttl, t)) as Hin.
      cbn in Hin.
      assert (ttl ∈ ttls /\ GetTTLTable ttl (WindowFactor config)
                              Table_name_format = Some t) as [Hin' Hg].
      { rewrite (GetTTLTables_loop_lookup _ _ _ _ _ ttl Htables) in Ht.
        case_bool_decide; [done|]. by rewrite lookup_empty in Ht. }
      rewrite Forall_forall in Hu.
      destruct (WindowSize_seconds _ _ _ _ (Hu _ Hin') Hg) as [_ <-].
      do 2 right. apply Hin. rewrite Hranges.
      by apply elem_of_map_to_list.
    - destruct (AttemptLoop_no_go _ _ _ _ _ _ Hschema) as [Hw Hr].
      split; [done|]. split; [done|].
      destruct (AttemptLoop_result _ _ _ _ _ Hschema) as (a & Ha & Hpass).
      exists a. split; [done|].
      by apply (passes_verified g tables a (Hranges a)). }
  split.
  { destruct (CreateKeyspace config); [|done].
    intros ttl t Ht. right. rewrite !elem_of_app. left. left. exact (Hs ttl t Ht). }
  split; [done|]. split; [done|].
  apply orb_false_iff in Hneg as [Hneg _].
  apply orb_false_iff in Hneg as [Hneg _]. apply Z.ltb_ge in Hneg.
  split; [done|].
  assert (forall l l', writers (l ++ l') = writers l ++ writers l') as Wapp
    by (intros; apply omap_app).
  assert (forall l l', readers (l ++ l') = readers l ++ readers l') as Rapp
    by (intros; apply omap_app).
  set (W := GoProcessWriteQueue ∘ Z.of_nat <$> seq 0 _).
  set (R := replicate _ GoProcessReadQueue).
  match goal with
  | |- writers ?l = _ /\ _ =>
      assert (l = [CallCreateSession None] ++ calls0
                  ++ [CallClose; CallCreateSession None; LogDebug] ++ W ++ R)
        as -> by (cbn; by rewrite <- app_assoc)
  end.
  subst W R.
  rewrite !Wapp, !Rapp, Hw, Hr, seq_writers, seq_readers, replicate_writers,
    replicate_readers.
  cbn. by rewrite app_nil_r.
Qed.

(** X23: when [NewCassandraStore] returns no store.  A store is returned
    only when both sessions were created and the host selection policy is
    one of the six known.  A [nil] store comes with the error that
    [fmt.Errorf] builds for an unknown host selection policy, after the
    schema was created or verified and the temporary session closed; with
    an error of the driver, which is the error of the first
    [CreateSession], of the keyspace query, of the first table query that
    failed, of the fifth [KeyspaceMetadata] (after five attempts in vain),
    or of the second [CreateSession] (with a known host selection policy);
    or with a [nil] error, and then the schema is verified, not created, no
    attempt found the keyspace with every table and in the fifth attempt
    [KeyspaceMetadata] succeeded and a table was missing. *)
Theorem NewCassandraStore_no_store (fuel : nat) (config : StoreConfig)
    (ttls : list Z) (g : gocql) (calls : list call) (r : returned) :
  NewCassandraStore fuel config ttls g = Some (calls, r) ->
  match r with
  | ReturnStore _ _ =>
      tmpSession g = None /\ session g = None
      /\ is_Some (hostSelectionPolicy (HostSelectionPolicy config))
  | ReturnUnknownHostSelectionPolicy policy =>
      policy = HostSelectionPolicy config
      /\ hostSelectionPolicy policy = None
      /\ tmpSession g = None
      /\ (if CreateKeyspace config
          then execKeyspace g = None
               /\ forall n, (n < length (ranges g 0))%nat ->
                    execTable g n = None
          else exists a, 1 <= a <= 5 /\ passes g a)
      /\ last calls = Some CallClose
  | ReturnNil (Some e) =>
      tmpSession g = Some e
      \/ (tmpSession g = None /\ CreateKeyspace config = true
          /\ (execKeyspace g = Some e
              \/ (execKeyspace g = None
                  /\ exists n, (n < length (ranges g 0))%nat
                       /\ execTable g n = Some e
                       /\ forall k, (k < n)%nat -> execTable g k = None)))
      \/ (tmpSession g = None /\ CreateKeyspace config = false
          /\ (forall a, 1 <= a <= 5 -> ~ passes g a)
          /\ KeyspaceMetadata g 5 = inr e)
      \/ (tmpSession g = None
          /\ is_Some (hostSelectionPolicy (HostSelectionPolicy config))
          /\ session g = Some e)
  | ReturnNil None =>
      tmpSession g = None /\ CreateKeyspace config = false
      /\ (forall a, 1 <= a <= 5 -> ~ passes g a)
      /\ exists tables e, KeyspaceMetadata g 5 = inl tables
           /\ e ∈ ranges g 5 /\ Table e.2 ∉ tables
  end.
Proof.
  unfold NewCassandraStore.
  destruct (tmpSession g) as [err0|]; [intros [= <- <-]; by left|].
  destruct (GetTTLTables ttls (WindowFactor config) Table_name_format)
    as [tables|] eqn:Htables; [|done].
  match goal with
  | |- context [match ?x with Some _ => _ | None => None end] =>
      destruct x as [[calls0 [err0|]]|] eqn:Hschema; [| |done]
  end.
  - intros [= <- <-].
    destruct (CreateKeyspace config) eqn:Hck.
    + destruct (execKeyspace g) as [e|] eqn:Hk.
      * injection Hschema as <- <-. right. left. eauto.
      * destruct (createTables (Keyspace config) (execTable g) 0 (ranges g 0))
          as [calls1 [e|]] eqn:Hc; [|done].
        injection Hschema as <- <-.
        destruct (createTables_error _ _ _ _ _ _ Hc) as (m & Hm & He & Hb).
        right. left. split; [done|]. split; [done|]. right. split; [done|].
        exists m. split; [lia|]. split; [done|]. intros k Hk'. apply Hb. lia.
    + destruct (AttemptLoop_result _ _ _ _ _ Hschema) as [Hnp Herr].
      destruct (KeyspaceMetadata g 5) as [tbls|e] eqn:Hm5; subst err0.
      * split; [done|]. split; [done|]. split; [done|].
        destruct (notFound tbls (ranges g 5)) as [table|] eqn:Hnf.
        -- destruct (notFound_Some _ _ _ Hnf) as (Hout & e & He & <-).
           by exists tbls, e.
        -- destruct (Hnp 5 ltac:(lia)). by exists tbls.
      * right. right. left. done.
  - destruct (hostSelectionPolicy (HostSelectionPolicy config)) as [p|] eqn:Hp.
    + destruct (session g) as [e|] eqn:Hs.
      * intros [= <- <-]. right. right. right. eauto.
      * destruct (_ || _); [done|]. intros [= <- <-]. eauto.
    + intros [= <- <-]. split; [done|]. split; [done|]. split; [done|].
      split.
      * destruct (CreateKeyspace config) eqn:Hck.
        -- destruct (execKeyspace g) as [e|] eqn:Hk; [done|].
           destruct (createTables (Keyspace config) (execTable g) 0
                       (ranges g 0)) as [calls1 [e|]] eqn:Hc; [done|].
           split; [done|]. intros n Hn.
           apply (createTables_ok _ _ _ _ _ Hc). lia.
        -- exact (AttemptLoop_result _ _ _ _ _ Hschema).
      * change (CallCreateSession None :: calls0 ++ [CallClose])
          with ((CallCreateSession None :: calls0) ++ [CallClose]).
        apply last_snoc.
Qed.

End store_setup.

Section setup_examples.
Import go fmt cassandra.

Lemma scenario_ranges (tables : gset string) (a : Z) :
  ranges (scenario.answers tables) a ≡ₚ map_to_list (ttlTables scenario.store).
Proof. cbn. by rewrite map_to_list_singleton. Qed.

Lemma AttemptLoop_attempts_witness :
  exists (calls : list call) (r : option (option error)) (n : nat),
    AttemptLoop 5 "raintank" (scenario.answers ∅) 1 = Some (calls, r)
    /\ (1 <= n <= 5)%nat
    /\ metadataCalls calls = replicate n "raintank"
    /\ pauses calls = replicate (n - 1) (5 * Second)
    /\ (forall a, 1 <= a < Z.of_nat n ->
          ~ verified (scenario.answers ∅) (ttlTables scenario.store) a)
    /\ match r with
       | None => verified (scenario.answers ∅) (ttlTables scenario.store) (Z.of_nat n)
       | Some err =>
           n = 5%nat /\ ~ verified (scenario.answers ∅) (ttlTables scenario.store) 5
           /\ err = None
       end.
Proof.
  exact (AttemptLoop_attempts "raintank" (scenario.answers ∅)
           (ttlTables scenario.store) 5 (scenario_ranges ∅) (le_n 5)).
Defined.

Lemma NewCassandraStore_store_witness :
  let calls :=
    [CallCreateSession None; LogInfoKeyspace "raintank";
     CallExecKeyspace "raintank" None; LogInfoTable "metric_1";
     CallExecTable "raintank" "metric_1" 1 3600 None; CallClose;
     CallCreateSession None; LogDebug; GoProcessWriteQueue 0;
     GoProcessWriteQueue 1; GoProcessReadQueue] in
  NewCassandraStore 0 (scenario.config true) [3600] (scenario.answers ∅)
  = Some (calls, ReturnStore scenario.store 2)
  /\ writers calls = [0; 1] /\ readers calls = [tt].
Proof.
  intros calls.
  assert (NewCassandraStore 0 (scenario.config true) [3600] (scenario.answers ∅)
          = Some (calls, ReturnStore scenario.store 2)) as Heq
    by (vm_compute; reflexivity).
  split; [exact Heq|].
  destruct (NewCassandraStore_store 0 (scenario.config true) [3600] (scenario.answers ∅) calls
              scenario.store 2
              ltac:(repeat constructor; unfold is_uint32; lia)
              (scenario_ranges ∅) Heq)
    as (_ & _ & _ & _ & _ & _ & Hw & Hr).
  split; [exact Hw|exact Hr].
Defined.

Lemma NewCassandraStore_no_store_witness :
  exists calls : list call,
    NewCassandraStore 5 (scenario.config false) [3600] (scenario.answers ∅)
    = Some (calls, ReturnNil None)
    /\ exists tables e, KeyspaceMetadata (scenario.answers ∅) 5 = inl tables
         /\ e ∈ ranges (scenario.answers ∅) 5 /\ Table e.2 ∉ tables.
Proof.
  eexists. 
  assert (NewCassandraStore 5 (scenario.config false) [3600] (scenario.answers ∅)
          = Some (default [] (fst <$> NewCassandraStore 5 (scenario.config false)
                                         [3600] (scenario.answers ∅)),
                  ReturnNil None)) as Heq by (vm_compute; reflexivity).
  split; [exact Heq|].
  destruct (NewCassandraStore_no_store 5 (scenario.config false) [3600]
              (scenario.answers ∅) _ (ReturnNil None) Heq) as (_ & _ & _ & H).
  exact H.
Defined.


End setup_examples.
